(** * FlavorGraph: the recipe-suggestion engine of [flavorgraph/engine.py]

    A shallow embedding of [FlavorGraphEngine] and the properties of its
    coverage resolver, scorer, plan search and gap analyser.

    Modelling conventions.
    - Python [str] values are ASCII strings ([string]); [strip] and [lower]
      are the ASCII restrictions of [str.strip()] and [str.lower()].
    - Python [set] values are [gset string]; [sorted(s)] of a set is the
      ascending list of its elements under the byte-wise lexical order.
    - [self.substitutions] and the per-recipe [subs_used] dictionaries are
      only read by key or counted: they are [gmap]s.  [self.recipes] is
      iterated in insertion order: it is an association list with unique keys,
      built the way the dict comprehension of [_load] builds it.
    - Python [float] is IEEE 754 binary64: scores are primitive floats, with
      the same operations in the same order as the source.
    - [int] request fields are [Z]; [len(...)] values are [nat].
    - Of [app.py] only the list comprehension that builds the availability
      list from the JSON array is embedded; an array element is a string or
      some other JSON value. *)

From Stdlib Require Import Floats ZArith Ascii String List.
From Stdlib Require Uint63.
From stdpp Require Import gmap strings list sorting.

#[local] Open Scope string_scope.
#[local] Open Scope list_scope.
#[local] Set Warnings "-inexact-float".

(** ** Ingredient normalizer: [s.strip().lower()] *)

Module Normalizer.

(** Whitespace of [str.isspace] below code point 128. *)
Definition is_space (a : ascii) : bool :=
  let n := N_of_ascii a in
  ((9 <=? n)%N && (n <=? 13)%N) || ((28 <=? n)%N && (n <=? 32)%N).

Fixpoint lstrip (s : string) : string :=
  match s with
  | String a s' => if is_space a then lstrip s' else s
  | EmptyString => EmptyString
  end.

Definition rstrip (s : string) : string := String.rev (lstrip (String.rev s)).

Definition strip (s : string) : string := rstrip (lstrip s).

Definition lower_ascii (a : ascii) : ascii :=
  let n := N_of_ascii a in
  if (65 <=? n)%N && (n <=? 90)%N then ascii_of_N (n + 32) else a.

Fixpoint lower (s : string) : string :=
  match s with
  | String a s' => String (lower_ascii a) (lower s')
  | EmptyString => EmptyString
  end.

Definition normalize (s : string) : string := lower (strip s).

End Normalizer.

Import Normalizer.

(** ** Python containers *)

(** [sorted(s)] for a set of strings. *)
Definition sorted (s : gset string) : list string :=
  merge_sort String.le (elements s).

(** [{i.strip().lower() for i in xs}] *)
Definition normalized_set (xs : list string) : gset string :=
  list_to_set (normalize <$> xs).

(** An insertion-ordered dictionary with string keys. *)
Module PyDict.

Abbreviation t V := (list (string * V)).

(** [d[k] = v]: a present key keeps its position. *)
Fixpoint set {V} (k : string) (v : V) (d : t V) : t V :=
  match d with
  | [] => [(k, v)]
  | (k', v') :: d' =>
      if decide (k = k') then (k, v) :: d' else (k', v') :: set k v d'
  end.

(** [d.get(k)] *)
Fixpoint get {V} (k : string) (d : t V) : option V :=
  match d with
  | [] => None
  | (k', v') :: d' => if decide (k = k') then Some v' else get k d'
  end.

Definition keys {V} (d : t V) : list string := fst <$> d.
Definition values {V} (d : t V) : list V := snd <$> d.

(** [{key(x): x for x in xs}] *)
Definition of_list {V} (key : V → string) (xs : list V) : t V :=
  foldl (λ d x, set (key x) x d) [] xs.

End PyDict.

(** ** Data model *)

(** A recipe record of [recipes.json].  An absent ["ingredients"],
    ["instructions"] or ["tags"] key reads as the empty list through
    [r.get(key, [])].  The keys ["id"] and ["title"] are read as [r["id"]]
    and [r["title"]]: the records modelled are those that carry both, and
    the [KeyError] of a record without one of them is outside the model. *)
Record Recipe : Type := {
  recipe_id : string;
  title : string;
  ingredients : list string;
  instructions : list string;
  tags : list string
}.

Record SuggestionRequest : Type := {
  available_ingredients : list string;
  max_missing : Z;
  allow_substitutions : bool;
  max_suggestions : Z;
  plan_size : Z;
  prioritize_min_missing : bool
}.

(** The state of a [FlavorGraphEngine] after [_load]: the two dictionaries
    the operations below read.  [ingredient_tags] and the inverted index
    [ingredient_to_recipes] are filled by [_load] and read by none of them. *)
Record FlavorGraphEngine : Type := {
  recipes : PyDict.t Recipe;
  substitutions : gmap string (list string)
}.

(** [_load]: [self.recipes = {r["id"]: r for r in json}] *)
Definition _load (rs : list Recipe) (subst : gmap string (list string))
  : FlavorGraphEngine :=
  {| recipes := PyDict.of_list recipe_id rs; substitutions := subst |}.

(** ** Coverage resolver *)

(** The triple [(missing, covered, subs_used)]. *)
Record Coverage : Type := {
  cov_missing : gset string;
  cov_covered : gset string;
  cov_subs : gmap string string
}.

Definition empty_coverage : Coverage :=
  {| cov_missing := ∅; cov_covered := ∅; cov_subs := ∅ |}.

(** The [for alt in ...: if alt in available: ... break] scan. *)
Definition first_available (available : gset string) (alts : list string)
  : option string :=
  List.find (λ alt, bool_decide (alt ∈ available)) alts.

(** One iteration of the loop over [recipe.get("ingredients", [])]. *)
Definition resolve_ingredient (self : FlavorGraphEngine)
    (available : gset string) (allow_subs : bool)
    (acc : Coverage) (ing : string) : Coverage :=
  let ing_key := normalize ing in
  if decide (ing_key ∈ available) then
    {| cov_missing := cov_missing acc;
       cov_covered := {[ing_key]} ∪ cov_covered acc;
       cov_subs := cov_subs acc |}
  else if allow_subs then
    match first_available available
            (default [] (substitutions self !! ing_key)) with
    | Some alt =>
        {| cov_missing := cov_missing acc;
           cov_covered := {[ing_key]} ∪ cov_covered acc;
           cov_subs := <[ing_key := alt]> (cov_subs acc) |}
    | None =>
        {| cov_missing := {[ing_key]} ∪ cov_missing acc;
           cov_covered := cov_covered acc;
           cov_subs := cov_subs acc |}
    end
  else
    {| cov_missing := {[ing_key]} ∪ cov_missing acc;
       cov_covered := cov_covered acc;
       cov_subs := cov_subs acc |}.

Definition _compute_missing_and_subs (self : FlavorGraphEngine)
    (recipe : Recipe) (available : gset string) (allow_subs : bool)
  : Coverage :=
  foldl (resolve_ingredient self available allow_subs) empty_coverage
        (ingredients recipe).

(** ** Scorer *)

(** The conversion of a Python [int] operand to [float] in mixed
    arithmetic.  A [len] is below [2^63], where [Uint63.of_Z] is the
    identity. *)
Definition float_of_len (n : nat) : float :=
  PrimFloat.of_uint63 (Uint63.of_Z (Z.of_nat n)).

Definition _score_recipe (covered missing : gset string)
    (subs_used : gmap string string) : float :=
  let covered_count := size covered in
  let missing_count := size missing in
  let subs_penalty := (0.2 * float_of_len (size subs_used))%float in
  (float_of_len covered_count - (float_of_len missing_count + subs_penalty))%float.

Definition _score_plan (covered missing : gset string)
    (subs_used : gmap string string) : float :=
  (float_of_len (size covered) - (1.5 * float_of_len (size missing))
   - (0.2 * float_of_len (size subs_used)))%float.

(** ** Python sequences: slices and [list.sort] *)

(** [l[:k]] *)
Definition slice_to {A} (k : Z) (l : list A) : list A :=
  if decide (0 ≤ k)%Z then take (Z.to_nat k) l
  else take (length l - Z.to_nat (- k)) l.

(** [list.sort(key=...)]: the keys are computed first, the elements are then
    ordered by [<] on the keys, equal keys keeping their order. *)
Section ListSort.
Context {K A : Type} (lt : K → K → bool).

Fixpoint insert_by (x : K * A) (l : list (K * A)) : list (K * A) :=
  match l with
  | [] => [x]
  | y :: l' => if lt x.1 y.1 then x :: y :: l' else y :: insert_by x l'
  end.

Definition sort_keyed (l : list (K * A)) : list (K * A) :=
  foldl (λ acc x, insert_by x acc) [] l.
End ListSort.

(** [<] on the tuples [(int, float)]: the first position where the two
    tuples differ (by [==]) decides. *)
Definition tuple_lt (x y : nat * float) : bool :=
  if decide (x.1 = y.1) then
    if (x.2 =? y.2)%float then false else (x.2 <? y.2)%float
  else bool_decide (x.1 < y.1)%nat.

(** ** Plan search *)

(** The [details] dictionary of a candidate. *)
Record Details : Type := {
  missing : list string;
  covered : list string;
  subs : gmap string string
}.

(** A candidate tuple [(recipe_id, score, details)]. *)
Definition Candidate : Type := string * float * Details.

Definition cand_id (c : Candidate) : string := c.1.1.
Definition cand_score (c : Candidate) : float := c.1.2.
Definition cand_details (c : Candidate) : Details := c.2.

(** One iteration of the greedy pre-ranking loop: [None] when the recipe is
    not appended. *)
Definition greedy_entry (self : FlavorGraphEngine) (req : SuggestionRequest)
    (available : gset string) (item : string * Recipe) : option Candidate :=
  let cov := _compute_missing_and_subs self item.2 available
               (allow_substitutions req) in
  if decide (Z.of_nat (size (cov_missing cov)) ≤ max_missing req)%Z then
    Some (item.1,
          _score_recipe (cov_covered cov) (cov_missing cov) (cov_subs cov),
          {| missing := sorted (cov_missing cov);
             covered := sorted (cov_covered cov);
             subs := cov_subs cov |})
  else None.

Definition greedy_scores (self : FlavorGraphEngine) (req : SuggestionRequest)
  : list Candidate :=
  omap (greedy_entry self req (normalized_set (available_ingredients req)))
       (recipes self).

(** The sort key [(len(self.recipes[x[0]].get("ingredients", [])), -x[1])];
    [None] stands for the [KeyError] of [self.recipes[x[0]]]. *)
Definition count_key (self : FlavorGraphEngine) (x : Candidate)
  : option (nat * float) :=
  r ← PyDict.get (cand_id x) (recipes self);
  Some (length (ingredients r), (- cand_score x)%float).

(** [greedy_scores.sort(key=...)] *)
Definition sort_candidates (self : FlavorGraphEngine) (req : SuggestionRequest)
    (l : list Candidate) : option (list Candidate) :=
  if prioritize_min_missing req then
    keys ← mapM (count_key self) l;
    Some ((sort_keyed tuple_lt (zip keys l)).*2)
  else
    Some ((sort_keyed PrimFloat.ltb
             ((λ x, ((- cand_score x)%float, x)) <$> l)).*2).

(** [top_candidates] *)
Definition top_candidates (self : FlavorGraphEngine) (req : SuggestionRequest)
  : option (list Candidate) :=
  l ← sort_candidates self req (greedy_scores self req);
  Some (slice_to (Z.max 25 (max_suggestions req * 3)) l).

(** The [nonlocal] variables of [backtrack]. *)
Record SearchState : Type := {
  best_plan : list string;
  best_plan_score : float;
  best_plan_details : gmap string Details
}.

Definition initial_state : SearchState :=
  {| best_plan := []; best_plan_score := neg_infinity;
     best_plan_details := ∅ |}.

(** The three accumulators of the evaluation loop over [chosen]. *)
Definition plan_missing (chosen : list Candidate) : gset string :=
  foldl (λ s c, s ∪ list_to_set (missing (cand_details c))) ∅ chosen.

Definition plan_covered (chosen : list Candidate) : gset string :=
  foldl (λ s c, s ∪ list_to_set (covered (cand_details c))) ∅ chosen.

(** [plan_subs.update(d)]: the entries of [d] win. *)
Definition plan_subs (chosen : list Candidate) : gmap string string :=
  foldl (λ m c, subs (cand_details c) ∪ m) ∅ chosen.

(** [{rid: det for rid, _, det in xs}] *)
Definition details_dict (xs : list Candidate) : gmap string Details :=
  foldl (λ m c, <[cand_id c := cand_details c]> m) ∅ xs.

(** "Evaluate current plan": the part of [backtrack] between the size test
    and the loop. *)
Definition evaluate (req : SuggestionRequest) (chosen : list Candidate)
    (st : SearchState) : SearchState :=
  if decide (Z.of_nat (size (plan_missing chosen)) ≤ max_missing req)%Z then
    let score := _score_plan (plan_covered chosen) (plan_missing chosen)
                   (plan_subs chosen) in
    if (best_plan_score st <? score)%float then
      {| best_plan := cand_id <$> chosen;
         best_plan_score := score;
         best_plan_details := details_dict chosen |}
    else st
  else st.

(** The body of [backtrack], given its loop over the candidates
    [top_candidates[start_idx:]]. *)
Definition backtrack_body
    (loop : list Candidate → list Candidate → gset string →
            SearchState → SearchState)
    (req : SuggestionRequest) (rest : list Candidate)
    (chosen : list Candidate) (used_ingredients : gset string)
    (st : SearchState) : SearchState :=
  if decide (plan_size req < Z.of_nat (length chosen))%Z then st
  else
    let st1 := evaluate req chosen st in
    if decide (Z.of_nat (length chosen) = plan_size req) then st1
    else loop rest chosen used_ingredients st1.

(** [for i in range(start_idx, len(top_candidates))], over the candidates
    [top_candidates[start_idx:]]; the recursive call [backtrack(i + 1, ...)]
    sees the candidates after the [i]-th. *)
Fixpoint backtrack_loop (req : SuggestionRequest) (cands : list Candidate)
    (chosen : list Candidate) (used_ingredients : gset string)
    (st : SearchState) {struct cands} : SearchState :=
  match cands with
  | [] => st
  | c :: rest =>
      let new_missing :=
        list_to_set (missing (cand_details c)) ∖ used_ingredients in
      let st' :=
        if decide (max_missing req < Z.of_nat (size new_missing))%Z then st
        else
          backtrack_body (backtrack_loop req) req rest (chosen ++ [c])
            (used_ingredients ∪ list_to_set (covered (cand_details c))) st
      in
      backtrack_loop req rest chosen used_ingredients st'
  end.

Definition backtrack (req : SuggestionRequest) (top : list Candidate)
    (start_idx : nat) (chosen : list Candidate)
    (used_ingredients : gset string) (st : SearchState) : SearchState :=
  backtrack_body (backtrack_loop req) req (drop start_idx top) chosen
    used_ingredients st.

(** The search state after [backtrack(0, [], set())]. *)
Definition plan_search (req : SuggestionRequest) (top : list Candidate)
  : SearchState :=
  backtrack req top 0 [] ∅ initial_state.

(** ** Response assembly *)

Record Suggestion : Type := {
  sg_id : string;
  sg_title : string;
  sg_ingredients : list string;
  sg_instructions : list string;
  sg_tags : list string;
  sg_missing : list string;
  sg_covered : list string;
  sg_substitutions : gmap string string
}.

Record SuggestionResponse : Type := {
  suggestions : list Suggestion;
  resp_plan_size : Z;
  resp_max_missing : Z
}.

(** [{"missing": [], "covered": [], "subs": {}}] *)
Definition no_details : Details :=
  {| missing := []; covered := []; subs := ∅ |}.

(** One iteration of the assembly loop; [None] stands for the [KeyError] of
    [self.recipes[rid]]. *)
Definition suggestion_of (self : FlavorGraphEngine)
    (details : gmap string Details) (rid : string) : option Suggestion :=
  r ← PyDict.get rid (recipes self);
  let det := default no_details (details !! rid) in
  Some {| sg_id := rid; sg_title := title r;
          sg_ingredients := ingredients r;
          sg_instructions := instructions r;
          sg_tags := tags r;
          sg_missing := missing det;
          sg_covered := covered det;
          sg_substitutions := subs det |}.

(** The plan and its details after the fallback test [if not best_plan]. *)
Definition final_plan (req : SuggestionRequest) (top : list Candidate)
    (st : SearchState) : list string * gmap string Details :=
  if decide (best_plan st = []) then
    (cand_id <$> slice_to (max_suggestions req) top,
     details_dict (slice_to (max_suggestions req) top))
  else (best_plan st, best_plan_details st).

Definition suggest_recipes (self : FlavorGraphEngine) (req : SuggestionRequest)
  : option SuggestionResponse :=
  top ← top_candidates self req;
  let plan := final_plan req top (plan_search req top) in
  sugs ← mapM (suggestion_of self plan.2)
              (slice_to (max_suggestions req) plan.1);
  Some {| suggestions := sugs;
          resp_plan_size := plan_size req;
          resp_max_missing := max_missing req |}.

(** ** Gap analyser *)

Record GapEntry : Type := {
  gap_title : string;
  gap_missing : list string;
  gap_covered : list string;
  substitution_candidates : gmap string (list string)
}.

(** The value stored at [gaps[rid]] for the recipe [r]. *)
Definition gap_entry (self : FlavorGraphEngine) (available_set : gset string)
    (r : Recipe) : GapEntry :=
  let cov := _compute_missing_and_subs self r available_set true in
  let candidates : gmap string (list string) :=
    set_to_map (λ m, (m, default [] (substitutions self !! m)))
               (cov_missing cov) in
  {| gap_title := title r;
     gap_missing := sorted (cov_missing cov);
     gap_covered := sorted (cov_covered cov);
     substitution_candidates := candidates |}.

(** One iteration of the loop over [recipe_ids]. *)
Definition analyze_gap (self : FlavorGraphEngine) (available_set : gset string)
    (gaps : PyDict.t GapEntry) (rid : string) : PyDict.t GapEntry :=
  match PyDict.get rid (recipes self) with
  | None => gaps
  | Some r => PyDict.set rid (gap_entry self available_set r) gaps
  end.

Definition analyze_gaps (self : FlavorGraphEngine) (recipe_ids : list string)
    (available : list string) : PyDict.t GapEntry :=
  foldl (analyze_gap self (normalized_set available)) [] recipe_ids.

(** ** Catalog accessors *)

Definition get_all_recipes (self : FlavorGraphEngine) : list Recipe :=
  PyDict.values (recipes self).

Definition get_all_ingredients (self : FlavorGraphEngine) : list string :=
  sorted (foldl (λ acc r, foldl (λ acc ing, {[ing]} ∪ acc) acc (ingredients r))
                ∅ (PyDict.values (recipes self))).

(** ** The inverted index of [_load] *)

(** [self.ingredient_to_recipes.setdefault(key, set()).add(recipe_id)] *)
Definition index_add (key rid : string) (index : gmap string (gset string))
  : gmap string (gset string) :=
  <[key := {[rid]} ∪ default ∅ (index !! key)]> index.

(** The two nested loops over [self.recipes.items()] and
    [recipe.get("ingredients", [])], from the empty dictionary. *)
Definition build_index (recipes : PyDict.t Recipe)
  : gmap string (gset string) :=
  foldl (λ index item,
           foldl (λ index ingredient,
                    index_add (normalize ingredient) item.1 index)
                 index (ingredients item.2))
        ∅ recipes.

(** [self.ingredient_to_recipes] after [_load]. *)
Definition ingredient_to_recipes (self : FlavorGraphEngine)
  : gmap string (gset string) :=
  build_index (recipes self).

(** ** The request boundary of [app.py] *)

(** An element of the JSON array [available_ingredients]: a string, or any
    other JSON value (number, boolean, null, array, object), which the filter
    [if i and isinstance(i, str)] drops whatever it is. *)
Inductive JsonItem : Type :=
  | JString (s : string)
  | JOther.

(** [[i.strip().lower() for i in items if i and isinstance(i, str)]] *)
Definition sanitize_ingredients (items : list JsonItem) : list string :=
  omap (λ i, match i with
             | JString s => if decide (s = "") then None else Some (normalize s)
             | JOther => None
             end) items.

(** ** Specification vocabulary *)

(** The alternative the resolver settles on for a normalized ingredient:
    none when the ingredient is directly available or substitutions are
    disallowed, else the first available alternative of the table. *)
Definition substitute_for (self : FlavorGraphEngine) (available : gset string)
    (allow_subs : bool) (k : string) : option string :=
  if decide (k ∈ available) then None
  else if allow_subs then
    first_available available (default [] (substitutions self !! k))
  else None.

(** The distinct normalized ingredient names of a recipe. *)
Definition distinct_ingredients (recipe : Recipe) : list string :=
  remove_dups (normalize <$> ingredients recipe).

(** How many of them are covered, are missing, and are covered through a
    substitution. *)
Definition covered_count (self : FlavorGraphEngine) (available : gset string)
    (allow_subs : bool) (recipe : Recipe) : nat :=
  length (filter (λ k, k ∈ available ∨
                       is_Some (substitute_for self available allow_subs k))
                 (distinct_ingredients recipe)).

Definition missing_count (self : FlavorGraphEngine) (available : gset string)
    (allow_subs : bool) (recipe : Recipe) : nat :=
  length (filter (λ k, (k ∉ available) ∧
                       substitute_for self available allow_subs k = None)
                 (distinct_ingredients recipe)).

Definition substitutions_count (self : FlavorGraphEngine)
    (available : gset string) (allow_subs : bool) (recipe : Recipe) : nat :=
  length (filter (λ k, is_Some (substitute_for self available allow_subs k))
                 (distinct_ingredients recipe)).

(** The distinct names over the recipes of a plan. *)
Definition plan_covered_names (chosen : list Candidate) : list string :=
  remove_dups (chosen ≫= λ c, covered (cand_details c)).

Definition plan_missing_names (chosen : list Candidate) : list string :=
  remove_dups (chosen ≫= λ c, missing (cand_details c)).

Definition plan_substituted_names (chosen : list Candidate) : list string :=
  remove_dups (chosen ≫= λ c, (map_to_list (subs (cand_details c))).*1).

(** The score the search gives to a plan. *)
Definition plan_score (chosen : list Candidate) : float :=
  _score_plan (plan_covered chosen) (plan_missing chosen) (plan_subs chosen).

(** A qualifying plan: recipes of the shortlist in shortlist order, at most
    [plan_size] of them, with an aggregated missing set within the budget. *)
Definition qualifying (req : SuggestionRequest) (top chosen : list Candidate)
  : Prop :=
  chosen `sublist_of` top ∧
  (Z.of_nat (length chosen) ≤ plan_size req)%Z ∧
  (Z.of_nat (size (plan_missing chosen)) ≤ max_missing req)%Z.

(** The aggregated missing set of the recorded best plan, read off the
    search state: the union of the missing lists its details hold for the
    identifiers of the plan. *)
Definition aggregated_missing (st : SearchState) : gset string :=
  ⋃ ((λ rid, list_to_set
               (missing (default no_details (best_plan_details st !! rid))))
       <$> best_plan st).

(** The candidate the greedy loop builds for a catalog entry. *)
Definition candidate_of (self : FlavorGraphEngine) (req : SuggestionRequest)
    (item : string * Recipe) : Candidate :=
  let cov := _compute_missing_and_subs self item.2
               (normalized_set (available_ingredients req))
               (allow_substitutions req) in
  (item.1,
   _score_recipe (cov_covered cov) (cov_missing cov) (cov_subs cov),
   {| missing := sorted (cov_missing cov);
      covered := sorted (cov_covered cov);
      subs := cov_subs cov |}).

(** The stage-1 filter on a catalog entry. *)
Definition within_missing (self : FlavorGraphEngine) (req : SuggestionRequest)
    (item : string * Recipe) : Prop :=
  (Z.of_nat (size (cov_missing
      (_compute_missing_and_subs self item.2
         (normalized_set (available_ingredients req))
         (allow_substitutions req)))) ≤ max_missing req)%Z.

#[global] Instance within_missing_dec self req item :
  Decision (within_missing self req item).
Proof. unfold within_missing. apply _. Defined.

(** What holds of the search state between two evaluations: either no plan
    or the empty plan is recorded, or a qualifying non-empty plan is recorded
    and the first non-empty plan that was recorded, [first], scored above
    zero. *)
Definition search_inv (req : SuggestionRequest) (top : list Candidate)
    (st : SearchState) : Prop :=
  (best_plan st = [] ∧ best_plan_details st = ∅ ∧
   ((best_plan_score st = neg_infinity ∧
     ((max_missing req < 0)%Z ∨ (plan_size req < 0)%Z)) ∨
    best_plan_score st = 0%float))
  ∨
  (∃ chosen first,
     chosen ≠ [] ∧ qualifying req top chosen ∧
     best_plan st = cand_id <$> chosen ∧
     best_plan_details st = details_dict chosen ∧
     best_plan_score st = plan_score chosen ∧
     first ≠ [] ∧ qualifying req top first ∧
     (0 <? plan_score first)%float = true).

(** Binary64 values that are zero or finite. *)
Definition sf_finite (x : spec_float) : Prop :=
  match x with
  | S754_zero _ | S754_finite _ _ _ => True
  | _ => False
  end.

(** Binary64 values that are zero, or finite and below [2 ^ B] in absolute
    value. *)
Definition sf_bounded (B : Z) (x : spec_float) : Prop :=
  match x with
  | S754_zero _ => True
  | S754_finite _ m e => (Zpos (digits2_pos m) + e ≤ B)%Z
  | _ => False
  end.

(** Binary64 values that are +0 or finite and positive. *)
Definition sf_nonneg (x : spec_float) : Prop :=
  match x with
  | S754_zero s | S754_finite s _ _ => s = false
  | _ => False
  end.

Definition not_nan (x : float) : Prop := Prim2SF x ≠ S754_nan.

(** The order of the binary64 values other than NaN is the lexicographic
    order of these triples: class and sign, exponent, mantissa. *)
Definition sf_key (x : spec_float) : Z * Z * Z :=
  match x with
  | S754_zero _ => (0, 0, 0)
  | S754_infinity s => (if s then -2 else 2, 0, 0)
  | S754_nan => (0, 0, 0)
  | S754_finite s m e => if s then (-1, - e, Zneg m) else (1, e, Zpos m)
  end%Z.

Definition float_key (x : float) : Z * Z * Z := sf_key (Prim2SF x).

Definition lex_lt (a b : Z * Z * Z) : Prop :=
  (a.1.1 < b.1.1 ∨
   (a.1.1 = b.1.1 ∧ (a.1.2 < b.1.2 ∨ (a.1.2 = b.1.2 ∧ a.2 < b.2))))%Z.

Definition lex_eq (a b : Z * Z * Z) : Prop :=
  a.1.1 = b.1.1 ∧ a.1.2 = b.1.2 ∧ a.2 = b.2.

(** The number of ingredients the sort key reads for a candidate. *)
Definition ingredient_count (self : FlavorGraphEngine) (c : Candidate) : nat :=
  from_option (λ r, length (ingredients r)) 0%nat
    (PyDict.get (cand_id c) (recipes self)).

(** The order of the shortlist: ascending ingredient count, then descending
    score, when [prioritize_min_missing] is set; descending score
    otherwise. *)
Definition ranked_before (self : FlavorGraphEngine) (req : SuggestionRequest)
    (a b : Candidate) : Prop :=
  if prioritize_min_missing req then
    (ingredient_count self a < ingredient_count self b)%nat ∨
    (ingredient_count self a = ingredient_count self b ∧
     (cand_score b <=? cand_score a)%float = true)
  else (cand_score b <=? cand_score a)%float = true.

(** ** Example catalogs *)

Module Examples.

(** The catalog of the end-to-end examples: R1 = {eggs, flour, milk},
    R2 = {eggs, sugar}, substitutions = {milk: [water]}. *)
Definition R1 : Recipe :=
  {| recipe_id := "R1"; title := "Pancakes";
     ingredients := ["eggs"; "flour"; "milk"];
     instructions := ["mix"; "fry"]; tags := ["breakfast"] |}.

Definition R2 : Recipe :=
  {| recipe_id := "R2"; title := "Meringue";
     ingredients := ["eggs"; "sugar"];
     instructions := ["whisk"; "bake"]; tags := ["dessert"] |}.

Definition table : gmap string (list string) := {[ "milk" := ["water"] ]}.

Definition engine : FlavorGraphEngine := _load [R1; R2] table.

Definition pantry : list string := ["eggs"; "flour"; "water"].

(** max_missing=1, plan_size=1, allow_substitutions=true, the other
    fields at their defaults. *)
Definition request : SuggestionRequest :=
  {| available_ingredients := pantry; max_missing := 1;
     allow_substitutions := true; max_suggestions := 8;
     plan_size := 1; prioritize_min_missing := true |}.

(** The same request, ranked by score alone. *)
Definition request_by_score : SuggestionRequest :=
  {| available_ingredients := pantry; max_missing := 1;
     allow_substitutions := true; max_suggestions := 8;
     plan_size := 1; prioritize_min_missing := false |}.

(** Only eggs are at hand: R2 misses sugar, R1 misses flour and milk. *)
Definition request_eggs_only : SuggestionRequest :=
  {| available_ingredients := ["eggs"]; max_missing := 1;
     allow_substitutions := true; max_suggestions := 8;
     plan_size := 1; prioritize_min_missing := true |}.

(** The pantry of [request], spelled otherwise. *)
Definition request_respelled : SuggestionRequest :=
  {| available_ingredients := [" Water"; "EGGS"; "flour "; "eggs"];
     max_missing := 1;
     allow_substitutions := true; max_suggestions := 8;
     plan_size := 1; prioritize_min_missing := true |}.

(** The same pantry with a budget of two missing ingredients. *)
Definition request_eggs_two : SuggestionRequest :=
  {| available_ingredients := ["eggs"]; max_missing := 2;
     allow_substitutions := true; max_suggestions := 8;
     plan_size := 1; prioritize_min_missing := true |}.

(** Nothing is at hand and nothing may be missing. *)
Definition request_empty_pantry : SuggestionRequest :=
  {| available_ingredients := []; max_missing := 0;
     allow_substitutions := true; max_suggestions := 8;
     plan_size := 1; prioritize_min_missing := true |}.

(** A plan of no recipe is asked for. *)
Definition request_no_plan : SuggestionRequest :=
  {| available_ingredients := pantry; max_missing := 1;
     allow_substitutions := true; max_suggestions := 8;
     plan_size := 0; prioritize_min_missing := true |}.

(** R1 with its ingredients re-spelled, reordered and repeated. *)
Definition R1_respelled : Recipe :=
  {| recipe_id := "R1"; title := "Pancakes";
     ingredients := [" Milk"; "FLOUR"; "eggs"; "milk "; "Eggs"];
     instructions := ["mix"; "fry"]; tags := ["breakfast"] |}.

(** A recipe whose ingredient names are not normalized. *)
Definition omelette : Recipe :=
  {| recipe_id := "R3"; title := "Omelette";
     ingredients := ["Eggs"; "eggs "];
     instructions := []; tags := [] |}.

End Examples.

(** * Properties *)

(** A closed decidable proposition, settled by evaluation. *)
Ltac by_evaluation := apply (bool_decide_unpack _); vm_compute; exact I.

(** ** Coverage resolver *)

Section Resolver.
Variable self : FlavorGraphEngine.
Variable available : gset string.
Variable allow_subs : bool.

#[local] Abbreviation step := (resolve_ingredient self available allow_subs).
#[local] Abbreviation subst_for := (substitute_for self available allow_subs).

Lemma substitute_for_available k :
  k ∈ available → subst_for k = None.
Proof. intros ?. unfold substitute_for. by rewrite decide_True. Qed.

Lemma resolve_ingredient_missing acc ing k :
  k ∈ cov_missing (step acc ing) ↔
  (k ∈ cov_missing acc ∨
   (k = normalize ing ∧ (k ∉ available) ∧ subst_for k = None)).
Proof.
  unfold resolve_ingredient, substitute_for.
  destruct (decide (normalize ing ∈ available)) as [Hin|Hin]; simpl.
  { split; [auto|]. intros [?|(-> & ? & _)]; done. }
  destruct allow_subs; [destruct (first_available _ _) eqn:Hfa|]; simpl.
  - split; [auto|]. intros [?|(-> & ? & Hk)]; [done|].
    rewrite decide_False in Hk by done. congruence.
  - rewrite elem_of_union, elem_of_singleton. split.
    + intros [->|?]; [right|by left].
      by rewrite decide_False by done.
    + intros [?|(-> & _)]; auto.
  - rewrite elem_of_union, elem_of_singleton. split.
    + intros [->|?]; [right|by left].
      by rewrite decide_False by done.
    + intros [?|(-> & _)]; auto.
Qed.

Lemma resolve_ingredient_covered acc ing k :
  k ∈ cov_covered (step acc ing) ↔
  (k ∈ cov_covered acc ∨
   (k = normalize ing ∧ (k ∈ available ∨ is_Some (subst_for k)))).
Proof.
  unfold resolve_ingredient, substitute_for.
  destruct (decide (normalize ing ∈ available)) as [Hin|Hin]; simpl.
  { rewrite elem_of_union, elem_of_singleton. naive_solver. }
  destruct allow_subs; [destruct (first_available _ _) eqn:Hfa|]; simpl.
  - rewrite elem_of_union, elem_of_singleton. split.
    + intros [->|?]; [right|by left]. split; [done|right].
      rewrite decide_False by done. by rewrite Hfa.
    + intros [?|(-> & _)]; auto.
  - split; [auto|]. intros [?|(-> & [?|Hs])]; [done|done|].
    rewrite decide_False in Hs by done. rewrite Hfa in Hs.
    by destruct Hs.
  - split; [auto|]. intros [?|(-> & [?|Hs])]; [done|done|].
    rewrite decide_False in Hs by done. by destruct Hs.
Qed.

Lemma resolve_ingredient_subs acc ing k :
  cov_subs (step acc ing) !! k =
  if decide (k = normalize ing ∧ is_Some (subst_for k))
  then subst_for k else cov_subs acc !! k.
Proof.
  unfold resolve_ingredient.
  destruct (decide (normalize ing ∈ available)) as [Hin|Hin]; simpl.
  { rewrite decide_False; [done|]. intros [-> Hs].
    rewrite substitute_for_available in Hs by done. by destruct Hs. }
  assert (subst_for (normalize ing) =
          if allow_subs
          then first_available available
                 (default [] (substitutions self !! normalize ing))
          else None) as Hsf.
  { unfold substitute_for. by rewrite decide_False. }
  destruct allow_subs; [destruct (first_available _ _) eqn:Hfa|]; simpl.
  - case_decide as Hk.
    + destruct Hk as [-> _]. by rewrite lookup_insert_eq, Hsf.
    + rewrite lookup_insert_ne; [done|]. intros <-. apply Hk.
      split; [done|]. rewrite Hsf. eauto.
  - rewrite decide_False; [done|]. intros [-> Hs].
    rewrite Hsf in Hs. by destruct Hs.
  - rewrite decide_False; [done|]. intros [-> Hs].
    rewrite Hsf in Hs. by destruct Hs.
Qed.

(** What the whole loop leaves in the three accumulators. *)
Lemma resolve_missing (recipe : Recipe) k :
  k ∈ cov_missing (_compute_missing_and_subs self recipe available allow_subs)
  ↔ k ∈ normalize <$> ingredients recipe ∧ (k ∉ available) ∧
    subst_for k = None.
Proof.
  unfold _compute_missing_and_subs.
  induction (ingredients recipe) as [|ing l IH] using rev_ind.
  - simpl. rewrite elem_of_nil. set_solver.
  - rewrite foldl_app. simpl. rewrite resolve_ingredient_missing, IH.
    rewrite fmap_app, elem_of_app. simpl. rewrite list_elem_of_singleton.
    naive_solver.
Qed.

Lemma resolve_covered (recipe : Recipe) k :
  k ∈ cov_covered (_compute_missing_and_subs self recipe available allow_subs)
  ↔ k ∈ normalize <$> ingredients recipe ∧
    (k ∈ available ∨ is_Some (subst_for k)).
Proof.
  unfold _compute_missing_and_subs.
  induction (ingredients recipe) as [|ing l IH] using rev_ind.
  - simpl. rewrite elem_of_nil. set_solver.
  - rewrite foldl_app. simpl. rewrite resolve_ingredient_covered, IH.
    rewrite fmap_app, elem_of_app. simpl. rewrite list_elem_of_singleton.
    naive_solver.
Qed.

Lemma resolve_subs (recipe : Recipe) k :
  cov_subs (_compute_missing_and_subs self recipe available allow_subs) !! k
  = if decide (k ∈ normalize <$> ingredients recipe)
    then subst_for k else None.
Proof.
  unfold _compute_missing_and_subs.
  induction (ingredients recipe) as [|ing l IH] using rev_ind.
  - rewrite decide_False by apply not_elem_of_nil. done.
  - rewrite foldl_app. simpl. rewrite resolve_ingredient_subs, IH.
    rewrite fmap_app. simpl.
    destruct (decide (k = normalize ing ∧ _)) as [[-> Hs]|Hn].
    + rewrite decide_True; [done|]. apply elem_of_app. right.
      by apply list_elem_of_singleton.
    + destruct (decide (k ∈ normalize <$> l)) as [Hl|Hl].
      * rewrite decide_True; [done|]. apply elem_of_app. by left.
      * case_decide as Hin; [|done].
        apply elem_of_app in Hin as [?|Hin]; [done|].
        apply list_elem_of_singleton in Hin as ->.
        destruct (subst_for (normalize ing)) eqn:Hs; [|done].
        destruct Hn. eauto.
Qed.

End Resolver.

(** The scan of the alternatives stops at the first one that is available. *)
Lemma first_available_Some available alts alt :
  first_available available alts = Some alt ↔
  ∃ pre post, alts = pre ++ alt :: post ∧ alt ∈ available ∧
              ∀ a, a ∈ pre → a ∉ available.
Proof.
  unfold first_available. induction alts as [|a alts IH]; simpl.
  - split; [done|]. intros (pre & post & Heq & _). by destruct pre.
  - destruct (bool_decide (a ∈ available)) eqn:Ha.
    + apply bool_decide_eq_true in Ha. split.
      * intros [= ->]. exists [], alts. split_and!; [done..|].
        intros ? []%elem_of_nil.
      * intros (pre & post & Heq & Hin & Hpre).
        destruct pre as [|b pre]; simplify_eq/=; [done|].
        destruct (Hpre b); [left|done].
    + apply bool_decide_eq_false in Ha. rewrite IH. split.
      * intros (pre & post & -> & Hin & Hpre).
        exists (a :: pre), post. split_and!; [done..|].
        intros b [->|?]%elem_of_cons; auto.
      * intros (pre & post & Heq & Hin & Hpre).
        destruct pre as [|b pre]; simplify_eq/=; [done|].
        exists pre, post. split_and!; [done..|].
        intros c ?. apply Hpre. by right.
Qed.

Lemma first_available_None available alts :
  first_available available alts = None ↔ ∀ a, a ∈ alts → a ∉ available.
Proof.
  unfold first_available. induction alts as [|a alts IH]; simpl.
  - split; [|done]. intros _ ? []%elem_of_nil.
  - destruct (bool_decide (a ∈ available)) eqn:Ha.
    + apply bool_decide_eq_true in Ha. split; [done|].
      intros Hall. destruct (Hall a); [left|done].
    + apply bool_decide_eq_false in Ha. rewrite IH. split.
      * intros Hall b [->|?]%elem_of_cons; auto.
      * intros Hall b ?. apply Hall. by right.
Qed.

(** C2: the missing and covered sets of the coverage resolver are disjoint,
    their union is the set of distinct normalized (trimmed, lower-cased)
    ingredients of the recipe, and every key of the substitutions used is a
    covered ingredient; for every recipe, availability set and value of
    [allow_subs]. *)
Theorem coverage_partition (self : FlavorGraphEngine) (recipe : Recipe)
    (available : gset string) (allow_subs : bool) :
  let cov := _compute_missing_and_subs self recipe available allow_subs in
  cov_missing cov ## cov_covered cov ∧
  cov_missing cov ∪ cov_covered cov
    = list_to_set (normalize <$> ingredients recipe) ∧
  dom (cov_subs cov) ⊆ cov_covered cov.
Proof.
  intros cov. subst cov. split_and!.
  - intros k. rewrite resolve_missing, resolve_covered.
    intros (_ & Hav & Hs) (_ & [?|Hsome]); [done|].
    rewrite Hs in Hsome. by destruct Hsome.
  - apply set_eq. intros k.
    rewrite elem_of_union, resolve_missing, resolve_covered,
      elem_of_list_to_set.
    destruct (decide (k ∈ available)),
      (substitute_for self available allow_subs k) eqn:Hs; naive_solver.
  - intros k. rewrite elem_of_dom, resolve_subs, resolve_covered.
    destruct (decide (k ∈ normalize <$> ingredients recipe)); [|by intros []].
    auto.
Qed.

(** C4: a required ingredient whose normalized name is available is covered
    and has no entry in the substitutions used, whatever the substitution
    table holds for it; otherwise, when substitutions are allowed, the first
    alternative of the table's ordered list that is available is recorded as
    the substitution used and the ingredient is covered; if no alternative is
    available, or substitutions are disallowed, the ingredient is missing. *)
Theorem resolver_first_match (self : FlavorGraphEngine) (recipe : Recipe)
    (available : gset string) (allow_subs : bool) (ing : string)
    (Hing : ing ∈ ingredients recipe) :
  let cov := _compute_missing_and_subs self recipe available allow_subs in
  let k := normalize ing in
  let alts := default [] (substitutions self !! k) in
  (k ∈ available →
     k ∈ cov_covered cov ∧ (k ∉ cov_missing cov) ∧ cov_subs cov !! k = None) ∧
  (k ∉ available → allow_subs = true →
     ∀ pre alt post,
       alts = pre ++ alt :: post → alt ∈ available →
       (∀ a, a ∈ pre → a ∉ available) →
       k ∈ cov_covered cov ∧ (k ∉ cov_missing cov) ∧
       cov_subs cov !! k = Some alt) ∧
  (k ∉ available →
     allow_subs = false ∨ (∀ a, a ∈ alts → a ∉ available) →
     k ∈ cov_missing cov ∧ (k ∉ cov_covered cov) ∧ cov_subs cov !! k = None).
Proof.
  intros cov k alts. subst cov.
  assert (k ∈ normalize <$> ingredients recipe) as Hk.
  { by apply list_elem_of_fmap_2. }
  pose proof (resolve_missing self available allow_subs recipe k) as Hm.
  pose proof (resolve_covered self available allow_subs recipe k) as Hc.
  pose proof (resolve_subs self available allow_subs recipe k) as Hs.
  rewrite decide_True in Hs by done. rewrite Hs. clear Hs.
  split_and!.
  - intros Hav. rewrite Hm, Hc, substitute_for_available by done.
    naive_solver.
  - intros Hav -> pre alt post Halts Halt Hpre. rewrite Hm, Hc.
    assert (substitute_for self available true k = Some alt) as ->.
    { unfold substitute_for. rewrite decide_False by done.
      apply first_available_Some. eauto. }
    split; [eauto|]. split; [|done]. intros (_ & _ & [=]).
  - intros Hav Hno. rewrite Hm, Hc.
    assert (substitute_for self available allow_subs k = None) as ->.
    { unfold substitute_for. rewrite decide_False by done.
      destruct Hno as [->|Hno]; [done|].
      destruct allow_subs; [|done]. by apply first_available_None. }
    split; [done|]. split; [|done]. intros (_ & [?|[? ?]]); done.
Qed.

(** The end-to-end example: milk is not in the pantry, water is the first
    alternative of milk that is. *)
Lemma resolver_first_match_example :
  let cov := _compute_missing_and_subs Examples.engine Examples.R1
               (normalized_set Examples.pantry) true in
  "milk" ∈ cov_covered cov ∧ ("milk" ∉ cov_missing cov) ∧
  cov_subs cov !! "milk" = Some "water".
Proof.
  assert ("milk" ∈ ingredients Examples.R1) as Hing.
  { by_evaluation. }
  destruct (resolver_first_match Examples.engine Examples.R1
              (normalized_set Examples.pantry) true "milk" Hing)
    as (_ & Hsub & _).
  apply (Hsub ltac:(by_evaluation) eq_refl
           [] "water" []).
  - vm_compute. reflexivity.
  - by_evaluation.
  - intros a Ha. apply elem_of_nil in Ha. destruct Ha.
Defined.

(** C5: for a fixed recipe and availability set, disallowing substitutions
    yields a missing set at least as large and a covered set no larger than
    allowing them. *)
Theorem substitutions_monotone (self : FlavorGraphEngine) (recipe : Recipe)
    (available : gset string) :
  let off := _compute_missing_and_subs self recipe available false in
  let on := _compute_missing_and_subs self recipe available true in
  cov_missing on ⊆ cov_missing off ∧
  cov_covered off ⊆ cov_covered on ∧
  (size (cov_missing on) ≤ size (cov_missing off))%nat ∧
  (size (cov_covered off) ≤ size (cov_covered on))%nat.
Proof.
  intros off on. subst off on.
  assert (∀ k, substitute_for self available false k = None) as Hoff.
  { intros k. unfold substitute_for. by case_decide. }
  assert (cov_missing (_compute_missing_and_subs self recipe available true)
          ⊆ cov_missing (_compute_missing_and_subs self recipe available false))
    as Hm.
  { intros k. rewrite !resolve_missing. rewrite Hoff. naive_solver. }
  assert (cov_covered (_compute_missing_and_subs self recipe available false)
          ⊆ cov_covered (_compute_missing_and_subs self recipe available true))
    as Hc.
  { intros k. rewrite !resolve_covered. rewrite Hoff.
    intros (? & [?|[? ?]]); [auto|done]. }
  split_and!; [done|done|apply subseteq_size, Hm|apply subseteq_size, Hc].
Qed.

(** The end-to-end example: R1 is covered, milk through water; R2 misses
    sugar. *)
Lemma resolver_example :
  let available := normalized_set Examples.pantry in
  let cov1 := _compute_missing_and_subs Examples.engine Examples.R1
                available true in
  let cov2 := _compute_missing_and_subs Examples.engine Examples.R2
                available true in
  (cov_covered cov1 = {["eggs"; "flour"; "milk"]} ∧ cov_missing cov1 = ∅ ∧
   cov_subs cov1 = {["milk" := "water"]}) ∧
  (cov_covered cov2 = {["eggs"]} ∧ cov_missing cov2 = {["sugar"]} ∧
   cov_subs cov2 = ∅).
Proof. repeat split; vm_compute; reflexivity. Qed.

(** ** Python containers *)

Lemma sorted_Permutation (X : gset string) : sorted X ≡ₚ elements X.
Proof. apply merge_sort_Permutation. Qed.

Lemma elem_of_sorted (X : gset string) x : x ∈ sorted X ↔ x ∈ X.
Proof. by rewrite sorted_Permutation, elem_of_elements. Qed.

Lemma NoDup_sorted (X : gset string) : NoDup (sorted X).
Proof. rewrite sorted_Permutation. apply NoDup_elements. Qed.

Lemma length_sorted (X : gset string) : length (sorted X) = size X.
Proof. by rewrite sorted_Permutation. Qed.

Lemma list_to_set_sorted (X : gset string) : list_to_set (sorted X) = X.
Proof. apply set_eq. intros x. by rewrite elem_of_list_to_set, elem_of_sorted. Qed.

(** [sorted] is ascending in the lexical order of strings. *)
Lemma sorted_ascending (X : gset string) : StronglySorted String.le (sorted X).
Proof. apply StronglySorted_merge_sort; apply _. Qed.

Module PyDictFacts.
Import PyDict.

Section Facts.
Context {V : Type}.
Implicit Types (d : PyDict.t V) (k : string) (v : V).

Lemma get_set d k k' v :
  get k (set k' v d) = if decide (k = k') then Some v else get k d.
Proof.
  induction d as [|[k0 v0] d IH]; simpl.
  - by destruct (decide (k = k')).
  - destruct (decide (k' = k0)) as [->|Hne]; simpl.
    + by destruct (decide (k = k0)).
    + destruct (decide (k = k0)) as [->|?].
      * by rewrite decide_False by done.
      * done.
Qed.

Lemma keys_set d k v :
  keys (set k v d) = if decide (k ∈ keys d) then keys d else keys d ++ [k].
Proof.
  unfold keys. induction d as [|[k0 v0] d IH]; csimpl.
  - done.
  - destruct (decide (k = k0)) as [->|Hne]; csimpl.
    + rewrite decide_True; [done|]. left.
    + rewrite IH. destruct (decide (k ∈ d.*1)) as [Hin|Hin].
      * rewrite decide_True; [done|]. by right.
      * rewrite decide_False; [done|].
        intros [?|?]%elem_of_cons; done.
Qed.

Lemma NoDup_keys_set d k v : NoDup (keys d) → NoDup (keys (set k v d)).
Proof.
  intros Hd. rewrite keys_set. case_decide; [done|].
  apply NoDup_app. split_and!; [done| |apply NoDup_singleton].
  intros x ? ->%list_elem_of_singleton. done.
Qed.

Lemma get_Some_elem_of d k v : get k d = Some v → (k, v) ∈ d.
Proof.
  induction d as [|[k0 v0] d IH]; simpl; [done|].
  destruct (decide (k = k0)) as [->|?].
  - intros [= ->]. left.
  - intros ?. right. auto.
Qed.

Lemma elem_of_get d k v : NoDup (keys d) → (k, v) ∈ d → get k d = Some v.
Proof.
  unfold keys. induction d as [|[k0 v0] d IH]; simpl.
  - by intros _ ?%elem_of_nil.
  - intros [Hk0 Hd]%NoDup_cons [[= -> ->]|Hin]%elem_of_cons.
    + by rewrite decide_True.
    + rewrite decide_False; [auto|]. intros ->. apply Hk0.
      apply list_elem_of_fmap. by exists (k0, v).
Qed.

Lemma get_None d k : get k d = None ↔ k ∉ keys d.
Proof.
  unfold keys. induction d as [|[k0 v0] d IH]; simpl.
  - split; [intros _; apply not_elem_of_nil|done].
  - destruct (decide (k = k0)) as [->|?].
    + split; [done|]. intros []. left.
    + rewrite IH, not_elem_of_cons. naive_solver.
Qed.

(** The dict comprehension [{key(x): x for x in xs}]. *)
Lemma NoDup_keys_of_list (key : V → string) xs :
  NoDup (keys (of_list key xs)).
Proof.
  unfold of_list. induction xs as [|x xs IH] using rev_ind.
  - apply NoDup_nil_2.
  - rewrite foldl_app. simpl. by apply NoDup_keys_set.
Qed.

Lemma get_of_list_key (key : V → string) xs k v :
  get k (of_list key xs) = Some v → key v = k ∧ v ∈ xs.
Proof.
  unfold of_list. induction xs as [|x xs IH] using rev_ind.
  - done.
  - rewrite foldl_app. simpl. rewrite get_set.
    destruct (decide (k = key x)) as [->|?].
    + intros [= ->]. split; [done|]. apply elem_of_app. right. left.
    + intros [? ?]%IH. split; [done|]. apply elem_of_app. by left.
Qed.
End Facts.
End PyDictFacts.

(** ** Catalog accessors *)

Lemma elem_of_add_all (acc : gset string) (l : list string) x :
  x ∈ foldl (λ acc ing, {[ing]} ∪ acc) acc l ↔ x ∈ acc ∨ x ∈ l.
Proof.
  revert acc. induction l as [|y l IH]; intros acc; simpl.
  - rewrite elem_of_nil. tauto.
  - rewrite IH, elem_of_union, elem_of_singleton, elem_of_cons. tauto.
Qed.

(** What [get_all_ingredients] returns: the ingredient names as the recipes
    spell them, without repetition, in ascending order. *)
Lemma get_all_ingredients_spec (self : FlavorGraphEngine) :
  (∀ x, x ∈ get_all_ingredients self ↔
        ∃ r, r ∈ get_all_recipes self ∧ x ∈ ingredients r) ∧
  NoDup (get_all_ingredients self) ∧
  StronglySorted String.le (get_all_ingredients self).
Proof.
  unfold get_all_ingredients, get_all_recipes.
  split_and!; [|apply NoDup_sorted|apply sorted_ascending].
  intros x. rewrite elem_of_sorted.
  assert (∀ (rs : list Recipe) (acc : gset string),
    x ∈ foldl (λ acc r, foldl (λ acc ing, {[ing]} ∪ acc) acc (ingredients r))
          acc rs ↔ x ∈ acc ∨ ∃ r, r ∈ rs ∧ x ∈ ingredients r) as Hgen.
  { induction rs as [|r rs IH]; intros acc; simpl.
    - split; [auto|]. intros [?|(r & []%elem_of_nil & _)]. done.
    - rewrite IH, elem_of_add_all. split.
      + intros [[?|?]|(r' & ? & ?)]; [by left|right..].
        * exists r. split; [left|done].
        * exists r'. split; [by right|done].
      + intros [?|(r' & [->|?]%elem_of_cons & ?)]; [by left; left|by left; right|].
        right. by exists r'. }
  rewrite Hgen. rewrite elem_of_empty. naive_solver.
Qed.

(** C6 fails on the code: the names are listed as spelled.  For a recipe
    with the ingredients ["Eggs"] and ["eggs "], [get_all_ingredients] returns
    both spellings, while the deduplicated, trimmed and lower-cased sequence
    is the single name ["eggs"]. *)
Lemma get_all_ingredients_not_normalized :
  get_all_ingredients (_load [Examples.omelette] ∅) = ["Eggs"; "eggs "] ∧
  sorted (normalized_set (ingredients Examples.omelette)) = ["eggs"].
Proof. split; vm_compute; reflexivity. Qed.

(** ** Gap analyser *)

Lemma analyze_gaps_get (self : FlavorGraphEngine) (recipe_ids : list string)
    (available : list string) (rid : string) :
  PyDict.get rid (analyze_gaps self recipe_ids available) =
  if decide (rid ∈ recipe_ids)
  then gap_entry self (normalized_set available)
         <$> PyDict.get rid (recipes self)
  else None.
Proof.
  unfold analyze_gaps.
  induction recipe_ids as [|x ids IH] using rev_ind; simpl.
  - done.
  - rewrite foldl_app. simpl. unfold analyze_gap at 1.
    destruct (PyDict.get x (recipes self)) as [r|] eqn:Hx.
    + rewrite PyDictFacts.get_set. destruct (decide (rid = x)) as [->|Hne].
      * rewrite decide_True, Hx; [done|]. apply elem_of_app. right. left.
      * rewrite IH. destruct (decide (rid ∈ ids)) as [Hin|Hin].
        -- rewrite decide_True; [done|]. apply elem_of_app. by left.
        -- rewrite decide_False; [done|].
           intros [?|?%list_elem_of_singleton]%elem_of_app; done.
    + rewrite IH. destruct (decide (rid ∈ ids)) as [Hin|Hin].
      * rewrite decide_True; [done|]. apply elem_of_app. by left.
      * destruct (decide (rid ∈ ids ++ [x])) as [Hin'|]; [|done].
        apply elem_of_app in Hin' as [?|Heq%list_elem_of_singleton]; [done|].
        subst rid. by rewrite Hx.
Qed.

Lemma analyze_gaps_NoDup (self : FlavorGraphEngine) (recipe_ids : list string)
    (available : list string) :
  NoDup (PyDict.keys (analyze_gaps self recipe_ids available)).
Proof.
  unfold analyze_gaps.
  induction recipe_ids as [|x ids IH] using rev_ind; simpl.
  - apply NoDup_nil_2.
  - rewrite foldl_app. simpl. unfold analyze_gap at 1.
    destruct (PyDict.get x (recipes self)); [|done].
    by apply PyDictFacts.NoDup_keys_set.
Qed.

(** C8: [analyze_gaps] holds exactly one entry for every requested
    identifier that is in the catalog and none for any other identifier;
    the entry is computed with substitutions allowed and holds the title,
    the sorted missing list, the sorted covered list and, for every missing
    ingredient, the whole list of the substitution table (the empty list when
    the table has no entry), whatever is available. *)
Theorem analyze_gaps_entries (self : FlavorGraphEngine)
    (recipe_ids available : list string) :
  let gaps := analyze_gaps self recipe_ids available in
  NoDup (PyDict.keys gaps) ∧
  ∀ rid,
    match PyDict.get rid gaps with
    | None => (rid ∉ recipe_ids) ∨ PyDict.get rid (recipes self) = None
    | Some g =>
        rid ∈ recipe_ids ∧
        ∃ r, PyDict.get rid (recipes self) = Some r ∧
          let cov := _compute_missing_and_subs self r
                       (normalized_set available) true in
          gap_title g = title r ∧
          gap_missing g = sorted (cov_missing cov) ∧
          gap_covered g = sorted (cov_covered cov) ∧
          StronglySorted String.le (gap_missing g) ∧
          StronglySorted String.le (gap_covered g) ∧
          dom (substitution_candidates g) = cov_missing cov ∧
          ∀ m, m ∈ cov_missing cov →
               substitution_candidates g !! m
               = Some (default [] (substitutions self !! m))
    end.
Proof.
  intros gaps. subst gaps. split; [apply analyze_gaps_NoDup|].
  intros rid. rewrite analyze_gaps_get.
  destruct (decide (rid ∈ recipe_ids)) as [Hin|Hin]; [|by left].
  destruct (PyDict.get rid (recipes self)) as [r|] eqn:Hr; simpl; [|by right].
  split; [done|]. exists r. split; [done|]. simpl.
  split_and!; [done|done|done|apply sorted_ascending..| |].
  - apply set_eq. intros m. rewrite elem_of_dom. unfold is_Some.
    setoid_rewrite lookup_set_to_map; [|naive_solver]. naive_solver.
  - intros m Hm. apply lookup_set_to_map; [naive_solver|]. eauto.
Qed.

(** The gap analysis example: only eggs at hand, R2 and an unknown
    identifier requested. *)
Lemma analyze_gaps_example :
  analyze_gaps Examples.engine ["R2"; "R9"] ["eggs"] =
  [("R2", {| gap_title := "Meringue"; gap_missing := ["sugar"];
             gap_covered := ["eggs"];
             substitution_candidates := {["sugar" := []]} |})].
Proof. vm_compute. reflexivity. Qed.

(** ** Scorer *)

(** The size of a set that is a decidable part of a list is the number of
    distinct elements of the list in that part. *)
Lemma size_distinct_filter (X : gset string) (l : list string)
    (P : string → Prop) `{!∀ k, Decision (P k)} :
  (∀ k, k ∈ X ↔ k ∈ l ∧ P k) →
  size X = length (filter P (remove_dups l)).
Proof.
  intros HX. unfold size, set_size. simpl. apply Permutation_length.
  apply NoDup_Permutation.
  - apply NoDup_elements.
  - apply NoDup_filter, NoDup_remove_dups.
  - intros k. rewrite elem_of_elements, list_elem_of_filter,
      elem_of_remove_dups, HX. tauto.
Qed.

Lemma size_distinct (X : gset string) (l : list string) :
  (∀ k, k ∈ X ↔ k ∈ l) → size X = length (remove_dups l).
Proof.
  intros HX. unfold size, set_size. simpl. apply Permutation_length.
  apply NoDup_Permutation.
  - apply NoDup_elements.
  - apply NoDup_remove_dups.
  - intros k. by rewrite elem_of_elements, elem_of_remove_dups, HX.
Qed.

Section Counts.
Variable self : FlavorGraphEngine.
Variable available : gset string.
Variable allow_subs : bool.
Variable recipe : Recipe.

#[local] Abbreviation cov :=
  (_compute_missing_and_subs self recipe available allow_subs).

Lemma size_cov_covered :
  size (cov_covered cov) = covered_count self available allow_subs recipe.
Proof.
  apply (size_distinct_filter _ _
           (λ k, k ∈ available ∨
                 is_Some (substitute_for self available allow_subs k))).
  intros k. apply resolve_covered.
Qed.

Lemma size_cov_missing :
  size (cov_missing cov) = missing_count self available allow_subs recipe.
Proof.
  apply (size_distinct_filter _ _
           (λ k, (k ∉ available) ∧
                 substitute_for self available allow_subs k = None)).
  intros k. apply resolve_missing.
Qed.

Lemma size_cov_subs :
  size (cov_subs cov) = substitutions_count self available allow_subs recipe.
Proof.
  rewrite <- size_dom.
  apply (size_distinct_filter _ _
           (λ k, is_Some (substitute_for self available allow_subs k))).
  intros k. rewrite elem_of_dom, resolve_subs.
  case_decide; [tauto|]. split; [by intros []|tauto].
Qed.
End Counts.

(** The accumulators of the plan evaluation. *)
Lemma elem_of_plan_missing chosen k :
  k ∈ plan_missing chosen ↔ k ∈ chosen ≫= λ c, missing (cand_details c).
Proof.
  unfold plan_missing. induction chosen as [|c l IH] using rev_ind.
  - simpl. by rewrite elem_of_empty, elem_of_nil.
  - rewrite foldl_app, bind_app. simpl.
    rewrite elem_of_union, IH, elem_of_list_to_set, elem_of_app.
    by rewrite (right_id [] app).
Qed.

Lemma elem_of_plan_covered chosen k :
  k ∈ plan_covered chosen ↔ k ∈ chosen ≫= λ c, covered (cand_details c).
Proof.
  unfold plan_covered. induction chosen as [|c l IH] using rev_ind.
  - simpl. by rewrite elem_of_empty, elem_of_nil.
  - rewrite foldl_app, bind_app. simpl.
    rewrite elem_of_union, IH, elem_of_list_to_set, elem_of_app.
    by rewrite (right_id [] app).
Qed.

Lemma elem_of_dom_plan_subs chosen k :
  k ∈ dom (plan_subs chosen) ↔
  k ∈ chosen ≫= λ c, (map_to_list (subs (cand_details c))).*1.
Proof.
  unfold plan_subs. induction chosen as [|c l IH] using rev_ind.
  - simpl. by rewrite dom_empty_L, elem_of_empty, elem_of_nil.
  - rewrite foldl_app, bind_app. simpl.
    rewrite dom_union_L, elem_of_union, IH, elem_of_app.
    rewrite (right_id [] app). rewrite elem_of_dom.
    assert (is_Some (subs (cand_details c) !! k) ↔
            k ∈ (map_to_list (subs (cand_details c))).*1) as ->; [|tauto].
    rewrite list_elem_of_fmap. split.
    + intros [v Hv]. exists (k, v). split; [done|].
      by apply elem_of_map_to_list.
    + intros ([k' v] & -> & Hv). exists v. by apply elem_of_map_to_list.
Qed.

(** C9: the single-recipe score of a coverage result is
    covered_count - (missing_count + 0.2 * substitutions_count) and the score
    of a plan is covered_count - 1.5 * missing_count
    - 0.2 * substitutions_count, in binary64 arithmetic, where the counts are
    those of the distinct normalized ingredient names that are covered,
    missing and substituted (over all recipes of the plan, for a plan). *)
Theorem scores_count_distinct_names :
  (∀ (self : FlavorGraphEngine) (recipe : Recipe) (available : gset string)
     (allow_subs : bool),
     let cov := _compute_missing_and_subs self recipe available allow_subs in
     _score_recipe (cov_covered cov) (cov_missing cov) (cov_subs cov) =
     (float_of_len (covered_count self available allow_subs recipe)
      - (float_of_len (missing_count self available allow_subs recipe)
         + 0.2 * float_of_len
                   (substitutions_count self available allow_subs recipe)))%float)
  ∧
  (∀ chosen : list Candidate,
     _score_plan (plan_covered chosen) (plan_missing chosen) (plan_subs chosen) =
     (float_of_len (length (plan_covered_names chosen))
      - 1.5 * float_of_len (length (plan_missing_names chosen))
      - 0.2 * float_of_len (length (plan_substituted_names chosen)))%float).
Proof.
  split.
  - intros self recipe available allow_subs cov. subst cov.
    unfold _score_recipe.
    by rewrite size_cov_covered, size_cov_missing, size_cov_subs.
  - intros chosen. unfold _score_plan.
    rewrite (size_distinct (plan_covered chosen) _ (elem_of_plan_covered chosen)).
    rewrite (size_distinct (plan_missing chosen) _ (elem_of_plan_missing chosen)).
    rewrite <- (size_dom (plan_subs chosen)).
    by rewrite (size_distinct _ _ (elem_of_dom_plan_subs chosen)).
Qed.

(** ** Binary64 arithmetic *)

(** Rounding, after the specification of the primitive floats. *)
Section FloatRounding.
#[local] Open Scope Z_scope.
#[local] Abbreviation fexp := (SpecFloat.fexp prec emax).

Lemma fexp_eq e : fexp e = Z.max (e - 53) (-1074).
Proof. reflexivity. Qed.

Lemma digits2_pos_succ p :
  Zpos (digits2_pos (Pos.succ p)) ≤ Zpos (digits2_pos p) + 1.
Proof. induction p; simpl; lia. Qed.

Lemma digits2_pos_le p k : Zpos p < 2 ^ k → 0 ≤ k → Zpos (digits2_pos p) ≤ k.
Proof.
  revert k. induction p as [p IH|p IH|]; intros k Hp Hk; simpl.
  - assert (k ≠ 0) by (intros ->; simpl in Hp; lia).
    replace k with (Z.succ (k - 1)) in Hp by lia.
    rewrite Z.pow_succ_r in Hp by lia.
    specialize (IH (k - 1)). lia.
  - assert (k ≠ 0) by (intros ->; simpl in Hp; lia).
    replace k with (Z.succ (k - 1)) in Hp by lia.
    rewrite Z.pow_succ_r in Hp by lia.
    specialize (IH (k - 1)). lia.
  - assert (k ≠ 0) by (intros ->; simpl in Hp; lia). lia.
Qed.

Lemma digits2_pos_iter_xO p k :
  Zpos (digits2_pos (Pos.iter xO p k)) = Zpos (digits2_pos p) + Zpos k.
Proof.
  induction k as [|k IH] using Pos.peano_ind.
  - simpl. lia.
  - rewrite Pos.iter_succ. simpl. lia.
Qed.

Lemma shr_1_bounds mrs :
  0 ≤ shr_m mrs →
  0 ≤ shr_m (shr_1 mrs) ∧ Zdigits2 (shr_m (shr_1 mrs)) ≤ Zdigits2 (shr_m mrs).
Proof.
  destruct mrs as [[|[p|p|]|p] r s]; simpl; intros ?; lia.
Qed.

Lemma iter_shr_1_bounds p mrs :
  0 ≤ shr_m mrs →
  0 ≤ shr_m (SpecFloat.iter_pos shr_1 p mrs) ∧
  Zdigits2 (shr_m (SpecFloat.iter_pos shr_1 p mrs)) ≤ Zdigits2 (shr_m mrs).
Proof.
  revert mrs. induction p as [p IH|p IH|]; intros mrs Hm; simpl.
  - destruct (shr_1_bounds mrs Hm) as [H1 H2].
    destruct (IH _ H1) as [H3 H4]. destruct (IH _ H3) as [H5 H6]. lia.
  - destruct (IH _ Hm) as [H3 H4]. destruct (IH _ H3) as [H5 H6]. lia.
  - by apply shr_1_bounds.
Qed.

Lemma shr_m_of_loc m l : shr_m (shr_record_of_loc m l) = m.
Proof. by destruct l as [|[]]. Qed.

Lemma shr_fexp_bounds m e l :
  0 ≤ m →
  0 ≤ shr_m (shr_fexp prec emax m e l).1 ∧
  Zdigits2 (shr_m (shr_fexp prec emax m e l).1) ≤ Zdigits2 m ∧
  (shr_fexp prec emax m e l).2 ≤ Z.max e (fexp (Zdigits2 m + e)).
Proof.
  intros Hm. unfold shr_fexp, shr.
  destruct (fexp (Zdigits2 m + e) - e) as [|p|p] eqn:Hn; simpl.
  - rewrite shr_m_of_loc. lia.
  - destruct (iter_shr_1_bounds p (shr_record_of_loc m l)) as [H1 H2].
    { by rewrite shr_m_of_loc. }
    rewrite shr_m_of_loc in H2. lia.
  - rewrite shr_m_of_loc. lia.
Qed.

Lemma round_nearest_even_bounds m l :
  0 ≤ m →
  0 ≤ round_nearest_even m l ∧
  Zdigits2 (round_nearest_even m l) ≤ Zdigits2 m + 1.
Proof.
  intros Hm.
  assert (0 ≤ m + 1 ∧ Zdigits2 (m + 1) ≤ Zdigits2 m + 1) as Hs.
  { destruct m as [|p|p]; [simpl; lia| |lia].
    split; [lia|]. replace (Z.pos p + 1) with (Z.pos (Pos.succ p)) by lia.
    apply digits2_pos_succ. }
  assert (Zdigits2 m ≤ Zdigits2 m + 1) by lia.
  unfold round_nearest_even. destruct l as [|[]]; try destruct (Z.even m); lia.
Qed.

(** Rounding a non-negative mantissa never yields NaN, and yields no
    infinity while the mantissa and exponent are small. *)
Lemma binary_round_aux_not_nan sx mx ex lx :
  0 ≤ mx → binary_round_aux prec emax sx mx ex lx ≠ S754_nan.
Proof.
  intros Hm. unfold binary_round_aux.
  pose proof (shr_fexp_bounds mx ex lx Hm) as (H1 & _ & _).
  destruct (shr_fexp prec emax mx ex lx) as [mrs' e']. simpl in H1.
  pose proof (round_nearest_even_bounds (shr_m mrs') (loc_of_shr_record mrs') H1)
    as [H2 _].
  pose proof (shr_fexp_bounds _ e' loc_Exact H2) as (H3 & _ & _).
  destruct (shr_fexp prec emax _ e' loc_Exact) as [mrs'' e'']. simpl in H3.
  destruct (shr_m mrs'') as [|p|p]; [done| |lia].
  by destruct (e'' <=? emax - prec).
Qed.

Lemma binary_round_aux_finite sx mx ex lx :
  0 ≤ mx → Zdigits2 mx ≤ 115 → ex ≤ 0 →
  sf_finite (binary_round_aux prec emax sx mx ex lx).
Proof.
  intros Hm Hd He. unfold binary_round_aux.
  pose proof (shr_fexp_bounds mx ex lx Hm) as (H1 & H1d & H1e).
  destruct (shr_fexp prec emax mx ex lx) as [mrs' e']. simpl in H1, H1d, H1e.
  pose proof (round_nearest_even_bounds (shr_m mrs') (loc_of_shr_record mrs') H1)
    as [H2 H2d].
  pose proof (shr_fexp_bounds _ e' loc_Exact H2) as (H3 & _ & H3e).
  destruct (shr_fexp prec emax _ e' loc_Exact) as [mrs'' e'']. simpl in H3, H3e.
  rewrite fexp_eq in H1e, H3e.
  destruct (shr_m mrs'') as [|p|p]; [done| |lia].
  assert (e'' ≤ emax - prec) as He''.
  { change (emax - prec) with 971. lia. }
  apply Z.leb_le in He''. by rewrite He''.
Qed.

Lemma binary_round_not_nan sx mx ex :
  binary_round prec emax sx mx ex ≠ S754_nan.
Proof.
  unfold binary_round. destruct (shl_align _ _ _) as [mz ez].
  by apply binary_round_aux_not_nan.
Qed.

Lemma binary_normalize_not_nan m e sz :
  binary_normalize prec emax m e sz ≠ S754_nan.
Proof.
  destruct m; simpl; [done|apply binary_round_not_nan..].
Qed.

Lemma of_uint63_finite u : sf_finite (Prim2SF (of_uint63 u)).
Proof.
  rewrite FloatAxioms.of_uint63_spec. pose proof (Uint63.to_Z_bounded u) as [Hlo Hhi].
  destruct (Uint63.to_Z u) as [|m|m]; [done| |lia]. simpl.
  assert (Zpos (digits2_pos m) ≤ 63) as Hd.
  { apply digits2_pos_le; [|lia]. exact Hhi. }
  unfold binary_round, shl_align. rewrite fexp_eq.
  destruct (Z.max _ _ - 0) as [|k|k] eqn:Hk.
  - apply binary_round_aux_finite; simpl; lia.
  - apply binary_round_aux_finite; simpl; lia.
  - apply binary_round_aux_finite; [lia| |lia].
    simpl. rewrite digits2_pos_iter_xO. lia.
Qed.

Lemma SF64mul_not_nan x y :
  sf_finite x → sf_finite y → SF64mul x y ≠ S754_nan.
Proof.
  destruct x as [sx|sx| |sx mx ex], y as [sy|sy| |sy my ey]; try done.
  intros _ _. by apply binary_round_aux_not_nan.
Qed.

Lemma SF64add_not_nan x y :
  sf_finite x → y ≠ S754_nan → SF64add x y ≠ S754_nan.
Proof.
  destruct x as [sx|sx| |sx mx ex], y as [sy|sy| |sy my ey]; try done.
  - intros _ _. simpl. by destruct sx, sy.
  - intros _ _. apply binary_normalize_not_nan.
Qed.

Lemma SF64sub_not_nan x y :
  sf_finite x → y ≠ S754_nan → SF64sub x y ≠ S754_nan.
Proof.
  destruct x as [sx|sx| |sx mx ex], y as [sy|sy| |sy my ey]; try done.
  - intros _ _. simpl. by destruct sx, sy.
  - intros _ _. apply binary_normalize_not_nan.
Qed.
End FloatRounding.


(** Comparison. *)
Section FloatOrder.
#[local] Open Scope Z_scope.

Lemma SFcompare_key x y :
  x ≠ S754_nan → y ≠ S754_nan →
  ∃ c, SFcompare x y = Some c ∧
       match c with
       | Lt => lex_lt (sf_key x) (sf_key y)
       | Eq => lex_eq (sf_key x) (sf_key y)
       | Gt => lex_lt (sf_key y) (sf_key x)
       end.
Proof.
  intros Hx Hy. unfold lex_lt, lex_eq.
  destruct x as [sx|sx| |sx mx ex], y as [sy|sy| |sy my ey]; try done;
    simpl; try (destruct sx); try (destruct sy); simpl;
    try (eexists; split; [reflexivity|]; simpl; lia).
  - destruct (Z.compare_spec ex ey) as [->| |]; simpl.
    + change (Pos.compare_cont Eq mx my) with (Pos.compare mx my).
      destruct (Pos.compare_spec mx my) as [->| |]; simpl;
        eexists; (split; [reflexivity|]); simpl; lia.
    + eexists; (split; [reflexivity|]); simpl; lia.
    + eexists; (split; [reflexivity|]); simpl; lia.
  - destruct (Z.compare_spec ex ey) as [->| |]; simpl.
    + change (Pos.compare_cont Eq mx my) with (Pos.compare mx my).
      destruct (Pos.compare_spec mx my) as [->| |]; simpl;
        eexists; (split; [reflexivity|]); simpl; lia.
    + eexists; (split; [reflexivity|]); simpl; lia.
    + eexists; (split; [reflexivity|]); simpl; lia.
Qed.

Lemma ltb_lex x y :
  not_nan x → not_nan y →
  (x <? y)%float = true ↔ lex_lt (float_key x) (float_key y).
Proof.
  intros Hx Hy. rewrite FloatAxioms.ltb_spec. unfold SFltb, float_key.
  destruct (SFcompare_key _ _ Hx Hy) as (c & -> & Hc).
  unfold lex_lt, lex_eq in *. destruct c; split; try done; lia.
Qed.

Lemma eqb_lex x y :
  not_nan x → not_nan y →
  (x =? y)%float = true ↔ lex_eq (float_key x) (float_key y).
Proof.
  intros Hx Hy. rewrite FloatAxioms.eqb_spec. unfold SFeqb, float_key.
  destruct (SFcompare_key _ _ Hx Hy) as (c & -> & Hc).
  unfold lex_lt, lex_eq in *. destruct c; split; try done; lia.
Qed.

Lemma leb_lex x y :
  not_nan x → not_nan y →
  (x <=? y)%float = true ↔ ¬ lex_lt (float_key y) (float_key x).
Proof.
  intros Hx Hy. rewrite FloatAxioms.leb_spec. unfold SFleb, float_key.
  destruct (SFcompare_key _ _ Hx Hy) as (c & -> & Hc).
  unfold lex_lt, lex_eq in *. destruct c; split; try done; lia.
Qed.

(** [x <= y] excludes [y < x], NaN or not. *)
Lemma leb_not_ltb x y : (x <=? y)%float = true → (y <? x)%float = false.
Proof.
  intros Hle. apply not_true_iff_false. intros Hlt.
  assert (not_nan x ∧ not_nan y) as [Hx Hy].
  { rewrite FloatAxioms.leb_spec in Hle. unfold SFleb, not_nan in *.
    destruct (Prim2SF x), (Prim2SF y); done. }
  apply leb_lex in Hle; [|done..]. apply ltb_lex in Hlt; done.
Qed.

Lemma opp_not_nan x : not_nan x → not_nan (- x)%float.
Proof.
  unfold not_nan. rewrite FloatAxioms.opp_spec. by destruct (Prim2SF x).
Qed.

Lemma opp_lex x y :
  lex_lt (float_key (- x)%float) (float_key (- y)%float) ↔
  lex_lt (float_key y) (float_key x).
Proof.
  unfold float_key. rewrite !FloatAxioms.opp_spec. unfold lex_lt.
  destruct (Prim2SF x) as [sx|sx| |sx mx ex], (Prim2SF y) as [sy|sy| |sy my ey];
    simpl; try (destruct sx); try (destruct sy); simpl; lia.
Qed.
End FloatOrder.

(** The operands of a score are lengths: the single-recipe score is never
    NaN. *)
Lemma score_recipe_not_nan (covered missing : gset string)
    (subs_used : gmap string string) :
  not_nan (_score_recipe covered missing subs_used).
Proof.
  unfold not_nan, _score_recipe, float_of_len.
  rewrite FloatAxioms.sub_spec, FloatAxioms.add_spec, FloatAxioms.mul_spec.
  apply SF64sub_not_nan; [apply of_uint63_finite|].
  apply SF64add_not_nan; [apply of_uint63_finite|].
  apply SF64mul_not_nan; [|apply of_uint63_finite].
  vm_compute. exact I.
Qed.

(** The comparisons of the sort keys are those of a total preorder. *)
Section KeyOrder.
#[local] Open Scope Z_scope.

Lemma ltb_asym x y :
  not_nan x → not_nan y → (x <? y)%float = true → (y <? x)%float = false.
Proof.
  intros Hx Hy Hlt. apply not_true_iff_false. revert Hlt.
  rewrite !ltb_lex by done. unfold lex_lt. lia.
Qed.

Lemma ltb_le_trans x y z :
  not_nan x → not_nan y → not_nan z →
  (y <? x)%float = false → (z <? y)%float = false → (z <? x)%float = false.
Proof.
  intros Hx Hy Hz. rewrite <- !not_true_iff_false.
  rewrite !ltb_lex by done. unfold lex_lt. lia.
Qed.

Lemma tuple_lt_lex (x y : nat * float) :
  not_nan x.2 → not_nan y.2 →
  tuple_lt x y = true ↔
  (x.1 < y.1)%nat ∨ (x.1 = y.1 ∧ lex_lt (float_key x.2) (float_key y.2)).
Proof.
  intros Hx Hy. unfold tuple_lt. case_decide as Heq.
  - destruct (x.2 =? y.2)%float eqn:Heqb.
    + apply eqb_lex in Heqb; [|done..]. unfold lex_eq, lex_lt in *.
      split; [done|]. lia.
    + rewrite ltb_lex by done. split; [auto|].
      intros [?|[_ ?]]; [lia|done].
  - rewrite bool_decide_eq_true. split; [auto|]. intros [?|[? _]]; done.
Qed.

Lemma tuple_lt_asym (x y : nat * float) :
  not_nan x.2 → not_nan y.2 → tuple_lt x y = true → tuple_lt y x = false.
Proof.
  intros Hx Hy Hlt. apply not_true_iff_false. revert Hlt.
  rewrite !tuple_lt_lex by done. unfold lex_lt. lia.
Qed.

Lemma tuple_lt_le_trans (x y z : nat * float) :
  not_nan x.2 → not_nan y.2 → not_nan z.2 →
  tuple_lt y x = false → tuple_lt z y = false → tuple_lt z x = false.
Proof.
  intros Hx Hy Hz. rewrite <- !not_true_iff_false.
  rewrite !tuple_lt_lex by done. unfold lex_lt. lia.
Qed.
End KeyOrder.

(** ** [list.sort]: a stable sort by [<] on the keys *)

Section SortPermutation.
Context {K A : Type} (lt : K → K → bool).

Lemma insert_by_Permutation (x : K * A) l : insert_by lt x l ≡ₚ x :: l.
Proof.
  induction l as [|y l IH]; simpl; [done|].
  destruct (lt x.1 y.1); [done|]. by rewrite IH, Permutation_swap.
Qed.

Lemma sort_keyed_Permutation (l : list (K * A)) : sort_keyed lt l ≡ₚ l.
Proof.
  unfold sort_keyed.
  assert (∀ acc, foldl (λ acc x, insert_by lt x acc) acc l ≡ₚ acc ++ l) as H.
  { induction l as [|x l IH]; intros acc; simpl.
    - by rewrite (right_id_L [] (++)).
    - rewrite IH, insert_by_Permutation. by rewrite <- Permutation_middle. }
  apply H.
Qed.
End SortPermutation.

Section SortSorted.
Context {K A : Type} (lt : K → K → bool) (ok : K → Prop).
Hypothesis lt_asym : ∀ x y, ok x → ok y → lt x y = true → lt y x = false.
Hypothesis le_trans :
  ∀ x y z, ok x → ok y → ok z →
           lt y x = false → lt z y = false → lt z x = false.

#[local] Abbreviation key_le := (λ a b : K * A, lt b.1 a.1 = false).
#[local] Abbreviation key_ok := (λ a : K * A, ok a.1).

Lemma insert_by_sorted (x : K * A) l :
  key_ok x → Forall key_ok l →
  StronglySorted key_le l → StronglySorted key_le (insert_by lt x l).
Proof.
  intros Hx. induction l as [|y l IH]; intros Hok Hsorted; simpl.
  - repeat constructor.
  - apply Forall_cons in Hok as [Hy Hok].
    apply StronglySorted_inv in Hsorted as [Hsorted Hall].
    destruct (lt x.1 y.1) eqn:Hlt.
    + constructor; [by constructor|]. constructor; [by apply lt_asym|].
      rewrite Forall_forall in Hall, Hok. apply Forall_forall. intros z Hz.
      apply (le_trans x.1 y.1 z.1); auto.
    + constructor; [auto|]. rewrite insert_by_Permutation. by constructor.
Qed.

Lemma sort_keyed_sorted (l : list (K * A)) :
  Forall key_ok l → StronglySorted key_le (sort_keyed lt l).
Proof.
  unfold sort_keyed.
  assert (∀ acc, Forall key_ok acc → StronglySorted key_le acc →
                 Forall key_ok l →
                 StronglySorted key_le
                   (foldl (λ acc x, insert_by lt x acc) acc l)) as H.
  { induction l as [|x l IH]; intros acc Hacc Hsorted Hl; simpl; [done|].
    apply Forall_cons in Hl as [Hx Hl]. apply IH; [|by apply insert_by_sorted|done].
    rewrite insert_by_Permutation. by constructor. }
  intros Hl. apply H; [constructor|constructor|done].
Qed.
End SortSorted.

Lemma StronglySorted_fmap_Forall {A B} (R1 : relation A) (R2 : relation B)
    (f : A → B) (P : A → Prop) (l : list A) :
  (∀ x y, P x → P y → R1 x y → R2 (f x) (f y)) →
  Forall P l → StronglySorted R1 l → StronglySorted R2 (f <$> l).
Proof.
  intros HR HP Hsorted. induction Hsorted as [|x l Hs IH Hall]; csimpl.
  - constructor.
  - apply Forall_cons in HP as [Hx HP]. constructor; [auto|].
    rewrite Forall_fmap. rewrite Forall_forall in Hall, HP.
    apply Forall_forall. intros y Hy. simpl. auto.
Qed.

Lemma Forall2_zip_Forall {A B} (R : A → B → Prop) (l : list A) (k : list B) :
  Forall2 R l k → Forall (λ p, R p.2 p.1) (zip k l).
Proof. induction 1; simpl; constructor; auto. Qed.

(** ** Plan search: the shortlist *)

Section Shortlist.
Variable self : FlavorGraphEngine.
Variable req : SuggestionRequest.

Lemma greedy_entry_spec item :
  greedy_entry self req (normalized_set (available_ingredients req)) item =
  if decide (within_missing self req item)
  then Some (candidate_of self req item) else None.
Proof.
  unfold greedy_entry, within_missing, candidate_of.
  by destruct (decide (_ ≤ _)%Z).
Qed.

(** The greedy loop keeps exactly the catalog entries within the missing
    budget, in catalog order. *)
Lemma greedy_scores_filter :
  greedy_scores self req =
  candidate_of self req <$> filter (within_missing self req) (recipes self).
Proof.
  unfold greedy_scores. induction (recipes self) as [|item l IH]; [done|].
  rewrite filter_cons. cbn [omap list_omap]. rewrite greedy_entry_spec.
  destruct (decide (within_missing self req item)); csimpl; by rewrite IH.
Qed.

Lemma elem_of_greedy_scores c :
  c ∈ greedy_scores self req ↔
  ∃ item, item ∈ recipes self ∧ within_missing self req item ∧
          c = candidate_of self req item.
Proof.
  rewrite greedy_scores_filter, list_elem_of_fmap.
  setoid_rewrite list_elem_of_filter. naive_solver.
Qed.

Lemma greedy_scores_ids :
  cand_id <$> greedy_scores self req
  = (filter (within_missing self req) (recipes self)).*1.
Proof. rewrite greedy_scores_filter, <- list_fmap_compose. done. Qed.

Lemma greedy_get c :
  c ∈ greedy_scores self req →
  is_Some (PyDict.get (cand_id c) (recipes self)).
Proof.
  intros (item & Hin & _ & ->)%elem_of_greedy_scores.
  destruct (PyDict.get _ _) eqn:Hget; [eauto|].
  apply PyDictFacts.get_None in Hget. destruct Hget.
  apply list_elem_of_fmap. by exists item.
Qed.

Lemma greedy_missing_length c :
  c ∈ greedy_scores self req →
  (Z.of_nat (length (missing (cand_details c))) ≤ max_missing req)%Z.
Proof.
  intros (item & _ & Hw & ->)%elem_of_greedy_scores.
  unfold candidate_of, cand_details. simpl. by rewrite length_sorted.
Qed.
End Shortlist.

Section Ranking.
Variable self : FlavorGraphEngine.
Variable req : SuggestionRequest.

Lemma count_keys_total (l : list Candidate) :
  l ⊆ greedy_scores self req → is_Some (mapM (count_key self) l).
Proof.
  intros Hl. apply mapM_is_Some, Forall_forall. intros c Hc. simpl.
  unfold count_key. destruct (greedy_get self req c) as [r ->]; [auto|].
  by eexists.
Qed.

(** Sorting the candidates raises no [KeyError] and permutes them. *)
Lemma sort_candidates_Permutation :
  ∃ ranked, sort_candidates self req (greedy_scores self req) = Some ranked ∧
            ranked ≡ₚ greedy_scores self req.
Proof.
  unfold sort_candidates. destruct (prioritize_min_missing req).
  - destruct (count_keys_total (greedy_scores self req)) as [keys Hkeys];
      [done|].
    rewrite Hkeys. simpl. eexists. split; [done|].
    rewrite sort_keyed_Permutation. rewrite snd_zip; [done|].
    apply length_mapM in Hkeys. lia.
  - eexists. split; [done|].
    rewrite sort_keyed_Permutation, <- list_fmap_compose.
    by rewrite list_fmap_id.
Qed.

Lemma slice_to_subseteq {A} (k : Z) (l : list A) : slice_to k l ⊆ l.
Proof. unfold slice_to. case_decide; apply subseteq_take. Qed.

Lemma slice_to_sublist {A} (k : Z) (l : list A) : slice_to k l `sublist_of` l.
Proof. unfold slice_to. case_decide; apply sublist_take. Qed.

(** The shortlist exists and is drawn from the candidates of the greedy
    loop, without repetition of an identifier when the catalog has none. *)
Lemma top_candidates_total :
  ∃ top, top_candidates self req = Some top ∧
         top ⊆ greedy_scores self req ∧
         (NoDup (PyDict.keys (recipes self)) → NoDup (cand_id <$> top)).
Proof.
  destruct sort_candidates_Permutation as (ranked & Hsort & Hperm).
  unfold top_candidates. rewrite Hsort. simpl. eexists. split; [done|].
  split.
  - intros c Hc%slice_to_subseteq. by rewrite <- Hperm.
  - intros Hnd. apply (sublist_NoDup _ (cand_id <$> ranked));
      [|apply fmap_sublist, slice_to_sublist].
    rewrite Hperm, greedy_scores_ids.
    apply (sublist_NoDup _ (PyDict.keys (recipes self))); [exact Hnd|].
    apply fmap_sublist, sublist_filter.
Qed.
End Ranking.

(** ** Plan search: the order of the shortlist *)

Section ShortlistOrder.
Variable self : FlavorGraphEngine.
Variable req : SuggestionRequest.

Lemma greedy_score_not_nan c :
  c ∈ greedy_scores self req → not_nan (cand_score c).
Proof.
  intros (item & _ & _ & ->)%elem_of_greedy_scores.
  apply score_recipe_not_nan.
Qed.

Lemma count_key_count c k :
  count_key self c = Some k →
  k.1 = ingredient_count self c ∧ k.2 = (- cand_score c)%float.
Proof.
  unfold count_key, ingredient_count.
  destruct (PyDict.get _ _); simpl; [|done]. by intros [= <-].
Qed.

Lemma descending_score a b :
  not_nan a → not_nan b →
  ¬ lex_lt (float_key (- b)%float) (float_key (- a)%float) →
  (b <=? a)%float = true.
Proof. intros Ha Hb Hlex. apply leb_lex; [done..|]. by rewrite <- opp_lex. Qed.

Lemma sort_candidates_ranked :
  ∃ ranked, sort_candidates self req (greedy_scores self req) = Some ranked ∧
            ranked ≡ₚ greedy_scores self req ∧
            StronglySorted (ranked_before self req) ranked.
Proof.
  destruct (sort_candidates_Permutation self req) as (ranked & Hsort & Hperm).
  exists ranked. split_and!; [done..|].
  revert Hsort. unfold sort_candidates, ranked_before.
  destruct (prioritize_min_missing req).
  - destruct (mapM _ _) as [keys|] eqn:Hkeys; [|done]. simpl. intros [= <-].
    set (P := λ p : nat * float * Candidate,
           count_key self p.2 = Some p.1 ∧ not_nan (cand_score p.2)).
    assert (Forall P (zip keys (greedy_scores self req))) as HP.
    { apply mapM_Some in Hkeys.
      apply (Forall2_zip_Forall (λ c k, count_key self c = Some k)) in Hkeys.
      rewrite Forall_forall in Hkeys. apply Forall_forall.
      intros [k c] Hkc. split; [by apply Hkeys|].
      apply greedy_score_not_nan. apply (elem_of_zip_r _ _ _ _ Hkc). }
    apply (StronglySorted_fmap_Forall
             (λ a b : nat * float * Candidate, tuple_lt b.1 a.1 = false) _ _ P).
    + intros [ka a] [kb b] [Ha Hna] [Hb Hnb]. simpl in *.
      apply count_key_count in Ha as [Ha1 Ha2], Hb as [Hb1 Hb2].
      rewrite <- Ha1, <- Hb1. rewrite <- not_true_iff_false.
      rewrite tuple_lt_lex by (rewrite ?Ha2, ?Hb2; by apply opp_not_nan).
      rewrite Ha2, Hb2. intros Hnlt.
      destruct (decide (ka.1 < kb.1)%nat); [by left|]. right.
      assert (ka.1 = kb.1) as Heq.
      { destruct (decide (kb.1 < ka.1)%nat); [|lia]. destruct Hnlt. by left. }
      split; [done|]. apply descending_score; [done..|].
      intros Hlex. apply Hnlt. right. by split.
    + by rewrite sort_keyed_Permutation.
    + apply (sort_keyed_sorted tuple_lt (λ k, not_nan k.2)).
      * intros x y. apply tuple_lt_asym.
      * intros x y z. apply tuple_lt_le_trans.
      * eapply Forall_impl; [exact HP|]. intros [k c] [Hk Hn]. simpl in *.
        apply count_key_count in Hk as [_ ->]. by apply opp_not_nan.
  - intros [= <-].
    set (P := λ p : float * Candidate,
           p.1 = (- cand_score p.2)%float ∧ not_nan (cand_score p.2)).
    assert (Forall P ((λ x, ((- cand_score x)%float, x))
                        <$> greedy_scores self req)) as HP.
    { rewrite Forall_fmap. apply Forall_forall. intros c Hc.
      split; [done|]. by apply greedy_score_not_nan. }
    apply (StronglySorted_fmap_Forall
             (λ a b : float * Candidate, (b.1 <? a.1)%float = false) _ _ P).
    + intros [ka a] [kb b] [Ha Hna] [Hb Hnb]. simpl in *. subst ka kb.
      rewrite <- not_true_iff_false.
      rewrite ltb_lex by (by apply opp_not_nan).
      by apply descending_score.
    + by rewrite sort_keyed_Permutation.
    + apply (sort_keyed_sorted PrimFloat.ltb not_nan).
      * apply ltb_asym.
      * apply ltb_le_trans.
      * eapply Forall_impl; [exact HP|]. intros [k c] [-> Hn]. simpl in *.
        by apply opp_not_nan.
Qed.
End ShortlistOrder.

(** C7: the shortlist is made of exactly the catalog entries whose missing
    count is at most [max_missing], ranked by ascending ingredient count and
    then descending single-recipe score when [prioritize_min_missing] is set
    and by descending score otherwise, and cut to its first
    [max(25, max_suggestions * 3)] entries. *)
Theorem shortlist_ranked (self : FlavorGraphEngine) (req : SuggestionRequest) :
  ∃ ranked,
    top_candidates self req
    = Some (take (Z.to_nat (Z.max 25 (max_suggestions req * 3))) ranked) ∧
    ranked ≡ₚ
      candidate_of self req <$> filter (within_missing self req) (recipes self) ∧
    StronglySorted (ranked_before self req) ranked.
Proof.
  destruct (sort_candidates_ranked self req) as (ranked & Hsort & Hperm & Hs).
  exists ranked. split_and!; [|by rewrite <- greedy_scores_filter|done].
  unfold top_candidates. rewrite Hsort. simpl. unfold slice_to.
  rewrite decide_True by lia. done.
Qed.

(** ** Plan search: the backtracking *)

Section Backtracking.
Variable req : SuggestionRequest.
Variable top : list Candidate.

Lemma plan_score_nil : plan_score [] = 0%float.
Proof. reflexivity. Qed.

Lemma evaluate_nil :
  (0 ≤ max_missing req)%Z →
  evaluate req [] initial_state =
  {| best_plan := []; best_plan_score := 0; best_plan_details := ∅ |}.
Proof.
  intros Hm. unfold evaluate.
  change (size (plan_missing [])) with 0%nat.
  rewrite decide_True by done. reflexivity.
Qed.

Lemma evaluate_nil_inv :
  (0 ≤ plan_size req)%Z → search_inv req top (evaluate req [] initial_state).
Proof.
  intros Hp. destruct (decide (0 ≤ max_missing req)%Z) as [Hm|Hm].
  - rewrite evaluate_nil by done. left. simpl. auto.
  - unfold evaluate. change (size (plan_missing [])) with 0%nat.
    rewrite decide_False by done. left. simpl. split_and!; [done..|].
    left. split; [done|]. lia.
Qed.

Lemma evaluate_inv chosen st :
  search_inv req top st → chosen ≠ [] → chosen `sublist_of` top →
  (Z.of_nat (length chosen) ≤ plan_size req)%Z →
  search_inv req top (evaluate req chosen st).
Proof.
  intros Hinv Hne Hsub Hlen. unfold evaluate.
  destruct (decide (_ ≤ _)%Z) as [Hbudget|]; [|done].
  fold (plan_score chosen).
  destruct (best_plan_score st <? plan_score chosen)%float eqn:Hlt; [|done].
  assert (qualifying req top chosen) as Hq by done.
  destruct Hinv as [(_ & _ & [[_ Hneg]|Hzero])
                   |(old & first & _ & _ & _ & _ & _ & Hf1 & Hf2 & Hf3)].
  - assert (0 ≤ Z.of_nat (size (plan_missing chosen)))%Z by lia.
    assert (0 < length chosen)%nat by (destruct chosen; [done|simpl; lia]).
    lia.
  - right. exists chosen, chosen. rewrite Hzero in Hlt. simpl. by split_and!.
  - right. exists chosen, first. simpl. by split_and!.
Qed.

Lemma backtrack_loop_inv cands chosen used st :
  search_inv req top st → chosen ++ cands `sublist_of` top →
  search_inv req top (backtrack_loop req cands chosen used st).
Proof.
  revert chosen used st.
  induction cands as [|c rest IH]; intros chosen used st Hinv Hsub; [done|].
  simpl. apply IH.
  - case_decide; [done|]. unfold backtrack_body.
    case_decide; [done|].
    assert (search_inv req top (evaluate req (chosen ++ [c]) st)) as Hev.
    { apply evaluate_inv; [done|by destruct chosen| |lia].
      etrans; [|exact Hsub]. apply sublist_app; [done|].
      apply sublist_skip, sublist_nil_l. }
    case_decide; [done|]. apply IH; [done|].
    by rewrite <- (assoc_L (++)).
  - etrans; [|exact Hsub]. apply sublist_app; [done|]. by apply sublist_cons.
Qed.

(** The state after one iteration of the loop of [backtrack]. *)
Lemma backtrack_visit_inv c rest chosen used st :
  search_inv req top st → chosen ++ c :: rest `sublist_of` top →
  search_inv req top
    (backtrack_body (backtrack_loop req) req rest (chosen ++ [c]) used st).
Proof.
  intros Hinv Hsub. unfold backtrack_body. case_decide; [done|].
  assert (search_inv req top (evaluate req (chosen ++ [c]) st)) as Hev.
  { apply evaluate_inv; [done|by destruct chosen| |lia].
    etrans; [|exact Hsub]. apply sublist_app; [done|].
    apply sublist_skip, sublist_nil_l. }
  case_decide; [done|]. apply backtrack_loop_inv; [done|].
  by rewrite <- (assoc_L (++)).
Qed.

(** Once a non-empty plan is recorded, the best plan stays non-empty. *)
Lemma evaluate_keeps chosen st :
  chosen ≠ [] → best_plan st ≠ [] → best_plan (evaluate req chosen st) ≠ [].
Proof.
  intros Hne Hst. unfold evaluate. case_decide; [|done].
  destruct (_ <? _)%float; [|done]. simpl. by destruct chosen.
Qed.

Lemma backtrack_loop_keeps cands chosen used st :
  best_plan st ≠ [] → best_plan (backtrack_loop req cands chosen used st) ≠ [].
Proof.
  revert chosen used st.
  induction cands as [|c rest IH]; intros chosen used st Hst; [done|].
  simpl. apply IH. case_decide; [done|]. unfold backtrack_body.
  case_decide; [done|].
  assert (best_plan (evaluate req (chosen ++ [c]) st) ≠ []) as Hev.
  { apply evaluate_keeps; [by destruct chosen|done]. }
  case_decide; [done|]. by apply IH.
Qed.

(** A single recipe within the budget that scores above 0 makes the search
    record a non-empty plan. *)
Lemma backtrack_loop_records cands st :
  (0 < plan_size req)%Z → search_inv req top st →
  cands `sublist_of` top →
  (∃ c, c ∈ cands ∧
        (Z.of_nat (size (plan_missing [c])) ≤ max_missing req)%Z ∧
        (0 <? plan_score [c])%float = true) →
  best_plan (backtrack_loop req cands [] ∅ st) ≠ [].
Proof.
  intros Hp. revert st.
  induction cands as [|c0 rest IH]; intros st Hinv Hsub (c & Hc & Hm & Hs).
  { by apply elem_of_nil in Hc. }
  simpl. apply elem_of_cons in Hc as [->|Hc].
  - apply backtrack_loop_keeps.
    assert (plan_missing [c0] = list_to_set (missing (cand_details c0)))
      as Hpm.
    { unfold plan_missing. simpl. by rewrite (left_id_L ∅ (∪)). }
    rewrite difference_empty_L, <- Hpm. rewrite decide_False by lia.
    unfold backtrack_body. simpl. rewrite decide_False by lia.
    assert (best_plan (evaluate req [c0] st) ≠ []) as Hev.
    { destruct (decide (best_plan st = [])) as [Hnil|Hne];
        [|by apply evaluate_keeps].
      assert (best_plan_score st = 0%float) as Hzero.
      { destruct Hinv as [(_ & _ & [[_ Hneg]|Hzero])|(ch & _ & Hch & _ & Hb & _)].
        - assert (0 ≤ Z.of_nat (size (plan_missing [c0])))%Z by lia. lia.
        - done.
        - rewrite Hb in Hnil. by destruct ch. }
      unfold evaluate. rewrite decide_True by done.
      fold (plan_score [c0]). rewrite Hzero, Hs. done. }
    case_decide; [done|]. by apply backtrack_loop_keeps.
  - apply IH.
    + case_decide; [done|]. by apply (backtrack_visit_inv c0 rest []).
    + etrans; [|exact Hsub]. by apply sublist_cons.
    + by exists c.
Qed.

Lemma plan_search_inv : search_inv req top (plan_search req top).
Proof.
  unfold plan_search, backtrack, backtrack_body. simpl.
  case_decide as Hp.
  - left. simpl. split_and!; [done..|]. left. split; [done|]. lia.
  - assert (search_inv req top (evaluate req [] initial_state)) as Hev.
    { apply evaluate_nil_inv. lia. }
    case_decide; [done|]. by apply backtrack_loop_inv.
Qed.

(** The identifiers and details of a recorded plan come from the
    shortlist. *)
Lemma details_dict_lookup (xs : list Candidate) rid det :
  details_dict xs !! rid = Some det →
  ∃ c, c ∈ xs ∧ cand_id c = rid ∧ cand_details c = det.
Proof.
  unfold details_dict. induction xs as [|c xs IH] using rev_ind; [done|].
  rewrite foldl_app. simpl. rewrite lookup_insert.
  case_decide as Heq.
  - intros [= <-]. exists c. split; [|done]. apply elem_of_app. right. left.
  - intros (c' & ? & ? & ?)%IH. exists c'. split; [|done].
    apply elem_of_app. by left.
Qed.

Lemma details_dict_lookup_NoDup (xs : list Candidate) c :
  NoDup (cand_id <$> xs) → c ∈ xs →
  details_dict xs !! cand_id c = Some (cand_details c).
Proof.
  unfold details_dict. induction xs as [|c' xs IH] using rev_ind.
  - by intros _ ?%elem_of_nil.
  - rewrite fmap_app, foldl_app. simpl.
    intros (Hxs & Hdisj & _)%NoDup_app [Hin|Heq%list_elem_of_singleton]%elem_of_app;
      [|subst c'].
    + rewrite lookup_insert_ne; [by apply IH|]. intros Heq.
      apply (Hdisj (cand_id c)); [|rewrite Heq; left].
      by apply list_elem_of_fmap_2.
    + by rewrite lookup_insert_eq.
Qed.

Lemma final_plan_sources st :
  search_inv req top st →
  let plan := final_plan req top st in
  plan.1 ⊆ cand_id <$> top ∧
  ∀ rid det, plan.2 !! rid = Some det →
             ∃ c, c ∈ top ∧ cand_id c = rid ∧ cand_details c = det.
Proof.
  intros Hinv. unfold final_plan. case_decide as Hnil; simpl.
  - split.
    + intros rid (c & -> & Hc)%list_elem_of_fmap.
      apply list_elem_of_fmap_2. revert Hc. unfold slice_to.
      case_decide; apply subseteq_take.
    + intros rid det (c & Hc & ? & ?)%details_dict_lookup.
      exists c. split; [|done]. revert Hc. unfold slice_to.
      case_decide; apply subseteq_take.
  - destruct Hinv as [(? & _)|(chosen & _ & _ & (Hsub & _) & -> & -> & _)];
      [done|].
    split.
    + intros rid (c & -> & Hc)%list_elem_of_fmap.
      apply list_elem_of_fmap_2. by apply (sublist_subseteq _ _ Hsub).
    + intros rid det (c & Hc & ? & ?)%details_dict_lookup.
      exists c. split; [|done]. by apply (sublist_subseteq _ _ Hsub).
Qed.

(** With distinct identifiers, the details of the recorded plan give back
    the missing set the search aggregated for it. *)
Lemma aggregated_missing_recorded (chosen : list Candidate) score :
  NoDup (cand_id <$> chosen) →
  aggregated_missing
    {| best_plan := cand_id <$> chosen; best_plan_score := score;
       best_plan_details := details_dict chosen |}
  = plan_missing chosen.
Proof.
  intros Hnd. unfold aggregated_missing. simpl. apply set_eq. intros k.
  rewrite elem_of_plan_missing, elem_of_union_list, list_elem_of_bind.
  split.
  - intros (X & (rid & -> & (c & -> & Hc)%list_elem_of_fmap)%list_elem_of_fmap
              & Hk).
    rewrite details_dict_lookup_NoDup in Hk by done. simpl in Hk.
    apply elem_of_list_to_set in Hk. eauto.
  - intros (c & Hk & Hc). eexists. split.
    + apply list_elem_of_fmap_2, list_elem_of_fmap_2, Hc.
    + simpl. rewrite details_dict_lookup_NoDup by done. simpl.
      by apply elem_of_list_to_set.
Qed.
End Backtracking.

(** ** Response assembly *)

Section Assembly.
Variable self : FlavorGraphEngine.
Variable req : SuggestionRequest.

(** The assembly loop raises no [KeyError]: every identifier of the final
    plan is in the catalog. *)
Lemma assemble_total (top : list Candidate) (ids : list string)
    (details : gmap string Details) :
  top ⊆ greedy_scores self req → ids ⊆ cand_id <$> top →
  ∃ sugs, mapM (suggestion_of self details) ids = Some sugs ∧
          sg_id <$> sugs = ids ∧
          ∀ s, s ∈ sugs → suggestion_of self details (sg_id s) = Some s.
Proof.
  intros Htop. induction ids as [|rid ids IH]; intros Hids.
  - exists []. split_and!; [done..|]. by intros s ?%elem_of_nil.
  - destruct IH as (sugs & Hsugs & Hid & Hall).
    { intros x ?. apply Hids. by right. }
    assert (rid ∈ cand_id <$> top) as (c & -> & Hc)%list_elem_of_fmap.
    { apply Hids. left. }
    destruct (greedy_get self req c) as [r Hr]; [by apply Htop|].
    eexists (_ :: sugs). split_and!.
    + rewrite mapM_Some. constructor; [|by apply mapM_Some].
      unfold suggestion_of. rewrite Hr. simpl. reflexivity.
    + csimpl. by rewrite Hid.
    + intros s [->|Hs]%elem_of_cons; [|by apply Hall].
      simpl. unfold suggestion_of. by rewrite Hr.
Qed.

(** [suggest_recipes] returns: the records of the final plan, cut to
    [max_suggestions], each built from the catalog entry of its identifier
    and the details the plan holds for it. *)
Lemma suggest_recipes_total :
  ∃ top resp,
    top_candidates self req = Some top ∧
    top ⊆ greedy_scores self req ∧
    (NoDup (PyDict.keys (recipes self)) → NoDup (cand_id <$> top)) ∧
    suggest_recipes self req = Some resp ∧
    let plan := final_plan req top (plan_search req top) in
    sg_id <$> suggestions resp = slice_to (max_suggestions req) plan.1 ∧
    ∀ s, s ∈ suggestions resp → suggestion_of self plan.2 (sg_id s) = Some s.
Proof.
  destruct (top_candidates_total self req) as (top & Htop & Hsub & Hnd).
  pose proof (final_plan_sources req top _ (plan_search_inv req top))
    as [Hids _].
  destruct (assemble_total top
              (slice_to (max_suggestions req)
                 (final_plan req top (plan_search req top)).1)
              (final_plan req top (plan_search req top)).2)
    as (sugs & Hsugs & Hid & Hall); [done| |].
  { intros rid Hrid%slice_to_subseteq. by apply Hids. }
  exists top. eexists. split_and!; [done..| |].
  - unfold suggest_recipes. rewrite Htop. simpl. rewrite Hsugs. done.
  - simpl. auto.
Qed.

End Assembly.

(** ** Plan search: the missing budget *)

Lemma details_dict_is_Some (xs : list Candidate) rid :
  rid ∈ cand_id <$> xs → is_Some (details_dict xs !! rid).
Proof.
  unfold details_dict. induction xs as [|c xs IH] using rev_ind.
  - by intros ?%elem_of_nil.
  - rewrite fmap_app, foldl_app. simpl. rewrite lookup_insert.
    case_decide; [by eauto|].
    intros [?|Heq%list_elem_of_singleton]%elem_of_app; [auto|done].
Qed.

Lemma final_plan_details req top st rid :
  search_inv req top st →
  rid ∈ (final_plan req top st).1 →
  ∃ c, c ∈ top ∧ cand_id c = rid ∧
       (final_plan req top st).2 !! rid = Some (cand_details c).
Proof.
  intros Hinv Hrid.
  assert (is_Some ((final_plan req top st).2 !! rid)) as [det Hdet].
  { revert Hrid. unfold final_plan. case_decide; simpl.
    - apply details_dict_is_Some.
    - destruct Hinv as [(? & _)|(chosen & _ & _ & _ & -> & -> & _)]; [done|].
      apply details_dict_is_Some. }
  destruct (final_plan_sources req top st Hinv) as [_ Hsrc].
  destruct (Hsrc rid det Hdet) as (c & ? & ? & <-). eauto.
Qed.

(** Every record of the response is that of a catalog entry within the
    missing budget, with the missing and covered lists and the substitutions
    of that entry alone. *)
Lemma suggestions_per_recipe (self : FlavorGraphEngine)
    (req : SuggestionRequest) :
  NoDup (PyDict.keys (recipes self)) →
  ∃ top resp,
    top_candidates self req = Some top ∧
    suggest_recipes self req = Some resp ∧
    ∀ s, s ∈ suggestions resp →
      ∃ r, PyDict.get (sg_id s) (recipes self) = Some r ∧
           within_missing self req (sg_id s, r) ∧
           let cov := _compute_missing_and_subs self r
                        (normalized_set (available_ingredients req))
                        (allow_substitutions req) in
           sg_missing s = sorted (cov_missing cov) ∧
           sg_covered s = sorted (cov_covered cov) ∧
           sg_substitutions s = cov_subs cov.
Proof.
  intros Hnd.
  destruct (suggest_recipes_total self req)
    as (top & resp & Htop & Hsub & _ & Hresp & Hids & Hall).
  exists top, resp. split_and!; [done..|]. intros s Hs.
  assert (sg_id s ∈ (final_plan req top (plan_search req top)).1) as Hin.
  { eapply slice_to_subseteq. rewrite <- Hids. by apply list_elem_of_fmap_2. }
  destruct (final_plan_details req top _ _ (plan_search_inv req top) Hin)
    as (c & Hc & Hcid & Hdet).
  apply Hsub, elem_of_greedy_scores in Hc as ([rid r] & Hitem & Hw & ->).
  unfold candidate_of, cand_id in Hcid. simpl in Hcid. subst rid.
  pose proof (PyDictFacts.elem_of_get _ _ _ Hnd Hitem) as Hget.
  specialize (Hall s Hs). unfold suggestion_of in Hall.
  rewrite Hget, Hdet in Hall. simpl in Hall. injection Hall as <-.
  exists r. by split_and!.
Qed.

(** C1: for a request with [max_missing >= 0], every record that
    [suggest_recipes] returns has a per-recipe missing list of length at most
    [max_missing], and whenever the search has recorded a non-empty best plan,
    the aggregated set of distinct missing ingredients of that plan has size
    at most [max_missing]. *)
Theorem missing_budget_respected (rs : list Recipe)
    (subst : gmap string (list string)) (req : SuggestionRequest)
    (Hbudget : (0 ≤ max_missing req)%Z) :
  let self := _load rs subst in
  ∃ top resp,
    top_candidates self req = Some top ∧
    suggest_recipes self req = Some resp ∧
    (∀ s, s ∈ suggestions resp →
       (Z.of_nat (length (sg_missing s)) ≤ max_missing req)%Z ∧
       ∃ r, PyDict.get (sg_id s) (recipes self) = Some r ∧
            sg_missing s =
            sorted (cov_missing
                      (_compute_missing_and_subs self r
                         (normalized_set (available_ingredients req))
                         (allow_substitutions req)))) ∧
    (best_plan (plan_search req top) ≠ [] →
     (Z.of_nat (size (aggregated_missing (plan_search req top)))
      ≤ max_missing req)%Z).
Proof.
  intros self.
  assert (NoDup (PyDict.keys (recipes self))) as Hnd.
  { apply PyDictFacts.NoDup_keys_of_list. }
  destruct (suggestions_per_recipe self req Hnd)
    as (top & resp & Htop & Hresp & Hall).
  exists top, resp. split_and!; [done..| |].
  - intros s Hs. destruct (Hall s Hs) as (r & Hget & Hw & Hm & _).
    split; [|by exists r]. rewrite Hm, length_sorted. exact Hw.
  - intros Hne.
    destruct (suggest_recipes_total self req)
      as (top' & _ & Htop' & _ & Hids & _).
    rewrite Htop in Htop'. injection Htop' as <-. specialize (Hids Hnd).
    destruct (plan_search_inv req top)
      as [(? & _)|(chosen & _ & _ & (Hsub & _ & Hm) & Hp & Hd & Hs & _)];
      [done|].
    destruct (plan_search req top) as [plan score details].
    simpl in *. subst plan details.
    rewrite aggregated_missing_recorded; [done|].
    eapply sublist_NoDup; [exact Hids|]. by apply fmap_sublist.
Qed.

(** The end-to-end example: max_missing = 1. *)
Lemma missing_budget_example :
  ∃ top resp,
    top_candidates Examples.engine Examples.request = Some top ∧
    suggest_recipes Examples.engine Examples.request = Some resp ∧
    (∀ s, s ∈ suggestions resp →
       (Z.of_nat (length (sg_missing s)) ≤ 1)%Z ∧
       ∃ r, PyDict.get (sg_id s) (recipes Examples.engine) = Some r ∧
            sg_missing s =
            sorted (cov_missing
                      (_compute_missing_and_subs Examples.engine r
                         (normalized_set Examples.pantry) true))) ∧
    (best_plan (plan_search Examples.request top) ≠ [] →
     (Z.of_nat (size (aggregated_missing (plan_search Examples.request top)))
      ≤ 1)%Z).
Proof.
  apply (missing_budget_respected [Examples.R1; Examples.R2] Examples.table
           Examples.request).
  vm_compute. discriminate.
Defined.

(** ** Plan search: the empty plan as baseline *)

(** The search starts by evaluating the empty plan. *)
Lemma plan_search_unfold (req : SuggestionRequest) (top : list Candidate) :
  plan_search req top =
  if decide (plan_size req < 0)%Z then initial_state
  else
    let st := evaluate req [] initial_state in
    if decide (0 = plan_size req)%Z then st
    else backtrack_loop req top [] ∅ st.
Proof. reflexivity. Qed.

(** The recorded best plan is non-empty only if some qualifying non-empty
    plan beat the score 0 of the empty plan. *)
Lemma best_plan_beats_empty (req : SuggestionRequest) (top : list Candidate) :
  best_plan (plan_search req top) ≠ [] →
  ∃ w, w ≠ [] ∧ qualifying req top w ∧ (0 <? plan_score w)%float = true.
Proof.
  intros Hne.
  destruct (plan_search_inv req top)
    as [(? & _)|(_ & w & _ & _ & _ & _ & _ & Hw & Hq & Hs)]; [done|].
  by exists w.
Qed.

(** C10: the search evaluates the empty plan, which is within any
    non-negative missing budget and scores 0; so a non-empty best plan is
    recorded only if some qualifying non-empty plan scores strictly above 0,
    and when every qualifying non-empty plan scores at most 0 the best plan
    stays empty and the response is the fallback: the first [max_suggestions]
    entries of the shortlist. *)
Theorem empty_plan_baseline (self : FlavorGraphEngine)
    (req : SuggestionRequest) :
  ∃ top resp,
    top_candidates self req = Some top ∧
    suggest_recipes self req = Some resp ∧
    let st := plan_search req top in
    (plan_missing [] = ∅ ∧ plan_score [] = 0%float ∧
     ((0 ≤ max_missing req)%Z → (0 < plan_size req)%Z →
      st = backtrack_loop req top [] ∅
             {| best_plan := []; best_plan_score := 0;
                best_plan_details := ∅ |})) ∧
    (best_plan st ≠ [] →
     ∃ w, w ≠ [] ∧ qualifying req top w ∧
          (0 <? plan_score w)%float = true) ∧
    ((∀ w, w ≠ [] → qualifying req top w →
           (plan_score w <=? 0)%float = true) →
     best_plan st = [] ∧
     final_plan req top st
     = (cand_id <$> slice_to (max_suggestions req) top,
        details_dict (slice_to (max_suggestions req) top)) ∧
     sg_id <$> suggestions resp
     = slice_to (max_suggestions req)
         (cand_id <$> slice_to (max_suggestions req) top)).
Proof.
  destruct (suggest_recipes_total self req)
    as (top & resp & Htop & _ & _ & Hresp & Hids & _).
  exists top, resp. split; [done|]. split; [done|]. intros st. subst st.
  split_and!.
  - done.
  - done.
  - intros Hm Hp. rewrite plan_search_unfold.
    rewrite decide_False by lia. simpl. rewrite decide_False by lia.
    by rewrite evaluate_nil.
  - apply best_plan_beats_empty.
  - intros Hall.
    assert (best_plan (plan_search req top) = []) as Hnil.
    { destruct (decide (best_plan (plan_search req top) = [])) as [|Hne];
        [done|].
      destruct (best_plan_beats_empty req top Hne) as (w & Hw & Hq & Hs).
      apply Hall, leb_not_ltb in Hq; [|done]. congruence. }
    assert (final_plan req top (plan_search req top)
            = (cand_id <$> slice_to (max_suggestions req) top,
               details_dict (slice_to (max_suggestions req) top))) as Hfinal.
    { unfold final_plan. by rewrite decide_True. }
    split_and!; [done..|]. by rewrite Hids, Hfinal.
Qed.

(** With only eggs at hand and a budget of one missing ingredient, the plan
    [R2] qualifies but scores 1 - 1.5 = -0.5: the best plan stays empty and
    the fallback returns R2. *)
Lemma fallback_example :
  let eng := Examples.engine in
  let req := Examples.request_eggs_only in
  ∃ top resp,
    top_candidates eng req = Some top ∧ cand_id <$> top = ["R2"] ∧
    qualifying req top top ∧ plan_score top = (-0.5)%float ∧
    best_plan (plan_search req top) = [] ∧
    suggest_recipes eng req = Some resp ∧
    sg_id <$> suggestions resp = ["R2"].
Proof.
  eexists. eexists. split; [by vm_compute|]. split; [by vm_compute|].
  split; [|by vm_compute].
  split_and!; [done|by vm_compute|]. vm_compute. discriminate.
Qed.

(** ** Plan search with [plan_size = 1] *)

(** With [plan_size = 1] a recorded plan is a single recipe. *)
Lemma plan_size_one_single (req : SuggestionRequest) (top : list Candidate) :
  plan_size req = 1%Z →
  best_plan (plan_search req top) ≠ [] →
  length (best_plan (plan_search req top)) = 1%nat.
Proof.
  intros Hp Hne.
  destruct (plan_search_inv req top)
    as [(? & _)|(chosen & _ & Hc & (_ & Hlen & _) & -> & _)]; [done|].
  rewrite length_fmap. destruct chosen as [|c [|c' l]]; [done|done|].
  simpl in Hlen. lia.
Qed.

(** With [plan_size = 1] the search records a recipe exactly when some
    recipe of the shortlist, taken alone, scores above 0. *)
Lemma plan_size_one_records (self : FlavorGraphEngine)
    (req : SuggestionRequest) (top : list Candidate) :
  plan_size req = 1%Z → top ⊆ greedy_scores self req →
  best_plan (plan_search req top) ≠ [] ↔
  ∃ c, c ∈ top ∧ (0 <? plan_score [c])%float = true.
Proof.
  intros Hp Htop. split.
  - intros Hne.
    destruct (best_plan_beats_empty req top Hne)
      as (w & Hw & (Hsub & Hlen & _) & Hs).
    destruct w as [|c [|c' l]]; [done| |simpl in Hlen; lia].
    exists c. split; [|done]. apply (sublist_subseteq _ _ Hsub). left.
  - intros (c & Hc & Hs).
    assert (Z.of_nat (size (plan_missing [c])) ≤ max_missing req)%Z as Hm.
    { pose proof (greedy_missing_length self req c (Htop c Hc)) as Hlen.
      unfold plan_missing. simpl. rewrite (left_id_L ∅ (∪)).
      etrans; [|exact Hlen]. apply inj_le.
      apply Htop, elem_of_greedy_scores in Hc as (item & _ & _ & ->).
      unfold candidate_of, cand_details. simpl.
      by rewrite list_to_set_sorted, length_sorted. }
    rewrite plan_search_unfold. rewrite decide_False by lia. simpl.
    rewrite decide_False by lia.
    apply (backtrack_loop_records req top); [lia| |done|by exists c].
    apply evaluate_nil_inv. lia.
Qed.

(** [l[:k][:k]] is [l[:k]] for [k >= 0]. *)
Lemma slice_to_twice {A B} (f : A → B) (k : Z) (l : list A) :
  (0 ≤ k)%Z → slice_to k (f <$> slice_to k l) = f <$> slice_to k l.
Proof.
  intros Hk. unfold slice_to. rewrite !decide_True by done.
  rewrite <- fmap_take. by rewrite take_take, Nat.min_id.
Qed.

(** * Further properties *)

(** ** Loading the catalog *)

Section DictComprehension.
Context {V : Type} (key : V → string).

Lemma of_list_snoc xs x :
  PyDict.of_list key (xs ++ [x]) = PyDict.set (key x) x (PyDict.of_list key xs).
Proof. unfold PyDict.of_list. by rewrite foldl_app. Qed.

Lemma of_list_get xs k :
  PyDict.get k (PyDict.of_list key xs) = last (filter (λ x, key x = k) xs).
Proof.
  induction xs as [|x xs IH] using rev_ind; [done|].
  rewrite of_list_snoc, PyDictFacts.get_set, filter_app, filter_cons, filter_nil.
  destruct (decide (k = key x)) as [->|Hne].
  - rewrite decide_True by done. by rewrite last_snoc.
  - rewrite decide_False by done. by rewrite (right_id_L [] (++)).
Qed.

Lemma of_list_keys xs :
  PyDict.keys (PyDict.of_list key xs)
  = reverse (remove_dups (reverse (key <$> xs))).
Proof.
  induction xs as [|x xs IH] using rev_ind; [done|].
  rewrite of_list_snoc, PyDictFacts.keys_set, IH.
  rewrite fmap_app, reverse_app. simpl.
  destruct (decide_rel (∈) (key x) (reverse (key <$> xs))) as [Hin|Hin].
  - rewrite decide_True; [done|].
    by rewrite elem_of_reverse, elem_of_remove_dups.
  - rewrite decide_False; [by rewrite reverse_cons|].
    by rewrite elem_of_reverse, elem_of_remove_dups.
Qed.

Lemma of_list_elem_key xs k v :
  (k, v) ∈ PyDict.of_list key xs → key v = k.
Proof.
  intros Hin. pose proof (PyDictFacts.NoDup_keys_of_list key xs) as Hnd.
  apply (PyDictFacts.elem_of_get _ _ _ Hnd) in Hin.
  by apply PyDictFacts.get_of_list_key in Hin as [? _].
Qed.
End DictComprehension.

(** X1: the dictionary that [_load] builds from the recipe records keeps one
    entry per identifier, at the place of the identifier's first record and
    with the content of its last record; [get_all_recipes] lists these
    entries in that order. *)
Theorem load_last_write_wins (rs : list Recipe)
    (subst : gmap string (list string)) :
  let self := _load rs subst in
  PyDict.keys (recipes self)
  = reverse (remove_dups (reverse (recipe_id <$> rs))) ∧
  (∀ k, PyDict.get k (recipes self)
        = last (filter (λ r, recipe_id r = k) rs)) ∧
  recipe_id <$> get_all_recipes self = PyDict.keys (recipes self) ∧
  (∀ r, r ∈ get_all_recipes self ↔
        last (filter (λ x, recipe_id x = recipe_id r) rs) = Some r).
Proof.
  intros self. subst self. simpl. split_and!.
  - apply of_list_keys.
  - apply of_list_get.
  - unfold get_all_recipes, PyDict.values, PyDict.keys. simpl.
    apply list_eq. intros i. rewrite !list_lookup_fmap.
    destruct (PyDict.of_list recipe_id rs !! i) as [[k v]|] eqn:Hi; [|done].
    simpl. f_equal. eapply of_list_elem_key, list_elem_of_lookup_2, Hi.
  - intros r. rewrite <- of_list_get.
    unfold get_all_recipes, PyDict.values. simpl. rewrite list_elem_of_fmap.
    split.
    + intros ([k v] & -> & Hin). simpl.
      rewrite (of_list_elem_key _ _ _ _ Hin).
      apply PyDictFacts.elem_of_get; [apply PyDictFacts.NoDup_keys_of_list|done].
    + intros Hget%PyDictFacts.get_Some_elem_of. by eexists (_, r).
Qed.

(** ** The inverted index *)

Lemma index_add_lookup key rid index k x :
  x ∈ default ∅ (index_add key rid index !! k) ↔
  (k = key ∧ x = rid) ∨ x ∈ default ∅ (index !! k).
Proof.
  unfold index_add. destruct (decide (k = key)) as [->|Hne].
  - rewrite lookup_insert_eq. simpl. rewrite elem_of_union, elem_of_singleton.
    naive_solver.
  - rewrite lookup_insert_ne by done. naive_solver.
Qed.

Lemma index_add_dom key rid index :
  dom (index_add key rid index) = {[key]} ∪ dom index.
Proof. unfold index_add. by rewrite dom_insert_L. Qed.

Lemma build_index_lookup (items : PyDict.t Recipe) k x :
  x ∈ default ∅ (build_index items !! k) ↔
  ∃ r, (x, r) ∈ items ∧ k ∈ normalize <$> ingredients r.
Proof.
  unfold build_index. induction items as [|[rid r] items IH] using rev_ind.
  - simpl. rewrite lookup_empty. simpl. rewrite elem_of_empty.
    split; [done|]. by intros (r & ?%elem_of_nil & _).
  - rewrite foldl_app. simpl.
    assert (∀ (ings : list string) (index : gmap string (gset string)),
      x ∈ default ∅
            (foldl (λ index ingredient,
                      index_add (normalize ingredient) rid index)
                   index ings !! k) ↔
      (x = rid ∧ k ∈ normalize <$> ings) ∨ x ∈ default ∅ (index !! k)) as Hin.
    { induction ings as [|ing ings IHi] using rev_ind; intros index.
      - simpl. rewrite elem_of_nil. tauto.
      - rewrite foldl_app. simpl. rewrite index_add_lookup, IHi.
        rewrite fmap_app, elem_of_app. simpl. rewrite list_elem_of_singleton.
        naive_solver. }
    rewrite Hin, IH. split.
    + intros [[-> Hk]|(r' & Hr' & Hk)].
      * exists r. split; [|done]. apply elem_of_app. right. left.
      * exists r'. split; [|done]. apply elem_of_app. by left.
    + intros (r' & [Hr'|Hr']%elem_of_app & Hk).
      * right. by exists r'.
      * apply list_elem_of_singleton in Hr'. injection Hr' as -> ->. by left.
Qed.

Lemma build_index_dom (items : PyDict.t Recipe) k :
  k ∈ dom (build_index items) ↔
  ∃ item, item ∈ items ∧ k ∈ normalize <$> ingredients item.2.
Proof.
  unfold build_index. induction items as [|[rid r] items IH] using rev_ind.
  - simpl. rewrite dom_empty_L, elem_of_empty.
    split; [done|]. by intros (r & ?%elem_of_nil & _).
  - rewrite foldl_app. simpl.
    assert (∀ (ings : list string) (index : gmap string (gset string)),
      k ∈ dom (foldl (λ index ingredient,
                        index_add (normalize ingredient) rid index)
                     index ings) ↔
      k ∈ normalize <$> ings ∨ k ∈ dom index) as Hin.
    { induction ings as [|ing ings IHi] using rev_ind; intros index.
      - simpl. rewrite elem_of_nil. tauto.
      - rewrite foldl_app. simpl. rewrite index_add_dom, elem_of_union, IHi.
        rewrite fmap_app, elem_of_app, elem_of_singleton. simpl.
        rewrite list_elem_of_singleton. tauto. }
    rewrite Hin, IH. split.
    + intros [Hk|(item & Hitem & Hk)].
      * exists (rid, r). split; [|done]. apply elem_of_app. right. left.
      * exists item. split; [|done]. apply elem_of_app. by left.
    + intros (item & [Hitem|Hitem]%elem_of_app & Hk).
      * right. by exists item.
      * apply list_elem_of_singleton in Hitem. subst item. by left.
Qed.

(** X2: after [_load], the inverted index holds an identifier under a
    normalized ingredient name exactly when the catalog's recipe of that
    identifier requires an ingredient of that name; no entry of the index is
    empty, and its keys are the normalized names of [get_all_ingredients]. *)
Theorem index_consistent (rs : list Recipe) (subst : gmap string (list string)) :
  let self := _load rs subst in
  (∀ k rid,
     rid ∈ default ∅ (ingredient_to_recipes self !! k) ↔
     ∃ r, PyDict.get rid (recipes self) = Some r ∧
          k ∈ normalize <$> ingredients r) ∧
  (∀ k, ingredient_to_recipes self !! k ≠ Some ∅) ∧
  dom (ingredient_to_recipes self)
  = list_to_set (normalize <$> get_all_ingredients self).
Proof.
  intros self.
  assert (NoDup (PyDict.keys (recipes self))) as Hnd.
  { apply PyDictFacts.NoDup_keys_of_list. }
  assert (∀ k rid,
     rid ∈ default ∅ (ingredient_to_recipes self !! k) ↔
     ∃ r, PyDict.get rid (recipes self) = Some r ∧
          k ∈ normalize <$> ingredients r) as Hlookup.
  { intros k rid. unfold ingredient_to_recipes. rewrite build_index_lookup.
    split; intros (r & Hr & Hk); exists r; (split; [|done]).
    - by apply PyDictFacts.elem_of_get.
    - by apply PyDictFacts.get_Some_elem_of. }
  split_and!; [done| |].
  - intros k Hk.
    assert (k ∈ dom (ingredient_to_recipes self)) as Hdom.
    { apply elem_of_dom. by eexists. }
    apply build_index_dom in Hdom as ([rid r] & Hitem & Hing).
    assert (rid ∈ default ∅ (ingredient_to_recipes self !! k)) as Hrid.
    { apply build_index_lookup. by exists r. }
    rewrite Hk in Hrid. simpl in Hrid. by apply elem_of_empty in Hrid.
  - apply set_eq. intros k. unfold ingredient_to_recipes.
    rewrite build_index_dom, elem_of_list_to_set, list_elem_of_fmap.
    destruct (get_all_ingredients_spec self) as (Hall & _ & _).
    split.
    + intros ([rid r] & Hitem & (ing & -> & Hing)%list_elem_of_fmap).
      exists ing. split; [done|]. apply Hall. exists r. split; [|done].
      unfold get_all_recipes, PyDict.values. apply list_elem_of_fmap.
      by exists (rid, r).
    + intros (ing & -> & (r & Hr & Hing)%Hall).
      unfold get_all_recipes, PyDict.values in Hr.
      apply list_elem_of_fmap in Hr as (item & -> & Hitem).
      exists item. split; [done|]. by apply list_elem_of_fmap_2.
Qed.

(** X3: [get_all_ingredients] returns, in ascending order and without
    repetition, exactly the ingredient strings of the catalog's recipes as
    they are spelled there. *)
Theorem get_all_ingredients_listing (self : FlavorGraphEngine) :
  (∀ x, x ∈ get_all_ingredients self ↔
        ∃ r, r ∈ get_all_recipes self ∧ x ∈ ingredients r) ∧
  NoDup (get_all_ingredients self) ∧
  StronglySorted String.le (get_all_ingredients self) ∧
  (recipes self = [] → get_all_ingredients self = []).
Proof.
  destruct (get_all_ingredients_spec self) as (Hall & Hnd & Hsorted).
  split_and!; [done..|]. intros Hnil.
  unfold get_all_ingredients. rewrite Hnil. reflexivity.
Qed.

(** ** More on the coverage resolver *)

(** X4: a substitution the resolver records is always an alternative that
    the table lists for the ingredient and that is available, for an
    ingredient of the recipe that is not itself available; with
    substitutions disallowed nothing is recorded. *)
Theorem substitution_is_available_alternative (self : FlavorGraphEngine)
    (recipe : Recipe) (available : gset string) (allow_subs : bool) :
  let cov := _compute_missing_and_subs self recipe available allow_subs in
  (∀ k, match cov_subs cov !! k with
        | Some alt =>
            allow_subs = true ∧
            k ∈ normalize <$> ingredients recipe ∧ (k ∉ available) ∧
            alt ∈ available ∧ alt ∈ default [] (substitutions self !! k)
        | None => True
        end) ∧
  (allow_subs = false → cov_subs cov = ∅).
Proof.
  intros cov. subst cov. split.
  - intros k. rewrite resolve_subs. case_decide as Hk; [|done].
    unfold substitute_for. case_decide as Hav; [done|].
    destruct allow_subs; [|done].
    destruct (first_available _ _) as [alt|] eqn:Hfa; [|done].
    apply first_available_Some in Hfa as (pre & post & Halts & Halt & _).
    split_and!; [done..|]. rewrite Halts. apply elem_of_app. right. left.
  - intros ->. apply map_eq. intros k. rewrite resolve_subs, lookup_empty.
    case_decide; [|done]. unfold substitute_for. by case_decide.
Qed.

(** X5: the coverage of a recipe depends on its ingredient list only through
    the set of normalized names: order, repetition, letter case and
    surrounding white space of the ingredients make no difference. *)
Theorem coverage_of_normalized_set (self : FlavorGraphEngine)
    (r1 r2 : Recipe) (available : gset string) (allow_subs : bool)
    (Hsame : normalized_set (ingredients r1) = normalized_set (ingredients r2)) :
  _compute_missing_and_subs self r1 available allow_subs
  = _compute_missing_and_subs self r2 available allow_subs.
Proof.
  assert (∀ k, k ∈ normalize <$> ingredients r1 ↔
               k ∈ normalize <$> ingredients r2) as Hk.
  { intros k. unfold normalized_set in Hsame.
    by rewrite <- !(elem_of_list_to_set (C := gset string)), Hsame. }
  assert (∀ c1 c2 : Coverage,
            cov_missing c1 = cov_missing c2 → cov_covered c1 = cov_covered c2 →
            cov_subs c1 = cov_subs c2 → c1 = c2) as Heq.
  { intros [] []. simpl. by intros -> -> ->. }
  apply Heq.
  - apply set_eq. intros k. by rewrite !resolve_missing, Hk.
  - apply set_eq. intros k. by rewrite !resolve_covered, Hk.
  - apply map_eq. intros k. rewrite !resolve_subs.
    destruct (decide (k ∈ normalize <$> ingredients r1)) as [H1|H1].
    + rewrite decide_True; [done|]. by apply Hk.
    + rewrite decide_False; [done|]. by rewrite <- Hk.
Qed.

(** R1 re-spelled resolves as R1 does. *)
Lemma coverage_of_normalized_set_example :
  _compute_missing_and_subs Examples.engine Examples.R1
    (normalized_set Examples.pantry) true
  = _compute_missing_and_subs Examples.engine Examples.R1_respelled
      (normalized_set Examples.pantry) true.
Proof.
  apply (coverage_of_normalized_set Examples.engine Examples.R1
           Examples.R1_respelled).
  vm_compute. reflexivity.
Defined.

(** X6: making more ingredients available never adds a missing ingredient
    and never removes a covered one. *)
Theorem coverage_monotone_in_availability (self : FlavorGraphEngine)
    (recipe : Recipe) (available available' : gset string) (allow_subs : bool)
    (Hmore : available ⊆ available') :
  let cov := _compute_missing_and_subs self recipe available allow_subs in
  let cov' := _compute_missing_and_subs self recipe available' allow_subs in
  cov_missing cov' ⊆ cov_missing cov ∧ cov_covered cov ⊆ cov_covered cov' ∧
  (size (cov_missing cov') ≤ size (cov_missing cov))%nat.
Proof.
  intros cov cov'. subst cov cov'.
  assert (cov_missing (_compute_missing_and_subs self recipe available' allow_subs)
          ⊆ cov_missing (_compute_missing_and_subs self recipe available allow_subs))
    as Hm.
  { intros k. rewrite !resolve_missing. intros (Hk & Hav & Hs).
    split_and!; [done|by intros ?%Hmore|].
    revert Hs. unfold substitute_for.
    rewrite !decide_False by (try done; by intros ?%Hmore).
    destruct allow_subs; [|done]. rewrite !first_available_None.
    intros Hall a Ha Hin. by apply (Hall a Ha), Hmore. }
  split_and!; [done| |by apply subseteq_size].
  intros k. rewrite !resolve_covered. intros (Hk & Hcov). split; [done|].
  destruct (decide (k ∈ available')) as [|Hav']; [by left|right].
  destruct Hcov as [?%Hmore|Hsome]; [done|].
  revert Hsome. unfold substitute_for.
  destruct (decide (k ∈ available)) as [?%Hmore|_]; [done|].
  rewrite decide_False by done. destruct allow_subs; [|done].
  destruct (first_available available' _) eqn:Hfa'; [by eauto|].
  rewrite first_available_None in Hfa'.
  intros [alt (pre & post & Halts & Halt & _)%first_available_Some].
  destruct (Hfa' alt); [|by apply Hmore].
  rewrite Halts. apply elem_of_app. right. left.
Qed.

(** Buying sugar: R2 misses nothing any more. *)
Lemma coverage_monotone_example :
  let cov := _compute_missing_and_subs Examples.engine Examples.R2
               (normalized_set Examples.pantry) true in
  let cov' := _compute_missing_and_subs Examples.engine Examples.R2
                (normalized_set ("sugar" :: Examples.pantry)) true in
  cov_missing cov' ⊆ cov_missing cov ∧ cov_covered cov ⊆ cov_covered cov' ∧
  (size (cov_missing cov') ≤ size (cov_missing cov))%nat.
Proof.
  apply (coverage_monotone_in_availability Examples.engine Examples.R2).
  by_evaluation.
Defined.

(** ** More on the gap analyser *)

(** The missing and the covered names split the normalized ingredients. *)
Lemma coverage_split (self : FlavorGraphEngine) (recipe : Recipe)
    (available : gset string) (allow_subs : bool) :
  let cov := _compute_missing_and_subs self recipe available allow_subs in
  (∀ k, k ∈ cov_missing cov → k ∉ cov_covered cov) ∧
  cov_missing cov ∪ cov_covered cov
  = list_to_set (normalize <$> ingredients recipe).
Proof.
  intros cov. subst cov. split.
  - intros k. rewrite resolve_missing, resolve_covered.
    intros (_ & Hav & Hs) (_ & [?|Hsome]); [done|].
    rewrite Hs in Hsome. by destruct Hsome.
  - apply set_eq. intros k.
    rewrite elem_of_union, resolve_missing, resolve_covered,
      elem_of_list_to_set.
    destruct (decide (k ∈ available)),
      (substitute_for self available allow_subs k) eqn:Hs; naive_solver.
Qed.

Lemma analyze_gaps_keys (self : FlavorGraphEngine)
    (recipe_ids available : list string) :
  PyDict.keys (analyze_gaps self recipe_ids available)
  = reverse (remove_dups (reverse
      (filter (λ rid, is_Some (PyDict.get rid (recipes self))) recipe_ids))).
Proof.
  unfold analyze_gaps.
  induction recipe_ids as [|x ids IH] using rev_ind; [done|].
  rewrite foldl_app, filter_app, filter_cons, filter_nil. simpl.
  unfold analyze_gap at 1.
  destruct (PyDict.get x (recipes self)) as [r|] eqn:Hx.
  - rewrite decide_True by eauto.
    rewrite PyDictFacts.keys_set, IH, reverse_app. simpl.
    destruct (decide_rel (∈) x (reverse (filter _ ids))) as [Hin|Hin].
    + rewrite decide_True; [done|].
      by rewrite elem_of_reverse, elem_of_remove_dups.
    + rewrite decide_False; [by rewrite reverse_cons|].
      by rewrite elem_of_reverse, elem_of_remove_dups.
  - rewrite decide_False by (by intros [? ?]).
    by rewrite (right_id_L [] (++)).
Qed.

(** X7: in the result of [analyze_gaps] the entries stand in the order in
    which their identifiers are first requested; in every entry the missing
    and covered lists share no name and together hold each normalized
    ingredient of the recipe once, and no substitution candidate listed for a
    missing ingredient is itself available. *)
Theorem gap_entries_consistent (self : FlavorGraphEngine)
    (recipe_ids available : list string) :
  let gaps := analyze_gaps self recipe_ids available in
  PyDict.keys gaps
  = reverse (remove_dups (reverse
      (filter (λ rid, is_Some (PyDict.get rid (recipes self))) recipe_ids))) ∧
  ∀ rid,
    match PyDict.get rid gaps, PyDict.get rid (recipes self) with
    | Some g, Some r =>
        NoDup (gap_missing g ++ gap_covered g) ∧
        (∀ k, k ∈ gap_missing g ++ gap_covered g ↔
              k ∈ normalize <$> ingredients r) ∧
        (∀ m a, a ∈ default [] (substitution_candidates g !! m) →
                a ∉ normalized_set available)
    | Some g, None => False
    | None, _ => True
    end.
Proof.
  intros gaps. subst gaps. split; [apply analyze_gaps_keys|].
  intros rid. rewrite analyze_gaps_get.
  destruct (decide (rid ∈ recipe_ids)); [|done].
  destruct (PyDict.get rid (recipes self)) as [r|]; simpl; [|done].
  destruct (coverage_split self r (normalized_set available) true)
    as (Hdisj & Hunion).
  split_and!.
  - apply NoDup_app. split_and!; [apply NoDup_sorted| |apply NoDup_sorted].
    intros k Hm%elem_of_sorted Hc%elem_of_sorted. by apply (Hdisj k).
  - intros k. rewrite elem_of_app, !elem_of_sorted, <- elem_of_union, Hunion.
    by rewrite elem_of_list_to_set.
  - intros m a Ha Hav.
    destruct (set_to_map _ _ !! m) as [alts|] eqn:Hm;
      [|by apply elem_of_nil in Ha].
    apply lookup_set_to_map in Hm as (m' & Hmiss & [= -> <-]);
      [|naive_solver].
    simpl in Ha. apply resolve_missing in Hmiss as (_ & Hnot & Hs).
    unfold substitute_for in Hs. rewrite decide_False in Hs by done.
    rewrite first_available_None in Hs. by apply (Hs a).
Qed.

(** ** More on [suggest_recipes] *)

Lemma length_slice_to {A} (k : Z) (l : list A) :
  (0 ≤ k)%Z → (Z.of_nat (length (slice_to k l)) ≤ k)%Z.
Proof.
  intros Hk. unfold slice_to. rewrite decide_True by done.
  rewrite length_take. lia.
Qed.

Lemma final_plan_NoDup (req : SuggestionRequest) (top : list Candidate) st :
  search_inv req top st → NoDup (cand_id <$> top) →
  NoDup (final_plan req top st).1.
Proof.
  intros Hinv Hnd. unfold final_plan. case_decide; simpl.
  - apply (sublist_NoDup _ (cand_id <$> top)); [done|].
    apply fmap_sublist, slice_to_sublist.
  - destruct Hinv as [(? & _)|(chosen & _ & _ & (Hsub & _) & -> & _)]; [done|].
    apply (sublist_NoDup _ (cand_id <$> top)); [done|]. by apply fmap_sublist.
Qed.

(** X8: for a catalog whose records all carry a title, as [Recipe] has
    them, the lookups [self.recipes[x[0]]] of the sort key and
    [self.recipes[rid]] of the assembly loop never fail: every identifier of
    the shortlist and of the final plan is a key of the catalog, whatever the
    engine state and the request, so [suggest_recipes] returns a response.
    The response repeats the request's [plan_size] and [max_missing]; it
    holds at most [max_suggestions] records when that is not negative, at
    most [plan_size] records when the search recorded a plan, and no
    identifier twice when the catalog has none twice. *)
Theorem suggest_recipes_response (self : FlavorGraphEngine)
    (req : SuggestionRequest) :
  ∃ top resp,
    top_candidates self req = Some top ∧
    suggest_recipes self req = Some resp ∧
    (∀ c, c ∈ top → is_Some (PyDict.get (cand_id c) (recipes self))) ∧
    (∀ rid, rid ∈ (final_plan req top (plan_search req top)).1 →
            is_Some (PyDict.get rid (recipes self))) ∧
    resp_plan_size resp = plan_size req ∧
    resp_max_missing resp = max_missing req ∧
    ((0 ≤ max_suggestions req)%Z →
     (Z.of_nat (length (suggestions resp)) ≤ max_suggestions req)%Z) ∧
    (best_plan (plan_search req top) ≠ [] →
     (Z.of_nat (length (suggestions resp)) ≤ plan_size req)%Z) ∧
    (NoDup (PyDict.keys (recipes self)) → NoDup (sg_id <$> suggestions resp)).
Proof.
  destruct (suggest_recipes_total self req)
    as (top & resp & Htop & Hsub & Hnd & Hresp & Hids & _).
  exists top, resp.
  assert (length (suggestions resp)
          = length (slice_to (max_suggestions req)
                      (final_plan req top (plan_search req top)).1)) as Hlen.
  { by rewrite <- Hids, length_fmap. }
  assert (∀ c, c ∈ top → is_Some (PyDict.get (cand_id c) (recipes self)))
    as Hkeys.
  { intros c Hc. by apply (greedy_get self req), Hsub. }
  split_and!; [done|done|done| | | | | |].
  - intros rid Hrid.
    destruct (final_plan_sources req top (plan_search req top)
                (plan_search_inv req top)) as [Hplan _].
    apply Hplan, list_elem_of_fmap in Hrid as (c & -> & Hc). by apply Hkeys.
  - unfold suggest_recipes in Hresp. rewrite Htop in Hresp. simpl in Hresp.
    destruct (mapM _ _); simpl in Hresp; [|done]. by injection Hresp as <-.
  - unfold suggest_recipes in Hresp. rewrite Htop in Hresp. simpl in Hresp.
    destruct (mapM _ _); simpl in Hresp; [|done]. by injection Hresp as <-.
  - intros Hk. rewrite Hlen. by apply length_slice_to.
  - intros Hne. rewrite Hlen.
    pose proof (sublist_length _ _
      (slice_to_sublist (max_suggestions req)
         (final_plan req top (plan_search req top)).1)) as Hle.
    unfold final_plan in *. rewrite decide_False in * by done. simpl in *.
    destruct (plan_search_inv req top)
      as [(? & _)|(chosen & _ & _ & (_ & Hl & _) & Hp & _)]; [done|].
    rewrite Hp in *. rewrite length_fmap in Hle. lia.
  - intros Hkeys'. rewrite Hids.
    eapply sublist_NoDup; [|apply slice_to_sublist].
    apply final_plan_NoDup; [apply plan_search_inv|auto].
Qed.

(** X9: every record of the response copies the title, ingredients,
    instructions and tags of the catalog's recipe of its identifier, and
    carries the sorted missing and covered names and the substitutions of
    that recipe alone, which split the recipe's normalized ingredients, even
    when the plan was selected on aggregated sets. *)
Theorem suggestion_records_per_recipe (rs : list Recipe)
    (subst : gmap string (list string)) (req : SuggestionRequest) :
  let self := _load rs subst in
  ∃ resp,
    suggest_recipes self req = Some resp ∧
    ∀ s, s ∈ suggestions resp →
      ∃ r, PyDict.get (sg_id s) (recipes self) = Some r ∧
           sg_title s = title r ∧ sg_ingredients s = ingredients r ∧
           sg_instructions s = instructions r ∧ sg_tags s = tags r ∧
           let cov := _compute_missing_and_subs self r
                        (normalized_set (available_ingredients req))
                        (allow_substitutions req) in
           sg_missing s = sorted (cov_missing cov) ∧
           sg_covered s = sorted (cov_covered cov) ∧
           sg_substitutions s = cov_subs cov ∧
           NoDup (sg_missing s ++ sg_covered s) ∧
           list_to_set (sg_missing s ++ sg_covered s)
           = normalized_set (ingredients r).
Proof.
  intros self.
  assert (NoDup (PyDict.keys (recipes self))) as Hnd.
  { apply PyDictFacts.NoDup_keys_of_list. }
  destruct (suggestions_per_recipe self req Hnd)
    as (top & resp & Htop & Hresp & Hall).
  destruct (suggest_recipes_total self req)
    as (top' & resp' & Htop' & _ & _ & Hresp' & _ & Hrec).
  rewrite Htop in Htop'. injection Htop' as <-.
  rewrite Hresp in Hresp'. injection Hresp' as <-.
  exists resp. split; [done|]. intros s Hs.
  destruct (Hall s Hs) as (r & Hget & _ & Hm & Hc & Hsub).
  specialize (Hrec s Hs). unfold suggestion_of in Hrec.
  rewrite Hget in Hrec. simpl in Hrec. injection Hrec as Hrec.
  exists r. rewrite <- Hrec at 2 3 4 5. simpl.
  destruct (coverage_split self r
              (normalized_set (available_ingredients req))
              (allow_substitutions req)) as (Hdisj & Hunion).
  split_and!; [done..| |].
  - rewrite Hm, Hc. apply NoDup_app.
    split_and!; [apply NoDup_sorted| |apply NoDup_sorted].
    intros k Hk%elem_of_sorted Hk'%elem_of_sorted. by apply (Hdisj k).
  - rewrite Hm, Hc, list_to_set_app_L, !list_to_set_sorted. exact Hunion.
Qed.

Lemma plan_search_nil (req : SuggestionRequest) :
  best_plan (plan_search req []) = [].
Proof.
  rewrite plan_search_unfold. case_decide; [done|]. simpl.
  assert (best_plan (evaluate req [] initial_state) = []) as Hev.
  { unfold evaluate. case_decide; [|done]. by destruct (_ <? _)%float. }
  by case_decide.
Qed.

(** X10: when no recipe of the catalog passes the stage-1 filter (the
    catalog is empty, [max_missing] is negative, or every recipe misses more
    than [max_missing] ingredients), [suggest_recipes] returns a response
    without suggestions, not an error. *)
Theorem no_candidate_no_suggestion (self : FlavorGraphEngine)
    (req : SuggestionRequest)
    (Hnone : recipes self = [] ∨ (max_missing req < 0)%Z ∨
             Forall (λ item, ¬ within_missing self req item) (recipes self)) :
  suggest_recipes self req
  = Some {| suggestions := []; resp_plan_size := plan_size req;
            resp_max_missing := max_missing req |}.
Proof.
  assert (Forall (λ item, ¬ within_missing self req item) (recipes self))
    as Hall.
  { destruct Hnone as [->|[Hneg|?]]; [by constructor| |done].
    apply Forall_forall. intros item _. unfold within_missing. lia. }
  assert (greedy_scores self req = []) as Hgreedy.
  { rewrite greedy_scores_filter.
    replace (filter (within_missing self req) (recipes self))
      with (@nil (string * Recipe)); [done|].
    symmetry. clear Hnone.
    induction Hall as [|item l Hitem _ IH]; [done|].
    by rewrite filter_cons_False. }
  destruct (top_candidates_total self req) as (top & Htop & Hsub & _).
  rewrite Hgreedy in Hsub.
  assert (top = []) as ->.
  { destruct top as [|c top]; [done|].
    exfalso. apply (not_elem_of_nil c), Hsub. left. }
  unfold suggest_recipes. rewrite Htop. simpl.
  unfold final_plan. rewrite decide_True by apply plan_search_nil.
  assert (∀ A, slice_to (max_suggestions req) (@nil A) = []) as Hslice.
  { intros A. unfold slice_to. case_decide; apply take_nil. }
  cbn [fst snd]. rewrite Hslice. cbn [fmap list_fmap]. by rewrite Hslice.
Qed.

Lemma no_candidate_example :
  (recipes Examples.engine = [] ∨
   (max_missing Examples.request_empty_pantry < 0)%Z ∨
   Forall (λ item, ¬ within_missing Examples.engine
                       Examples.request_empty_pantry item)
          (recipes Examples.engine)) ∧
  suggest_recipes Examples.engine Examples.request_empty_pantry
  = Some {| suggestions := []; resp_plan_size := 1; resp_max_missing := 0 |}.
Proof.
  assert (Forall (λ item, ¬ within_missing Examples.engine
                              Examples.request_empty_pantry item)
                 (recipes Examples.engine)) as H by by_evaluation.
  split; [auto|].
  exact (no_candidate_no_suggestion Examples.engine
           Examples.request_empty_pantry (or_intror (or_intror H))).
Defined.

(** X11: with [plan_size <= 0] the search records no recipe (a negative
    [plan_size] returns at once, [plan_size = 0] evaluates the empty plan
    only), so the response is the fallback: the first [max_suggestions]
    entries of the shortlist, cut to [max_suggestions] once more. *)
Theorem no_plan_size_falls_back (self : FlavorGraphEngine)
    (req : SuggestionRequest) (Hsize : (plan_size req ≤ 0)%Z) :
  ∃ top resp,
    top_candidates self req = Some top ∧
    suggest_recipes self req = Some resp ∧
    best_plan (plan_search req top) = [] ∧
    sg_id <$> suggestions resp
    = slice_to (max_suggestions req)
        (cand_id <$> slice_to (max_suggestions req) top).
Proof.
  destruct (suggest_recipes_total self req)
    as (top & resp & Htop & _ & _ & Hresp & Hids & _).
  exists top, resp.
  assert (best_plan (plan_search req top) = []) as Hnil.
  { rewrite plan_search_unfold. case_decide; [done|]. simpl.
    rewrite decide_True by lia.
    unfold evaluate. case_decide; [|done]. by destruct (_ <? _)%float. }
  split_and!; [done..|].
  rewrite Hids. unfold final_plan. by rewrite decide_True.
Qed.

Lemma no_plan_size_example :
  (plan_size Examples.request_no_plan ≤ 0)%Z ∧
  ∃ top resp,
    top_candidates Examples.engine Examples.request_no_plan = Some top ∧
    suggest_recipes Examples.engine Examples.request_no_plan = Some resp ∧
    best_plan (plan_search Examples.request_no_plan top) = [] ∧
    sg_id <$> suggestions resp
    = slice_to (max_suggestions Examples.request_no_plan)
        (cand_id <$> slice_to (max_suggestions Examples.request_no_plan) top).
Proof.
  assert (plan_size Examples.request_no_plan ≤ 0)%Z as H by (simpl; lia).
  split; [exact H|].
  exact (no_plan_size_falls_back Examples.engine Examples.request_no_plan H).
Defined.

Lemma size_list_to_set_le (l : list string) :
  (size (list_to_set (C := gset string) l) ≤ length l)%nat.
Proof.
  rewrite (size_distinct _ l) by (intros k; apply elem_of_list_to_set).
  induction l as [|x l IH]; [done|].
  simpl. case_decide; simpl; lia.
Qed.

(** X12: the pruning test of the search loop,
    [len(new_missing) > req.max_missing], never holds for a recipe of the
    shortlist, whatever ingredients are in use: the loop visits every
    extension of the current plan by a later shortlist recipe. *)
Theorem shortlist_never_pruned (self : FlavorGraphEngine)
    (req : SuggestionRequest) :
  ∃ top,
    top_candidates self req = Some top ∧
    ∀ c, c ∈ top → ∀ rest chosen used st,
      ¬ (max_missing req
         < Z.of_nat (size (list_to_set (missing (cand_details c)) ∖ used)))%Z ∧
      backtrack_loop req (c :: rest) chosen used st
      = backtrack_loop req rest chosen used
          (backtrack_body (backtrack_loop req) req rest (chosen ++ [c])
             (used ∪ list_to_set (covered (cand_details c))) st).
Proof.
  destruct (top_candidates_total self req) as (top & Htop & Hsub & _).
  exists top. split; [done|]. intros c Hc rest chosen used st.
  assert (¬ (max_missing req
             < Z.of_nat (size (list_to_set (C := gset string)
                                 (missing (cand_details c)) ∖ used)))%Z)
    as Hkeep.
  { pose proof (greedy_missing_length self req c (Hsub c Hc)) as Hlen.
    pose proof (size_list_to_set_le (missing (cand_details c))) as Hsize.
    pose proof (subseteq_size
      (list_to_set (C := gset string) (missing (cand_details c)) ∖ used)
      (list_to_set (missing (cand_details c)))) as Hdiff.
    assert (size (list_to_set (C := gset string)
                    (missing (cand_details c)) ∖ used)
            ≤ size (list_to_set (C := gset string)
                      (missing (cand_details c))))%nat
      by (apply Hdiff; set_solver).
    lia. }
  split; [exact Hkeep|]. simpl. by rewrite decide_False.
Qed.

(** ** [suggest_recipes] against [analyze_gaps] *)

(** X13: when substitutions are allowed, the gap analysis of the suggested
    identifiers for the same availability agrees with the suggestion
    records: every suggested recipe has a gap entry, with the title, the
    missing list and the covered list of the record; the entry lists
    candidates for exactly the missing names of the record, and these are at
    most [max_missing]. *)
Theorem suggestions_agree_with_gaps (rs : list Recipe)
    (subst : gmap string (list string)) (req : SuggestionRequest)
    (Hallow : allow_substitutions req = true) :
  let self := _load rs subst in
  ∃ resp,
    suggest_recipes self req = Some resp ∧
    ∀ s, s ∈ suggestions resp →
      ∃ g, PyDict.get (sg_id s)
             (analyze_gaps self (sg_id <$> suggestions resp)
                (available_ingredients req)) = Some g ∧
           gap_title g = sg_title s ∧
           gap_missing g = sg_missing s ∧
           gap_covered g = sg_covered s ∧
           dom (substitution_candidates g) = list_to_set (sg_missing s) ∧
           (Z.of_nat (length (gap_missing g)) ≤ max_missing req)%Z.
Proof.
  intros self.
  assert (NoDup (PyDict.keys (recipes self))) as Hnd.
  { apply PyDictFacts.NoDup_keys_of_list. }
  destruct (suggestions_per_recipe self req Hnd)
    as (top & resp & Htop & Hresp & Hall).
  destruct (suggest_recipes_total self req)
    as (top' & resp' & Htop' & _ & _ & Hresp' & _ & Hrec).
  rewrite Htop in Htop'. injection Htop' as <-.
  rewrite Hresp in Hresp'. injection Hresp' as <-.
  exists resp. split; [done|]. intros s Hs.
  destruct (Hall s Hs) as (r & Hget & Hwithin & Hm & Hc & _).
  specialize (Hrec s Hs). unfold suggestion_of in Hrec.
  rewrite Hget in Hrec. simpl in Hrec. injection Hrec as Hrec.
  rewrite Hallow in Hm, Hc.
  unfold within_missing in Hwithin. rewrite Hallow in Hwithin.
  simpl in Hwithin.
  exists (gap_entry self (normalized_set (available_ingredients req)) r).
  split_and!.
  - rewrite analyze_gaps_get, Hget.
    rewrite decide_True; [done|]. by apply list_elem_of_fmap_2.
  - by rewrite <- Hrec.
  - by rewrite Hm.
  - by rewrite Hc.
  - rewrite Hm, list_to_set_sorted. simpl.
    apply set_eq. intros m. rewrite elem_of_dom. unfold is_Some.
    setoid_rewrite lookup_set_to_map; [|naive_solver]. naive_solver.
  - simpl. by rewrite length_sorted.
Qed.

Lemma suggestions_agree_with_gaps_example :
  allow_substitutions Examples.request = true ∧
  ∃ resp,
    suggest_recipes (_load [Examples.R1; Examples.R2] Examples.table)
      Examples.request = Some resp ∧
    ∀ s, s ∈ suggestions resp →
      ∃ g, PyDict.get (sg_id s)
             (analyze_gaps (_load [Examples.R1; Examples.R2] Examples.table)
                (sg_id <$> suggestions resp)
                (available_ingredients Examples.request)) = Some g ∧
           gap_title g = sg_title s ∧
           gap_missing g = sg_missing s ∧
           gap_covered g = sg_covered s ∧
           dom (substitution_candidates g) = list_to_set (sg_missing s) ∧
           (Z.of_nat (length (gap_missing g))
            ≤ max_missing Examples.request)%Z.
Proof.
  split; [reflexivity|].
  exact (suggestions_agree_with_gaps [Examples.R1; Examples.R2]
           Examples.table Examples.request eq_refl).
Defined.

(** ** The normalizer and the request boundary *)

Section NormalizerFacts.

Lemma string_append_String (a : ascii) (s t : string) :
  String a s +:+ t = String a (s +:+ t).
Proof. done. Qed.

Lemma string_append_nil_r (s : string) : s +:+ "" = s.
Proof.
  induction s as [|a s IH]; [done|]. by rewrite string_append_String, IH.
Qed.

Lemma string_append_assoc (s t u : string) : (s +:+ t) +:+ u = s +:+ (t +:+ u).
Proof.
  induction s as [|a s IH]; [done|]. by rewrite !string_append_String, IH.
Qed.

Lemma string_rev_app_append (s acc : string) :
  String.rev_app s acc = String.rev s +:+ acc.
Proof.
  unfold String.rev. revert acc.
  induction s as [|a s IH]; intros acc; simpl; [done|].
  rewrite (IH (String a acc)), (IH (String a "")), string_append_assoc. done.
Qed.

Lemma string_rev_app_of_append (s t acc : string) :
  String.rev_app (s +:+ t) acc = String.rev_app t (String.rev_app s acc).
Proof.
  revert acc. induction s as [|a s IH]; intros acc; [done|].
  rewrite string_append_String. simpl. apply IH.
Qed.

Lemma string_rev_append (s t : string) :
  String.rev (s +:+ t) = String.rev t +:+ String.rev s.
Proof.
  unfold String.rev at 1. by rewrite string_rev_app_of_append, string_rev_app_append.
Qed.

Lemma string_rev_String (a : ascii) (s : string) :
  String.rev (String a s) = String.rev s +:+ String a "".
Proof. unfold String.rev at 1. simpl. apply string_rev_app_append. Qed.

Lemma string_rev_involutive (s : string) : String.rev (String.rev s) = s.
Proof.
  induction s as [|a s IH]; [done|].
  rewrite string_rev_String, string_rev_append, IH. done.
Qed.

Lemma lstrip_stops (s : string) :
  lstrip s = "" ∨ ∃ a t, lstrip s = String a t ∧ is_space a = false.
Proof.
  induction s as [|a s IH]; simpl; [by left|].
  destruct (is_space a) eqn:Ha; [done|]. right. by exists a, s.
Qed.

Lemma lstrip_idem (s : string) : lstrip (lstrip s) = lstrip s.
Proof.
  destruct (lstrip_stops s) as [->|(a & t & -> & Ha)]; [done|].
  simpl. by rewrite Ha.
Qed.

Lemma lstrip_append (x w : string) (a : ascii) :
  is_space a = false →
  lstrip (x +:+ String a w) = lstrip x +:+ String a w.
Proof.
  intros Ha. induction x as [|b x IH]; simpl; [by rewrite Ha|].
  by destruct (is_space b).
Qed.

Lemma rstrip_String (a : ascii) (t : string) :
  is_space a = false → rstrip (String a t) = String a (rstrip t).
Proof.
  intros Ha. unfold rstrip.
  rewrite string_rev_String, lstrip_append, string_rev_append by done. done.
Qed.

Lemma rstrip_idem (s : string) : rstrip (rstrip s) = rstrip s.
Proof. unfold rstrip. by rewrite string_rev_involutive, lstrip_idem. Qed.

Lemma lstrip_strip (s : string) : lstrip (strip s) = strip s.
Proof.
  unfold strip. destruct (lstrip_stops s) as [->|(a & t & -> & Ha)]; [done|].
  rewrite rstrip_String by done. simpl. by rewrite Ha.
Qed.

Lemma strip_idem (s : string) : strip (strip s) = strip s.
Proof.
  unfold strip at 1. rewrite lstrip_strip. unfold strip. apply rstrip_idem.
Qed.

Lemma is_space_lower (a : ascii) : is_space (lower_ascii a) = is_space a.
Proof. by destruct a as [[] [] [] [] [] [] [] []]. Qed.

Lemma lower_ascii_idem (a : ascii) :
  lower_ascii (lower_ascii a) = lower_ascii a.
Proof. by destruct a as [[] [] [] [] [] [] [] []]. Qed.

Lemma lower_idem (s : string) : lower (lower s) = lower s.
Proof.
  induction s as [|a s IH]; simpl; [done|]. by rewrite lower_ascii_idem, IH.
Qed.

Lemma lower_lstrip (s : string) : lower (lstrip s) = lstrip (lower s).
Proof.
  induction s as [|a s IH]; simpl; [done|].
  rewrite is_space_lower. by destruct (is_space a).
Qed.

Lemma lower_rev (s : string) : lower (String.rev s) = String.rev (lower s).
Proof.
  unfold String.rev. change "" with (lower "") at 2. generalize "" as acc.
  induction s as [|a s IH]; intros acc; simpl; [done|]. by rewrite IH.
Qed.

Lemma lower_strip (s : string) : lower (strip s) = strip (lower s).
Proof.
  unfold strip, rstrip.
  by rewrite lower_rev, lower_lstrip, lower_rev, lower_lstrip.
Qed.

Lemma normalize_idem (s : string) : normalize (normalize s) = normalize s.
Proof.
  unfold normalize. by rewrite <- lower_strip, strip_idem, lower_idem.
Qed.

End NormalizerFacts.

(** X14: the list that the routes of [app.py] build from the JSON array
    [available_ingredients] holds the normalized form of exactly the
    non-empty strings of the array (other JSON values and the empty string are
    dropped; a string of whitespace only is kept, as the empty name); it is
    no longer than the array, and normalizing it again, as [suggest_recipes]
    and [analyze_gaps] do when they build their availability set, changes
    nothing. *)
Theorem request_boundary_normalized (items : list JsonItem) :
  let av := sanitize_ingredients items in
  (∀ k, k ∈ av ↔ ∃ s, JString s ∈ items ∧ s ≠ "" ∧ k = normalize s) ∧
  normalize <$> av = av ∧
  normalized_set av = list_to_set av ∧
  (length av ≤ length items)%nat ∧
  (∀ s, JString s ∈ items → s ≠ "" → strip s = "" → "" ∈ av).
Proof.
  intros av. subst av.
  assert (∀ k, k ∈ sanitize_ingredients items ↔
               ∃ s, JString s ∈ items ∧ s ≠ "" ∧ k = normalize s) as Hmem.
  { intros k. unfold sanitize_ingredients. rewrite list_elem_of_omap. split.
    - intros ([s|] & Hin & Hk); [|done].
      case_decide; [done|]. injection Hk as <-. by exists s.
    - intros (s & Hin & Hne & ->). exists (JString s).
      split; [done|]. by rewrite decide_False. }
  assert (normalize <$> sanitize_ingredients items
          = sanitize_ingredients items) as Hfix.
  { clear Hmem. induction items as [|[s|] items IH]; [done| |done].
    unfold sanitize_ingredients in *. cbn [omap list_omap].
    case_decide; [done|]. rewrite fmap_cons, normalize_idem. by f_equal. }
  split_and!; [done|done| | |].
  - unfold normalized_set. by rewrite Hfix.
  - clear Hmem Hfix. induction items as [|[s|] items IH]; [done| |simpl; lia].
    unfold sanitize_ingredients in *. cbn [omap list_omap].
    case_decide; simpl; lia.
  - intros s Hin Hne Hstrip. apply Hmem. exists s.
    split_and!; [done..|]. unfold normalize. by rewrite Hstrip.
Qed.

(** X15: the names the coverage resolver returns for the availability set
    of a request are in normal form: every missing or covered name, every
    key of [subs_used] and every alternative recorded in it is left unchanged
    by [strip().lower()], and the alternative comes from the table's list of
    its key.  An entry of the substitution table under a key that is not in
    normal form, or an alternative spelled otherwise, is never used. *)
Theorem recorded_names_canonical (self : FlavorGraphEngine) (recipe : Recipe)
    (available : list string) (allow_subs : bool) :
  let cov := _compute_missing_and_subs self recipe
               (normalized_set available) allow_subs in
  (∀ k, k ∈ cov_missing cov ∪ cov_covered cov → normalize k = k) ∧
  (∀ k alt, cov_subs cov !! k = Some alt →
     normalize k = k ∧ normalize alt = alt ∧
     alt ∈ default [] (substitutions self !! k)) ∧
  (∀ k alts alt, substitutions self !! k = Some alts → alt ∈ alts →
     normalize k ≠ k ∨ normalize alt ≠ alt →
     cov_subs cov !! k ≠ Some alt).
Proof.
  intros cov. subst cov.
  assert (∀ (xs : list string) k, k ∈ normalize <$> xs → normalize k = k)
    as Hcanon.
  { intros xs k (x & -> & _)%list_elem_of_fmap. apply normalize_idem. }
  assert (∀ k alt,
            cov_subs (_compute_missing_and_subs self recipe
                        (normalized_set available) allow_subs) !! k
            = Some alt →
            normalize k = k ∧ normalize alt = alt ∧
            alt ∈ default [] (substitutions self !! k)) as Hsubs.
  { intros k alt Hk. rewrite resolve_subs in Hk.
    case_decide as Hin; [|done]. unfold substitute_for in Hk.
    case_decide; [done|]. destruct allow_subs; [|done].
    apply first_available_Some in Hk as (pre & post & Halts & Hav & _).
    split_and!.
    - by apply (Hcanon (ingredients recipe)).
    - apply (Hcanon available). unfold normalized_set in Hav.
      by apply elem_of_list_to_set in Hav.
    - rewrite Halts. apply elem_of_app. right. left. }
  split_and!; [|done|].
  - intros k [Hk%resolve_missing|Hk%resolve_covered]%elem_of_union;
      apply (Hcanon (ingredients recipe)), Hk.
  - intros k alts alt _ _ Hbad Hk.
    destruct (Hsubs k alt Hk) as (? & ? & _). by destruct Hbad.
Qed.

(** ** The plan score is a number *)

Section FloatMagnitude.
#[local] Open Scope Z_scope.
#[local] Abbreviation fexp := (SpecFloat.fexp prec emax).

Lemma sf_bounded_finite B x : sf_bounded B x → sf_finite x.
Proof. by destruct x. Qed.

Lemma digits2_pos_lt p : Zpos p < 2 ^ Zpos (digits2_pos p).
Proof.
  induction p as [p IH|p IH|]; simpl; [| |done].
  - rewrite Pos2Z.inj_succ, Z.pow_succ_r by lia. lia.
  - rewrite Pos2Z.inj_succ, Z.pow_succ_r by lia. lia.
Qed.

Lemma digits2_pos_mul p q :
  Zpos (digits2_pos (p * q)) ≤ Zpos (digits2_pos p) + Zpos (digits2_pos q).
Proof.
  apply digits2_pos_le; [|lia]. rewrite Z.pow_add_r by lia.
  pose proof (digits2_pos_lt p). pose proof (digits2_pos_lt q).
  rewrite Pos2Z.inj_mul. nia.
Qed.

Lemma Zdigits2_le z k : Z.abs z < 2 ^ k → 0 ≤ k → Zdigits2 z ≤ k.
Proof.
  intros Hz Hk. destruct z as [|p|p]; simpl; [done|..];
    apply digits2_pos_le; lia.
Qed.

Lemma shr_1_digits mrs :
  0 ≤ shr_m mrs →
  Zdigits2 (shr_m (shr_1 mrs)) ≤ Z.max 0 (Zdigits2 (shr_m mrs) - 1).
Proof.
  destruct mrs as [[|[p|p|]|p] r s]; simpl; intros ?; lia.
Qed.

Lemma iter_shr_1_digits p mrs :
  0 ≤ shr_m mrs →
  Zdigits2 (shr_m (SpecFloat.iter_pos shr_1 p mrs))
  ≤ Z.max 0 (Zdigits2 (shr_m mrs) - Zpos p).
Proof.
  revert mrs. induction p as [p IH|p IH|]; intros mrs Hm; simpl.
  - destruct (shr_1_bounds mrs Hm) as [H1 _].
    pose proof (shr_1_digits mrs Hm).
    destruct (iter_shr_1_bounds p _ H1) as [H3 _].
    pose proof (IH _ H1). pose proof (IH _ H3). lia.
  - destruct (iter_shr_1_bounds p _ Hm) as [H3 _].
    pose proof (IH _ Hm). pose proof (IH _ H3). lia.
  - pose proof (shr_1_digits mrs Hm). lia.
Qed.

Lemma shr_fexp_magnitude m e l :
  0 ≤ m →
  Zdigits2 (shr_m (shr_fexp prec emax m e l).1) + (shr_fexp prec emax m e l).2
  ≤ Z.max (Zdigits2 m + e) (fexp (Zdigits2 m + e)).
Proof.
  intros Hm. unfold shr_fexp, shr.
  destruct (fexp (Zdigits2 m + e) - e) as [|p|p] eqn:Hn; simpl.
  - rewrite shr_m_of_loc. lia.
  - pose proof (iter_shr_1_digits p (shr_record_of_loc m l)) as H.
    rewrite shr_m_of_loc in H. specialize (H Hm). lia.
  - rewrite shr_m_of_loc. lia.
Qed.

(** Rounding keeps the magnitude, up to one binary digit. *)
Lemma binary_round_aux_bounded sx mx ex lx B :
  0 ≤ mx → Zdigits2 mx + ex ≤ B → ex ≤ B → -1074 ≤ B → B ≤ 971 →
  sf_bounded (B + 1) (binary_round_aux prec emax sx mx ex lx).
Proof.
  intros Hm Hd He Hlo Hhi. unfold binary_round_aux.
  pose proof (shr_fexp_bounds mx ex lx Hm) as (H1 & _ & H1e).
  pose proof (shr_fexp_magnitude mx ex lx Hm) as H1m.
  destruct (shr_fexp prec emax mx ex lx) as [mrs' e'].
  simpl in H1, H1e, H1m.
  pose proof (round_nearest_even_bounds (shr_m mrs') (loc_of_shr_record mrs') H1)
    as [H2 H2d].
  pose proof (shr_fexp_bounds _ e' loc_Exact H2) as (H3 & _ & H3e).
  pose proof (shr_fexp_magnitude _ e' loc_Exact H2) as H3m.
  destruct (shr_fexp prec emax _ e' loc_Exact) as [mrs'' e''].
  simpl in H3, H3e, H3m.
  rewrite !fexp_eq in *.
  destruct (shr_m mrs'') as [|p|p]; [done| |lia].
  assert (e'' ≤ emax - prec) as He''.
  { change (emax - prec) with 971. lia. }
  apply Z.leb_le in He''. rewrite He''. simpl. simpl in H3m. lia.
Qed.

Lemma shl_align_magnitude m e e' :
  Zpos (digits2_pos (shl_align m e e').1) + (shl_align m e e').2
  = Zpos (digits2_pos m) + e ∧
  (shl_align m e e').2 ≤ e.
Proof.
  unfold shl_align. destruct (e' - e) as [|k|k] eqn:Hk; simpl; [lia..|].
  rewrite digits2_pos_iter_xO. lia.
Qed.

Lemma binary_round_bounded sx mx ex B :
  Zpos (digits2_pos mx) + ex ≤ B → -1074 ≤ B → B ≤ 971 →
  sf_bounded (B + 1) (binary_round prec emax sx mx ex).
Proof.
  intros Hd Hlo Hhi. unfold binary_round.
  pose proof (shl_align_magnitude mx ex
                (fexp (Zpos (digits2_pos mx) + ex))) as [Hs He].
  destruct (shl_align _ _ _) as [mz ez]. simpl in Hs, He.
  apply binary_round_aux_bounded; simpl; lia.
Qed.

Lemma of_uint63_bounded u : sf_bounded 64 (Prim2SF (of_uint63 u)).
Proof.
  rewrite FloatAxioms.of_uint63_spec.
  pose proof (Uint63.to_Z_bounded u) as [Hlo Hhi].
  destruct (Uint63.to_Z u) as [|m|m]; [done| |lia]. simpl.
  assert (Zpos (digits2_pos m) ≤ 63) as Hd.
  { apply digits2_pos_le; [|lia]. exact Hhi. }
  apply (binary_round_bounded false m 0 63); lia.
Qed.

Lemma SF64mul_bounded x y Bx By :
  sf_bounded Bx x → sf_bounded By y → -1074 ≤ Bx + By → Bx + By ≤ 971 →
  sf_bounded (Bx + By + 1) (SF64mul x y).
Proof.
  destruct x as [sx|sx| |sx mx ex], y as [sy|sy| |sy my ey]; try done.
  simpl. intros Hx Hy Hlo Hhi.
  pose proof (digits2_pos_mul mx my).
  apply binary_round_aux_bounded; simpl; lia.
Qed.

Lemma SF64sub_finite x y B :
  sf_bounded B x → sf_bounded B y → -1075 ≤ B → B ≤ 970 →
  sf_finite (SF64sub x y).
Proof.
  destruct x as [sx|sx| |sx mx ex], y as [sy|sy| |sy my ey]; try done.
  - intros _ _ _ _. simpl. by destruct sx, sy.
  - simpl. intros Hx Hy Hlo Hhi.
    pose proof (shl_align_magnitude mx ex (Z.min ex ey)) as [Hax _].
    pose proof (shl_align_magnitude my ey (Z.min ex ey)) as [Hay _].
    assert ((shl_align mx ex (Z.min ex ey)).2 = Z.min ex ey) as Hex.
    { unfold shl_align. destruct (Z.min ex ey - ex) eqn:?; simpl; lia. }
    assert ((shl_align my ey (Z.min ex ey)).2 = Z.min ex ey) as Hey.
    { unfold shl_align. destruct (Z.min ex ey - ey) eqn:?; simpl; lia. }
    destruct (shl_align mx ex (Z.min ex ey)) as [mx' ex'].
    destruct (shl_align my ey (Z.min ex ey)) as [my' ey'].
    simpl in *. subst ex' ey'.
    set (ez := Z.min ex ey) in *.
    set (z := cond_Zopp sx (Z.pos mx') - cond_Zopp sy (Z.pos my')).
    assert (Zdigits2 z + ez ≤ B + 1) as Hz.
    { assert (Zdigits2 z ≤ B + 1 - ez); [|lia].
      apply Zdigits2_le; [|lia].
      pose proof (digits2_pos_lt mx'). pose proof (digits2_pos_lt my').
      assert (2 ^ Zpos (digits2_pos mx') ≤ 2 ^ (B - ez))
        by (apply Z.pow_le_mono_r; lia).
      assert (2 ^ Zpos (digits2_pos my') ≤ 2 ^ (B - ez))
        by (apply Z.pow_le_mono_r; lia).
      replace (B + 1 - ez) with (Z.succ (B - ez)) by lia.
      rewrite Z.pow_succ_r by lia.
      subst z. destruct sx, sy; simpl; lia. }
    destruct z as [|m|m]; simpl; [done|..];
      apply (sf_bounded_finite (B + 1 + 1));
      apply binary_round_bounded; simpl in Hz; lia.
Qed.

End FloatMagnitude.

Lemma score_plan_not_nan (covered missing : gset string)
    (subs_used : gmap string string) :
  not_nan (_score_plan covered missing subs_used).
Proof.
  unfold not_nan, _score_plan, float_of_len.
  rewrite !FloatAxioms.sub_spec, !FloatAxioms.mul_spec.
  apply SF64sub_not_nan.
  - apply (SF64sub_finite _ _ 66%Z); [| |lia..].
    + pose proof (of_uint63_bounded
                    (Uint63.of_Z (Z.of_nat (size covered)))) as H.
      destruct (Prim2SF _); simpl in *; try done. lia.
    + apply (SF64mul_bounded _ _ 1%Z 64%Z); [|apply of_uint63_bounded|lia..].
      vm_compute. by intros [=].
  - apply SF64mul_not_nan; [|apply of_uint63_finite]. vm_compute. exact I.
Qed.

(** ** The search is exhaustive *)

Section SearchOptimality.
Variable req : SuggestionRequest.

(** From [st] to [st']: the best score stays a number and does not fall
    below what it was not below. *)
#[local] Abbreviation improves st st' :=
  (not_nan (best_plan_score st) →
   not_nan (best_plan_score st') ∧
   ∀ s, not_nan s → PrimFloat.ltb (best_plan_score st) s = false →
        PrimFloat.ltb (best_plan_score st') s = false).

Lemma ltb_irrefl x : not_nan x → (x <? x)%float = false.
Proof.
  intros Hx. apply not_true_iff_false.
  rewrite ltb_lex by done. unfold lex_lt. lia.
Qed.

Lemma ltb_raise a b c :
  not_nan a → not_nan b → not_nan c →
  (a <? c)%float = false → (a <? b)%float = true → (b <? c)%float = false.
Proof.
  intros Ha Hb Hc. rewrite <- !not_true_iff_false.
  rewrite !ltb_lex by done. unfold lex_lt. lia.
Qed.

Lemma plan_score_not_nan chosen : not_nan (plan_score chosen).
Proof. apply score_plan_not_nan. Qed.

Lemma evaluate_improves chosen st : improves st (evaluate req chosen st).
Proof.
  intros Hst. unfold evaluate. case_decide; [|done].
  fold (plan_score chosen).
  destruct (best_plan_score st <? plan_score chosen)%float eqn:Hlt; [|done].
  simpl. split; [apply plan_score_not_nan|].
  intros s Hs Hdom.
  by apply (ltb_raise (best_plan_score st)); [|apply plan_score_not_nan|..].
Qed.

Lemma evaluate_reaches chosen st :
  not_nan (best_plan_score st) →
  (Z.of_nat (size (plan_missing chosen)) ≤ max_missing req)%Z →
  (best_plan_score (evaluate req chosen st) <? plan_score chosen)%float
  = false.
Proof.
  intros Hst Hm. unfold evaluate. rewrite decide_True by done.
  fold (plan_score chosen).
  destruct (best_plan_score st <? plan_score chosen)%float eqn:Hlt; [|done].
  simpl. apply ltb_irrefl, plan_score_not_nan.
Qed.

Lemma backtrack_loop_improves cands chosen used st :
  improves st (backtrack_loop req cands chosen used st).
Proof.
  revert chosen used st.
  induction cands as [|c rest IH]; intros chosen used st Hst; [done|].
  simpl.
  set (st' := if decide (max_missing req < _)%Z then st else _).
  assert (not_nan (best_plan_score st') ∧
          ∀ s, not_nan s → (best_plan_score st <? s)%float = false →
               (best_plan_score st' <? s)%float = false) as [Hst' Hmono].
  { subst st'. case_decide; [done|]. unfold backtrack_body.
    case_decide; [done|].
    destruct (evaluate_improves (chosen ++ [c]) st Hst) as [Hev1 Hev1m].
    case_decide; [done|].
    destruct (IH (chosen ++ [c])
                (used ∪ list_to_set (covered (cand_details c))) _ Hev1)
      as [Hlp2 Hlp2m].
    split; [done|]. intros s Hs Hdom. by apply Hlp2m, Hev1m. }
  destruct (IH chosen used st' Hst') as [Hlp3 Hlp3m].
  split; [done|]. intros s Hs Hdom. by apply Hlp3m, Hmono.
Qed.

Lemma plan_missing_app chosen w :
  plan_missing (chosen ++ w) = plan_missing chosen ∪ plan_missing w.
Proof.
  apply set_eq. intros k.
  rewrite elem_of_union, !elem_of_plan_missing, bind_app, elem_of_app. done.
Qed.

(** Every plan that extends [chosen] by later candidates within the size
    and the budget is visited by the loop. *)
Lemma backtrack_loop_complete cands chosen used st w :
  not_nan (best_plan_score st) → w ≠ [] → w `sublist_of` cands →
  (Z.of_nat (length (chosen ++ w)) ≤ plan_size req)%Z →
  (Z.of_nat (size (plan_missing (chosen ++ w))) ≤ max_missing req)%Z →
  (best_plan_score (backtrack_loop req cands chosen used st)
   <? plan_score (chosen ++ w))%float = false.
Proof.
  revert chosen used st w.
  induction cands as [|c rest IH]; intros chosen used st w Hst Hw Hsub Hlen Hm.
  { apply sublist_nil_r in Hsub. done. }
  simpl.
  set (st' := if decide (max_missing req < _)%Z then st else _).
  assert (improves st st') as Himp.
  { intros _. subst st'. case_decide; [done|]. unfold backtrack_body.
    case_decide; [done|].
    destruct (evaluate_improves (chosen ++ [c]) st Hst) as [Hev1 Hev1m].
    case_decide; [done|].
    destruct (backtrack_loop_improves rest (chosen ++ [c])
                (used ∪ list_to_set (covered (cand_details c))) _ Hev1)
      as [Hlp2 Hlp2m].
    split; [done|]. intros s Hs Hdom. by apply Hlp2m, Hev1m. }
  destruct (Himp Hst) as [Hst' _]. clear Himp.
  apply sublist_cons_r in Hsub as [Hsub|(w' & -> & Hsub)].
  { by apply IH. }
  apply (backtrack_loop_improves rest chosen used st' Hst');
    [apply plan_score_not_nan|].
  subst st'. clear Hst'. rewrite decide_False; last first.
  { assert (size (list_to_set (C := gset string)
                    (missing (cand_details c)) ∖ used)
            ≤ size (plan_missing (chosen ++ c :: w')))%nat; [|lia].
    apply subseteq_size. intros k [Hk _]%elem_of_difference.
    apply elem_of_list_to_set in Hk.
    rewrite plan_missing_app, elem_of_union. right.
    apply elem_of_plan_missing. rewrite bind_cons, elem_of_app. by left. }
  unfold backtrack_body.
  assert (length (chosen ++ c :: w')
          = length (chosen ++ [c]) + length w')%nat as Hlen'.
  { rewrite !length_app. simpl. lia. }
  rewrite decide_False by lia.
  destruct (evaluate_improves (chosen ++ [c]) st Hst) as [Hev1 Hev1m].
  destruct w' as [|c' w'].
  - assert ((best_plan_score (evaluate req (chosen ++ [c]) st)
             <? plan_score (chosen ++ [c]))%float = false) as Hev.
    { by apply evaluate_reaches. }
    case_decide; [done|].
    by apply backtrack_loop_improves; [|apply plan_score_not_nan|].
  - rewrite decide_False by (simpl in Hlen'; lia).
    replace (chosen ++ c :: c' :: w') with ((chosen ++ [c]) ++ c' :: w')
      in * by (by rewrite <- (assoc_L (++))).
    by apply IH.
Qed.

End SearchOptimality.

(** The best score is a number, and no qualifying plan scores above it. *)
Lemma plan_search_dominates (req : SuggestionRequest)
    (top : list Candidate) :
  not_nan (best_plan_score (plan_search req top)) ∧
  ∀ w, qualifying req top w →
       (best_plan_score (plan_search req top) <? plan_score w)%float = false.
Proof.
  assert (not_nan (best_plan_score initial_state)) as Hinit.
  { vm_compute. by intros [=]. }
  rewrite plan_search_unfold. case_decide as Hp.
  { split; [done|]. intros w (_ & Hlen & _). lia. }
  simpl.
  destruct (evaluate_improves req [] initial_state Hinit) as [Hev1 Hev1m].
  assert (∀ w, qualifying req top w →
            (best_plan_score (evaluate req [] initial_state)
             <? plan_score [])%float = false) as Hroot.
  { intros w (_ & _ & Hm). apply evaluate_reaches; [done|].
    change (plan_missing []) with (∅ : gset string).
    rewrite size_empty. lia. }
  case_decide as Hz.
  - split; [done|]. intros w Hw. pose proof Hw as (_ & Hlen & _).
    destruct w as [|c w]; [by apply (Hroot [])|]. simpl in Hlen. lia.
  - destruct (backtrack_loop_improves req top [] ∅ _ Hev1) as [Hlp Hlpm].
    split; [done|]. intros w Hw. pose proof Hw as (Hsub & Hlen & Hm).
    destruct w as [|c w].
    + apply Hlpm; [apply plan_score_not_nan|]. by apply (Hroot []).
    + by apply (backtrack_loop_complete req top [] ∅ _ (c :: w)).
Qed.

(** X16: the backtracking search is exhaustive and keeps the best: the
    recorded best score is not below the score of any qualifying plan (at
    most [plan_size] shortlist recipes in shortlist order whose aggregated
    missing set is within [max_missing]), and a recorded non-empty plan is
    itself such a plan, with that score; the score is never NaN. *)
Theorem best_plan_is_optimal (req : SuggestionRequest)
    (top : list Candidate) :
  let st := plan_search req top in
  not_nan (best_plan_score st) ∧
  (∀ w, qualifying req top w →
        (plan_score w <=? best_plan_score st)%float = true) ∧
  (best_plan st ≠ [] →
   ∃ chosen, qualifying req top chosen ∧
             best_plan st = cand_id <$> chosen ∧
             best_plan_score st = plan_score chosen).
Proof.
  intros st. subst st.
  destruct (plan_search_dominates req top) as [Hnan Hbest].
  split_and!; [done| |].
  - intros w Hw. apply leb_lex; [apply plan_score_not_nan|done|].
    specialize (Hbest w Hw). apply not_true_iff_false in Hbest.
    by rewrite ltb_lex in Hbest by (done || apply plan_score_not_nan).
  - intros Hne.
    destruct (plan_search_inv req top)
      as [(? & _)|(chosen & _ & _ & Hq & Hp & _ & Hs & _)]; [done|].
    by exists chosen.
Qed.

(** ** [list.sort] is stable *)

Lemma filter_none {A} (P : A → Prop) `{!∀ x, Decision (P x)} (l : list A) :
  Forall (λ z, ¬ P z) l → filter P l = [].
Proof.
  induction 1 as [|z l Hz _ IH]; [done|]. by rewrite filter_cons_False.
Qed.

Lemma filter_fmap_snd {K A} (Q : A → Prop) `{!∀ x, Decision (Q x)}
    (l : list (K * A)) :
  filter Q l.*2 = (filter (λ p, Q p.2) l).*2.
Proof.
  induction l as [|p l IH]; [done|]. rewrite fmap_cons.
  destruct (decide (Q p.2)).
  - rewrite !filter_cons_True by done. rewrite fmap_cons. by f_equal.
  - by rewrite !filter_cons_False by done.
Qed.

Lemma filter_agree {A} (P Q : A → Prop) `{!∀ x, Decision (P x)}
    `{!∀ x, Decision (Q x)} (l : list A) :
  Forall (λ x, P x ↔ Q x) l → filter P l = filter Q l.
Proof.
  induction 1 as [|x l Hx _ IH]; [done|].
  destruct (decide (P x)) as [HP|HP].
  - rewrite !filter_cons_True by tauto. by f_equal.
  - by rewrite !filter_cons_False by tauto.
Qed.

Section SortStable.
Context {K A : Type} (lt : K → K → bool) (ok : K → Prop).
Context (good : K * A → Prop).
Context (P : K * A → Prop) `{!∀ x, Decision (P x)}.
Hypothesis lt_asym : ∀ x y, ok x → ok y → lt x y = true → lt y x = false.
Hypothesis le_trans :
  ∀ x y z, ok x → ok y → ok z →
           lt y x = false → lt z y = false → lt z x = false.
Hypothesis tie : ∀ x y, good x → good y → P x → P y → lt x.1 y.1 = false.

#[local] Abbreviation key_le := (λ a b : K * A, lt b.1 a.1 = false).
#[local] Abbreviation fine := (λ a : K * A, ok a.1 ∧ good a).

(** An element is inserted behind the elements of its own class. *)
Lemma insert_by_filter (x : K * A) l :
  fine x → Forall fine l → StronglySorted key_le l →
  filter P (insert_by lt x l)
  = if decide (P x) then filter P l ++ [x] else filter P l.
Proof.
  intros [Hx Hgx]. induction l as [|y l IH]; intros Hfine Hsorted.
  { simpl. case_decide; [by rewrite filter_cons_True|].
    by rewrite filter_cons_False. }
  apply Forall_cons in Hfine as [[Hy Hgy] Hfine].
  apply StronglySorted_inv in Hsorted as [Hsorted Hall].
  simpl. destruct (lt x.1 y.1) eqn:Hlt.
  - destruct (decide (P x)) as [HPx|HPx]; [|by rewrite filter_cons_False].
    rewrite filter_cons_True by done.
    rewrite (filter_none P (y :: l)); [done|].
    constructor.
    + intros HPy. by rewrite (tie x y) in Hlt.
    + rewrite Forall_forall in Hall, Hfine. apply Forall_forall.
      intros z Hz HPz. destruct (Hfine z Hz) as [Hokz Hgz].
      assert (lt x.1 y.1 = false); [|congruence].
      apply (le_trans y.1 z.1 x.1); auto.
  - specialize (IH Hfine Hsorted).
    destruct (decide (P y)).
    + rewrite !filter_cons_True by done. rewrite IH. by case_decide.
    + rewrite !filter_cons_False by done. done.
Qed.

Lemma sort_keyed_stable (l : list (K * A)) :
  Forall fine l → filter P (sort_keyed lt l) = filter P l.
Proof.
  unfold sort_keyed.
  assert (∀ acc, Forall fine acc → StronglySorted key_le acc →
                 Forall fine l →
                 filter P (foldl (λ acc x, insert_by lt x acc) acc l)
                 = filter P acc ++ filter P l) as Hfold.
  { induction l as [|x l IH]; intros acc Hacc Hsorted Hl; cbn [foldl].
    - by rewrite filter_nil, (right_id_L [] (++)).
    - apply Forall_cons in Hl as [Hx Hl]. rewrite IH; [| | |done].
      + rewrite insert_by_filter by done.
        destruct (decide (P x)).
        * rewrite filter_cons_True by done. by rewrite <- (assoc_L (++)).
        * by rewrite filter_cons_False.
      + rewrite insert_by_Permutation. by constructor.
      + apply (insert_by_sorted lt ok); [done..|by destruct Hx| |done].
        eapply Forall_impl; [exact Hacc|]. by intros ? [? _]. }
  intros Hl. rewrite Hfold; [done|constructor|constructor|done].
Qed.
End SortStable.

Lemma eqb_not_nan x y : (x =? y)%float = true → not_nan x ∧ not_nan y.
Proof.
  rewrite FloatAxioms.eqb_spec. unfold SFeqb, not_nan.
  by destruct (Prim2SF x), (Prim2SF y).
Qed.

(** Two scores equal to a third by [==] are not ordered by [<] after
    negation. *)
Lemma opp_tie a b s :
  (a =? s)%float = true → (b =? s)%float = true →
  ¬ lex_lt (float_key (- a)%float) (float_key (- b)%float).
Proof.
  intros Ha Hb. destruct (eqb_not_nan _ _ Ha) as [Hna Hns].
  destruct (eqb_not_nan _ _ Hb) as [Hnb _].
  apply eqb_lex in Ha; [|done..]. apply eqb_lex in Hb; [|done..].
  rewrite opp_lex. unfold lex_lt, lex_eq in *. lia.
Qed.

(** X17: the ranking of the candidates is stable: candidates that the sort
    key does not separate (the same ingredient count and [==] scores when
    [prioritize_min_missing] is set, [==] scores otherwise) stand in the
    ranked list in the order of the greedy loop, which is the order of the
    catalog. *)
Theorem ranking_is_stable (self : FlavorGraphEngine)
    (req : SuggestionRequest) :
  ∃ ranked,
    sort_candidates self req (greedy_scores self req) = Some ranked ∧
    top_candidates self req
    = Some (slice_to (Z.max 25 (max_suggestions req * 3)) ranked) ∧
    greedy_scores self req
    = candidate_of self req <$> filter (within_missing self req) (recipes self)
    ∧
    ∀ s,
      if prioritize_min_missing req then
        ∀ n, filter (λ c, ingredient_count self c = n ∧
                          (cand_score c =? s)%float = true) ranked
             = filter (λ c, ingredient_count self c = n ∧
                            (cand_score c =? s)%float = true)
                      (greedy_scores self req)
      else
        filter (λ c, (cand_score c =? s)%float = true) ranked
        = filter (λ c, (cand_score c =? s)%float = true)
                 (greedy_scores self req).
Proof.
  destruct (sort_candidates_Permutation self req) as (ranked & Hsort & _).
  exists ranked. split_and!; [done| |apply greedy_scores_filter|].
  { unfold top_candidates. by rewrite Hsort. }
  intros s. revert Hsort. unfold sort_candidates.
  destruct (prioritize_min_missing req).
  - destruct (mapM _ _) as [keys|] eqn:Hkeys; [|done]. simpl.
    intros [= <-] n.
    rewrite filter_fmap_snd.
    rewrite (sort_keyed_stable tuple_lt (λ k, not_nan k.2)
               (λ p, count_key self p.2 = Some p.1 ∧
                     not_nan (cand_score p.2))).
    + pose proof (filter_fmap_snd
                    (λ c, ingredient_count self c = n ∧
                          (cand_score c =? s)%float = true)
                    (zip keys (greedy_scores self req))) as Hf.
      etrans; [symmetry; exact Hf|].
      rewrite snd_zip; [done|].
      apply length_mapM in Hkeys. lia.
    + intros x y. apply tuple_lt_asym.
    + intros x y z. apply tuple_lt_le_trans.
    + intros [kx x] [ky y] [Hkx Hnx] [Hky Hny] [Hcx Hsx] [Hcy Hsy].
      simpl in *.
      apply count_key_count in Hkx as [Hx1 Hx2], Hky as [Hy1 Hy2].
      apply not_true_iff_false.
      rewrite tuple_lt_lex by (rewrite ?Hx2, ?Hy2; by apply opp_not_nan).
      rewrite Hx1, Hy1, Hx2, Hy2.
      intros [?|[_ Hlex]]; [lia|]. by apply (opp_tie _ _ s) in Hlex.
    + apply mapM_Some in Hkeys.
      apply (Forall2_zip_Forall (λ c k, count_key self c = Some k)) in Hkeys.
      rewrite Forall_forall in Hkeys. apply Forall_forall.
      intros [k c] Hkc.
      assert (not_nan (cand_score c)) as Hc.
      { apply (greedy_score_not_nan self req).
        apply (elem_of_zip_r _ _ _ _ Hkc). }
      pose proof (Hkeys _ Hkc) as Hk. simpl in *.
      split_and!; [|done..].
      apply count_key_count in Hk as [_ ->]. by apply opp_not_nan.
  - intros [= <-].
    rewrite filter_fmap_snd.
    rewrite (sort_keyed_stable PrimFloat.ltb not_nan
               (λ p, p.1 = (- cand_score p.2)%float ∧
                     not_nan (cand_score p.2))).
    + pose proof (filter_fmap_snd
                    (λ c, (cand_score c =? s)%float = true)
                    ((λ x, ((- cand_score x)%float, x))
                       <$> greedy_scores self req)) as Hf.
      etrans; [symmetry; exact Hf|].
      rewrite <- list_fmap_compose.
      by rewrite list_fmap_id.
    + apply ltb_asym.
    + apply ltb_le_trans.
    + intros [kx x] [ky y] [Hkx Hnx] [Hky Hny] Hsx Hsy. simpl in *.
      subst kx ky. apply not_true_iff_false.
      rewrite ltb_lex by (by apply opp_not_nan).
      by apply (opp_tie _ _ s).
    + apply Forall_fmap, Forall_forall. intros c Hc. simpl.
      pose proof (greedy_score_not_nan self req c Hc).
      split_and!; [by apply opp_not_nan|done..].
Qed.

(** ** When the search records a plan *)

(** X18: the search records a non-empty plan exactly when some qualifying
    non-empty plan scores strictly above 0; the response is then that plan,
    cut to [max_suggestions], and its score is above 0; otherwise the
    response is the fallback. *)
Theorem search_records_iff (self : FlavorGraphEngine)
    (req : SuggestionRequest) :
  ∃ top resp,
    top_candidates self req = Some top ∧
    suggest_recipes self req = Some resp ∧
    let st := plan_search req top in
    (best_plan st ≠ [] ↔
     ∃ w, w ≠ [] ∧ qualifying req top w ∧
          (0 <? plan_score w)%float = true) ∧
    (best_plan st ≠ [] →
     sg_id <$> suggestions resp
     = slice_to (max_suggestions req) (best_plan st) ∧
     (0 <? best_plan_score st)%float = true) ∧
    (best_plan st = [] →
     sg_id <$> suggestions resp
     = slice_to (max_suggestions req)
         (cand_id <$> slice_to (max_suggestions req) top)).
Proof.
  destruct (suggest_recipes_total self req)
    as (top & resp & Htop & _ & _ & Hresp & Hids & _).
  exists top, resp. split; [done|]. split; [done|]. intros st. subst st.
  assert (not_nan 0%float) as Hzero by (vm_compute; by intros [=]).
  destruct (plan_search_dominates req top) as [Hnan Hbest].
  assert (∀ w, qualifying req top w → (0 <? plan_score w)%float = true →
               (0 <? best_plan_score (plan_search req top))%float = true)
    as Habove.
  { intros w Hw Hs. specialize (Hbest w Hw).
    apply not_true_iff_false in Hbest. revert Hs Hbest.
    rewrite !ltb_lex by (done || apply plan_score_not_nan).
    unfold lex_lt. lia. }
  assert ((∃ w, w ≠ [] ∧ qualifying req top w ∧
                (0 <? plan_score w)%float = true) →
          best_plan (plan_search req top) ≠ []) as Hrec.
  { intros (w & _ & Hw & Hs) Hnil. specialize (Habove w Hw Hs).
    destruct (plan_search_inv req top)
      as [(_ & _ & [[Hsc _]|Hsc])|(chosen & _ & Hne & _ & Hp & _)].
    - rewrite Hsc in Habove. by vm_compute in Habove.
    - rewrite Hsc in Habove. by vm_compute in Habove.
    - rewrite Hnil in Hp. symmetry in Hp.
      apply fmap_nil_inv in Hp. done. }
  split_and!.
  - split; [apply best_plan_beats_empty|exact Hrec].
  - intros Hne. split.
    + rewrite Hids. unfold final_plan. by rewrite decide_False.
    + destruct (best_plan_beats_empty req top Hne) as (w & _ & Hw & Hs).
      by apply (Habove w).
  - intros Hnil. rewrite Hids. unfold final_plan. by rewrite decide_True.
Qed.

(** ** The greedy loop and the budget *)

(** X19: raising [max_missing], all else equal, never removes a candidate
    of the greedy loop: the candidates for the smaller budget are, in order,
    among the candidates for the larger one, with the same score and
    details. *)
Theorem greedy_scores_monotone (self : FlavorGraphEngine)
    (req req' : SuggestionRequest)
    (Havail : available_ingredients req' = available_ingredients req)
    (Hallow : allow_substitutions req' = allow_substitutions req)
    (Hbudget : (max_missing req ≤ max_missing req')%Z) :
  greedy_scores self req `sublist_of` greedy_scores self req'.
Proof.
  rewrite !greedy_scores_filter.
  assert (∀ item, candidate_of self req' item = candidate_of self req item)
    as Hcand.
  { intros item. unfold candidate_of. by rewrite Havail, Hallow. }
  induction (recipes self) as [|item l IH]; [done|].
  destruct (decide (within_missing self req item)) as [Hin|Hout].
  - assert (within_missing self req' item) as Hin'.
    { unfold within_missing in *. rewrite Havail, Hallow. lia. }
    rewrite !filter_cons_True by done. rewrite !fmap_cons, Hcand.
    by apply sublist_skip.
  - rewrite (filter_cons_False (within_missing self req)) by done.
    destruct (decide (within_missing self req' item)).
    + rewrite filter_cons_True by done. rewrite fmap_cons.
      by apply sublist_cons.
    + by rewrite filter_cons_False.
Qed.

Lemma greedy_scores_monotone_example :
  (max_missing Examples.request_eggs_only
   ≤ max_missing Examples.request_eggs_two)%Z ∧
  greedy_scores Examples.engine Examples.request_eggs_only
  `sublist_of` greedy_scores Examples.engine Examples.request_eggs_two.
Proof.
  assert (max_missing Examples.request_eggs_only
          ≤ max_missing Examples.request_eggs_two)%Z as H by (simpl; lia).
  split; [exact H|].
  exact (greedy_scores_monotone Examples.engine Examples.request_eggs_only
           Examples.request_eggs_two eq_refl eq_refl H).
Defined.

(** ** The two scorers *)

Section ScoreSigns.
#[local] Open Scope Z_scope.

Lemma binary_round_aux_sign sx mx ex lx :
  match binary_round_aux prec emax sx mx ex lx with
  | S754_zero s | S754_finite s _ _ | S754_infinity s => s = sx
  | S754_nan => True
  end.
Proof.
  unfold binary_round_aux.
  destruct (shr_fexp prec emax mx ex lx) as [mrs' e'].
  destruct (shr_fexp prec emax _ e' loc_Exact) as [mrs'' e''].
  destruct (shr_m mrs'') as [|p|p]; [done| |done].
  by destruct (e'' <=? emax - prec).
Qed.

Lemma of_uint63_nonneg u : sf_nonneg (Prim2SF (of_uint63 u)).
Proof.
  pose proof (of_uint63_finite u) as Hfin. revert Hfin.
  rewrite FloatAxioms.of_uint63_spec.
  pose proof (Uint63.to_Z_bounded u) as [Hlo Hhi].
  destruct (Uint63.to_Z u) as [|m|m]; [done| |lia]. simpl.
  unfold binary_round. destruct (shl_align _ _ _) as [mz ez].
  pose proof (binary_round_aux_sign false (Zpos mz) ez loc_Exact) as Hs.
  by destruct (binary_round_aux _ _ _ _ _ _).
Qed.

Lemma SF64mul_nonneg x y B :
  sf_nonneg x → sf_nonneg y → sf_bounded B (SF64mul x y) →
  sf_nonneg (SF64mul x y).
Proof.
  destruct x as [sx|sx| |sx mx ex], y as [sy|sy| |sy my ey]; try done;
    simpl; intros -> ->; [done..|].
  pose proof (binary_round_aux_sign (xorb false false) (Zpos (mx * my))
                (ex + ey) loc_Exact) as Hs.
  by destruct (binary_round_aux _ _ _ _ _ _).
Qed.

Lemma SF64add_zero_l y : sf_nonneg y → SF64add (S754_zero false) y = y.
Proof. destruct y as [sy|sy| |sy my ey]; try done. by intros ->. Qed.

Lemma SF64sub_zero_r x : sf_nonneg x → SF64sub x (S754_zero false) = x.
Proof. destruct x as [sx|sx| |sx mx ex]; try done. by intros ->. Qed.

End ScoreSigns.

Lemma score_plan_without_missing (covered : gset string)
    (subs_used : gmap string string) :
  _score_plan covered ∅ subs_used = _score_recipe covered ∅ subs_used.
Proof.
  apply Prim2SF_inj. unfold _score_plan, _score_recipe.
  rewrite !FloatAxioms.sub_spec, FloatAxioms.add_spec, !FloatAxioms.mul_spec.
  rewrite size_empty.
  change (Prim2SF (float_of_len 0)) with (S754_zero false).
  change (SF64mul (Prim2SF 1.5) (S754_zero false)) with (S754_zero false).
  rewrite SF64sub_zero_r by apply of_uint63_nonneg.
  rewrite SF64add_zero_l; [done|].
  apply (SF64mul_nonneg _ _ (-2 + 64 + 1)%Z);
    [by vm_compute|apply of_uint63_nonneg|].
  apply SF64mul_bounded; [|apply of_uint63_bounded|lia..].
  vm_compute. by intros [=].
Qed.

(** X20: for a recipe with nothing missing the two scorers agree: the plan
    score of a coverage without missing names is its single-recipe score,
    and a candidate of the greedy loop that misses nothing has, taken alone
    as a plan, the plan score that is its candidate score. *)
Theorem scores_agree_without_missing (self : FlavorGraphEngine)
    (req : SuggestionRequest) :
  (∀ (covered : gset string) (subs_used : gmap string string),
     _score_plan covered ∅ subs_used = _score_recipe covered ∅ subs_used) ∧
  (∀ c, c ∈ greedy_scores self req → missing (cand_details c) = [] →
        plan_score [c] = cand_score c).
Proof.
  split; [apply score_plan_without_missing|].
  intros c (item & _ & _ & ->)%elem_of_greedy_scores Hmiss.
  unfold candidate_of in *. simpl in Hmiss.
  set (cov := _compute_missing_and_subs self item.2
                (normalized_set (available_ingredients req))
                (allow_substitutions req)) in *.
  assert (cov_missing cov = ∅) as Hempty.
  { rewrite <- (list_to_set_sorted (cov_missing cov)), Hmiss. done. }
  unfold plan_score, plan_covered, plan_missing, plan_subs, cand_score,
    cand_details. simpl.
  rewrite Hmiss, !list_to_set_sorted. simpl.
  rewrite !(left_id_L ∅ (∪)), (right_id_L ∅ (∪)), Hempty.
  apply score_plan_without_missing.
Qed.

(** ** The availability list is read as a set *)

Section SameAvailability.
Variable self : FlavorGraphEngine.
Variables req req' : SuggestionRequest.
Hypothesis Havail :
  normalized_set (available_ingredients req')
  = normalized_set (available_ingredients req).
Hypothesis Hmissing : max_missing req' = max_missing req.
Hypothesis Hallow : allow_substitutions req' = allow_substitutions req.
Hypothesis Hsuggestions : max_suggestions req' = max_suggestions req.
Hypothesis Hsize : plan_size req' = plan_size req.
Hypothesis Hprioritize :
  prioritize_min_missing req' = prioritize_min_missing req.

Lemma greedy_scores_same : greedy_scores self req' = greedy_scores self req.
Proof.
  unfold greedy_scores, greedy_entry. by rewrite Havail, Hmissing, Hallow.
Qed.

Lemma top_candidates_same : top_candidates self req' = top_candidates self req.
Proof.
  unfold top_candidates, sort_candidates.
  by rewrite greedy_scores_same, Hprioritize, Hsuggestions.
Qed.

Lemma evaluate_same chosen st : evaluate req' chosen st = evaluate req chosen st.
Proof. unfold evaluate. by rewrite Hmissing. Qed.

Lemma backtrack_loop_same cands chosen used st :
  backtrack_loop req' cands chosen used st
  = backtrack_loop req cands chosen used st.
Proof.
  revert chosen used st.
  induction cands as [|c rest IH]; intros chosen used st; [done|].
  simpl. rewrite Hmissing. unfold backtrack_body.
  rewrite Hsize, evaluate_same, !IH. done.
Qed.

Lemma plan_search_same top : plan_search req' top = plan_search req top.
Proof.
  rewrite !plan_search_unfold, Hsize, evaluate_same. simpl.
  by rewrite backtrack_loop_same.
Qed.

End SameAvailability.

(** X21: [suggest_recipes] and [analyze_gaps] read the availability list as
    the set of its normalized names: two lists that normalize to the same
    set (another order, repetitions, another case, surrounding whitespace)
    give the same response and the same gap analysis. *)
Theorem availability_is_a_set (self : FlavorGraphEngine)
    (req req' : SuggestionRequest) (recipe_ids : list string)
    (Havail : normalized_set (available_ingredients req')
              = normalized_set (available_ingredients req))
    (Hmissing : max_missing req' = max_missing req)
    (Hallow : allow_substitutions req' = allow_substitutions req)
    (Hsuggestions : max_suggestions req' = max_suggestions req)
    (Hsize : plan_size req' = plan_size req)
    (Hprioritize : prioritize_min_missing req' = prioritize_min_missing req) :
  suggest_recipes self req' = suggest_recipes self req ∧
  analyze_gaps self recipe_ids (available_ingredients req')
  = analyze_gaps self recipe_ids (available_ingredients req).
Proof.
  split.
  - unfold suggest_recipes.
    rewrite (top_candidates_same self req req') by done.
    destruct (top_candidates self req) as [top|]; [|done]. simpl.
    unfold final_plan.
    rewrite (plan_search_same req req') by done.
    by rewrite Hsuggestions, Hsize, Hmissing.
  - unfold analyze_gaps. by rewrite Havail.
Qed.

Lemma availability_is_a_set_example :
  normalized_set (available_ingredients Examples.request_respelled)
  = normalized_set (available_ingredients Examples.request) ∧
  suggest_recipes Examples.engine Examples.request_respelled
  = suggest_recipes Examples.engine Examples.request ∧
  analyze_gaps Examples.engine ["R1"; "R2"]
    (available_ingredients Examples.request_respelled)
  = analyze_gaps Examples.engine ["R1"; "R2"]
      (available_ingredients Examples.request).
Proof.
  assert (normalized_set (available_ingredients Examples.request_respelled)
          = normalized_set (available_ingredients Examples.request)) as H
    by by_evaluation.
  split; [exact H|].
  exact (availability_is_a_set Examples.engine Examples.request
           Examples.request_respelled ["R1"; "R2"]
           H eq_refl eq_refl eq_refl eq_refl eq_refl).
Defined.

(** ** The resolver at the extremes *)

(** X22: with nothing available every normalized ingredient of the recipe
    is missing and nothing is covered or substituted; when every normalized
    ingredient is available, nothing is missing, all of them are covered
    and no substitution is recorded, whatever the table offers. *)
Theorem coverage_extremes (self : FlavorGraphEngine) (recipe : Recipe)
    (allow_subs : bool) :
  (let cov := _compute_missing_and_subs self recipe ∅ allow_subs in
   cov_missing cov = normalized_set (ingredients recipe) ∧
   cov_covered cov = ∅ ∧ cov_subs cov = ∅) ∧
  (∀ available, normalized_set (ingredients recipe) ⊆ available →
     let cov := _compute_missing_and_subs self recipe available allow_subs in
     cov_missing cov = ∅ ∧
     cov_covered cov = normalized_set (ingredients recipe) ∧
     cov_subs cov = ∅).
Proof.
  assert (∀ k, substitute_for self ∅ allow_subs k = None) as Hnone.
  { intros k. unfold substitute_for. rewrite decide_False by set_solver.
    destruct allow_subs; [|done]. apply first_available_None. set_solver. }
  split.
  - simpl. split_and!.
    + apply set_eq. intros k. rewrite resolve_missing, Hnone.
      unfold normalized_set. rewrite elem_of_list_to_set. set_solver.
    + apply set_eq. intros k. rewrite resolve_covered, Hnone.
      split; [|set_solver]. intros (_ & [?|[? ?]]); [set_solver|done].
    + apply map_eq. intros k. rewrite resolve_subs, Hnone, lookup_empty.
      by case_decide.
  - intros available Hall. simpl.
    assert (∀ k, k ∈ normalize <$> ingredients recipe → k ∈ available)
      as Hin.
    { intros k Hk. apply Hall. unfold normalized_set.
      by apply elem_of_list_to_set. }
    split_and!.
    + apply set_eq. intros k. rewrite resolve_missing.
      split; [|set_solver]. intros (Hk & Hnot & _). by apply Hin in Hk.
    + apply set_eq. intros k. rewrite resolve_covered.
      unfold normalized_set. rewrite elem_of_list_to_set.
      split; [by intros [? _]|]. intros Hk. split; [done|]. left. auto.
    + apply map_eq. intros k. rewrite resolve_subs, lookup_empty.
      case_decide as Hk; [|done]. unfold substitute_for.
      rewrite decide_True; [done|auto].
Qed.

(** ** Plan search with [plan_size = 1]: the recipe returned *)

Section PlanSizeOne.
Variable req : SuggestionRequest.
Hypothesis Hsize : plan_size req = 1%Z.

Lemma ltb_below a b c :
  not_nan a → not_nan b → not_nan c →
  (a <? b)%float = false → (a <? c)%float = true → (b <? c)%float = true.
Proof.
  intros Ha Hb Hc. rewrite <- not_true_iff_false.
  rewrite !ltb_lex by done. unfold lex_lt. lia.
Qed.

Lemma ltb_trans a b c :
  not_nan a → not_nan b → not_nan c →
  (a <? b)%float = true → (b <? c)%float = true → (a <? c)%float = true.
Proof.
  intros Ha Hb Hc. rewrite !ltb_lex by done. unfold lex_lt. lia.
Qed.

Lemma leb_ltb_trans a b c :
  not_nan a → not_nan b → not_nan c →
  (a <=? b)%float = true → (b <? c)%float = true → (a <? c)%float = true.
Proof.
  intros Ha Hb Hc. rewrite leb_lex, !ltb_lex by done. unfold lex_lt. lia.
Qed.

Lemma not_ltb_leb a b :
  not_nan a → not_nan b → (a <? b)%float = false → (b <=? a)%float = true.
Proof.
  intros Ha Hb. rewrite <- not_true_iff_false.
  by rewrite leb_lex, ltb_lex by done.
Qed.

(** Evaluating a plan of one recipe that is within the budget. *)
Lemma evaluate_singleton c st :
  (Z.of_nat (size (plan_missing [c])) ≤ max_missing req)%Z →
  evaluate req [c] st
  = if (best_plan_score st <? plan_score [c])%float
    then {| best_plan := [cand_id c]; best_plan_score := plan_score [c];
            best_plan_details := details_dict [c] |}
    else st.
Proof. intros Hm. unfold evaluate. by rewrite decide_True. Qed.

(** With [plan_size = 1] the loop evaluates the candidates one by one. *)
Lemma backtrack_loop_singletons cands st :
  Forall (λ c, (Z.of_nat (length (missing (cand_details c)))
                ≤ max_missing req)%Z) cands →
  backtrack_loop req cands [] ∅ st
  = foldl (λ st c, evaluate req [c] st) st cands.
Proof.
  revert st. induction cands as [|c rest IH]; intros st Hall; [done|].
  apply Forall_cons in Hall as [Hc Hall]. simpl.
  rewrite decide_False; last first.
  { pose proof (size_list_to_set_le (missing (cand_details c))).
    assert (size (list_to_set (C := gset string)
                    (missing (cand_details c)) ∖ ∅)
            ≤ size (list_to_set (C := gset string)
                      (missing (cand_details c))))%nat
      by (apply subseteq_size; set_solver).
    lia. }
  unfold backtrack_body. simpl.
  rewrite decide_False by lia. rewrite decide_True by lia. by apply IH.
Qed.

(** The evaluations keep the first candidate of greatest score, if one
    scores above the score they start from. *)
Lemma first_best_singleton l st :
  not_nan (best_plan_score st) →
  Forall (λ c, (Z.of_nat (size (plan_missing [c])) ≤ max_missing req)%Z) l →
  (foldl (λ st c, evaluate req [c] st) st l = st ∧
   Forall (λ c', (best_plan_score st <? plan_score [c'])%float = false) l) ∨
  (∃ pre c post,
     l = pre ++ c :: post ∧
     best_plan (foldl (λ st c, evaluate req [c] st) st l) = [cand_id c] ∧
     best_plan_score (foldl (λ st c, evaluate req [c] st) st l)
     = plan_score [c] ∧
     (best_plan_score st <? plan_score [c])%float = true ∧
     Forall (λ c', (plan_score [c'] <? plan_score [c])%float = true) pre ∧
     Forall (λ c', (plan_score [c'] <=? plan_score [c])%float = true) post).
Proof.
  intros Hst. induction l as [|x l IH] using rev_ind; intros Hl.
  { left. by split. }
  apply Forall_app in Hl as [Hl Hx]. apply Forall_cons in Hx as [Hx _].
  rewrite foldl_app. cbn [foldl]. rewrite evaluate_singleton by done.
  pose proof (plan_score_not_nan [x]) as Hnx.
  destruct (IH Hl)
    as [[Heq Hall]|(pre & c & post & -> & Hplan & Hscore & Hbeat & Hpre & Hpost)].
  - rewrite Heq.
    destruct (best_plan_score st <? plan_score [x])%float eqn:Hlt.
    + right. exists l, x, []. split_and!; [done..| |constructor].
      eapply Forall_impl; [exact Hall|]. intros c' Hc'. simpl in Hc'.
      by apply (ltb_below (best_plan_score st));
        [|apply plan_score_not_nan|..].
    + left. split; [done|]. apply Forall_app. split; [done|].
      by apply Forall_singleton.
  - rewrite Hscore. pose proof (plan_score_not_nan [c]) as Hnc.
    destruct (plan_score [c] <? plan_score [x])%float eqn:Hlt.
    + right. exists (pre ++ c :: post), x, [].
      split_and!; [done..| | |constructor].
      * by apply (ltb_trans _ (plan_score [c])).
      * apply Forall_app. split; [|constructor].
        -- eapply Forall_impl; [exact Hpre|]. intros c' Hc'. simpl in Hc'.
           by apply (ltb_trans _ (plan_score [c]));
             [apply plan_score_not_nan|..].
        -- done.
        -- eapply Forall_impl; [exact Hpost|]. intros c' Hc'. simpl in Hc'.
           by apply (leb_ltb_trans _ (plan_score [c]));
             [apply plan_score_not_nan|..].
    + right. exists pre, c, (post ++ [x]).
      split_and!; [by rewrite <- (assoc_L (++))|done..|].
      apply Forall_app. split; [done|]. apply Forall_singleton.
      by apply not_ltb_leb.
Qed.

End PlanSizeOne.

(** A candidate of the greedy loop, taken alone, is within the budget. *)
Lemma singleton_within_budget (self : FlavorGraphEngine)
    (req : SuggestionRequest) (c : Candidate) :
  c ∈ greedy_scores self req →
  (Z.of_nat (size (plan_missing [c])) ≤ max_missing req)%Z.
Proof.
  intros Hc. pose proof (greedy_missing_length self req c Hc) as Hlen.
  pose proof (size_list_to_set_le (missing (cand_details c))) as Hsize.
  unfold plan_missing. simpl. rewrite (left_id_L ∅ (∪)). lia.
Qed.

(** C3, as the code has it: with [plan_size = 1], the response is the first
    [max_suggestions] entries of the shortlist only when no shortlist recipe,
    taken alone as a plan, scores above 0; otherwise it is the single
    shortlist recipe of greatest plan score, the first such recipe of the
    shortlist when several share that score, cut to [max_suggestions]. *)
Theorem plan_size_one_response (self : FlavorGraphEngine)
    (req : SuggestionRequest) (Hsize : plan_size req = 1%Z) :
  ∃ top resp,
    top_candidates self req = Some top ∧
    suggest_recipes self req = Some resp ∧
    ((∀ c, c ∈ top → (0 <? plan_score [c])%float = false) →
     sg_id <$> suggestions resp
     = slice_to (max_suggestions req)
         (cand_id <$> slice_to (max_suggestions req) top)) ∧
    ((∃ c, c ∈ top ∧ (0 <? plan_score [c])%float = true) →
     ∃ pre c post,
       top = pre ++ c :: post ∧
       (0 <? plan_score [c])%float = true ∧
       Forall (λ c', (plan_score [c'] <? plan_score [c])%float = true) pre ∧
       Forall (λ c', (plan_score [c'] <=? plan_score [c])%float = true) post ∧
       best_plan (plan_search req top) = [cand_id c] ∧
       best_plan_score (plan_search req top) = plan_score [c] ∧
       sg_id <$> suggestions resp
       = slice_to (max_suggestions req) [cand_id c]).
Proof.
  destruct (suggest_recipes_total self req)
    as (top & resp & Htop & Hsub & _ & Hresp & Hids & _).
  exists top, resp. split_and!; [done..| |].
  - intros Hall.
    assert (best_plan (plan_search req top) = []) as Hnil.
    { destruct (decide (best_plan (plan_search req top) = [])) as [|Hne];
        [done|].
      apply (plan_size_one_records self) in Hne as (c & Hc & Hs); [|done..].
      rewrite (Hall c Hc) in Hs. done. }
    revert Hids. unfold final_plan. by rewrite decide_True.
  - intros Hex.
    pose proof (proj2 (plan_size_one_records self req top Hsize Hsub) Hex)
      as Hne.
    revert Hids. unfold final_plan. rewrite decide_False by done. simpl.
    revert Hne. rewrite plan_search_unfold.
    rewrite decide_False by lia. simpl. rewrite decide_False by lia.
    rewrite (backtrack_loop_singletons req Hsize); last first.
    { apply Forall_forall. intros c Hc.
      by apply (greedy_missing_length self), Hsub. }
    assert (not_nan (best_plan_score (evaluate req [] initial_state)))
      as Hnan.
    { apply (evaluate_improves req [] initial_state).
      vm_compute. by intros [=]. }
    destruct (first_best_singleton req top
                (evaluate req [] initial_state) Hnan)
      as [[Heq _]|(pre & c & post & Hsplit & Hplan & Hscore & Hbeat & Hpre
                   & Hpost)].
    { apply Forall_forall. intros c Hc.
      by apply (singleton_within_budget self), Hsub. }
    + rewrite Heq. intros Hne. destruct Hne.
      unfold evaluate. case_decide; [|done]. by destruct (_ <? _)%float.
    + intros _ Hids. exists pre, c, post.
      split_and!; [done| |done|done|done|done|by rewrite <- Hplan].
      assert (c ∈ top) as Hc.
      { rewrite Hsplit. apply elem_of_app. right. left. }
      pose proof (greedy_missing_length self req c (Hsub c Hc)) as Hlen.
      rewrite evaluate_nil in Hbeat by lia. exact Hbeat.
Qed.

(** The end-to-end example has [plan_size = 1]: R1 alone scores 2.8, and
    the response is R1. *)
Lemma plan_size_one_response_example :
  plan_size Examples.request = 1%Z ∧
  ∃ top resp,
    top_candidates Examples.engine Examples.request = Some top ∧
    suggest_recipes Examples.engine Examples.request = Some resp ∧
    ((∀ c, c ∈ top → (0 <? plan_score [c])%float = false) →
     sg_id <$> suggestions resp
     = slice_to 8 (cand_id <$> slice_to 8 top)) ∧
    ((∃ c, c ∈ top ∧ (0 <? plan_score [c])%float = true) →
     ∃ pre c post,
       top = pre ++ c :: post ∧
       (0 <? plan_score [c])%float = true ∧
       Forall (λ c', (plan_score [c'] <? plan_score [c])%float = true) pre ∧
       Forall (λ c', (plan_score [c'] <=? plan_score [c])%float = true) post ∧
       best_plan (plan_search Examples.request top) = [cand_id c] ∧
       best_plan_score (plan_search Examples.request top) = plan_score [c] ∧
       sg_id <$> suggestions resp = slice_to 8 [cand_id c]).
Proof.
  split; [reflexivity|].
  exact (plan_size_one_response Examples.engine Examples.request eq_refl).
Defined.

(** C3 fails on the code: in the end-to-end example ([plan_size = 1],
    [max_suggestions = 8]) the shortlist holds R2 and R1, the search records
    the single plan [R1], whose score 2.8 is above that of the empty plan, and
    the response holds R1 alone: it is not the first [max_suggestions]
    entries of the shortlist, whether the shortlist is ranked by ingredient
    count and score or by score alone. *)
Lemma plan_size_one_counterexample :
  let eng := Examples.engine in
  (∃ top resp,
     plan_size Examples.request = 1%Z ∧
     top_candidates eng Examples.request = Some top ∧
     suggest_recipes eng Examples.request = Some resp ∧
     cand_id <$> slice_to (max_suggestions Examples.request) top
     = ["R2"; "R1"] ∧
     sg_id <$> suggestions resp = ["R1"] ∧
     sg_id <$> suggestions resp
     ≠ cand_id <$> slice_to (max_suggestions Examples.request) top) ∧
  (∃ top resp,
     plan_size Examples.request_by_score = 1%Z ∧
     top_candidates eng Examples.request_by_score = Some top ∧
     suggest_recipes eng Examples.request_by_score = Some resp ∧
     cand_id <$> slice_to (max_suggestions Examples.request_by_score) top
     = ["R1"; "R2"] ∧
     sg_id <$> suggestions resp = ["R1"] ∧
     sg_id <$> suggestions resp
     ≠ cand_id <$> slice_to (max_suggestions Examples.request_by_score) top).
Proof.
  split.
  - eexists. eexists. split; [reflexivity|]. split; [by vm_compute|].
    split; [by vm_compute|]. split; [by vm_compute|].
    split; [by vm_compute|]. vm_compute. discriminate.
  - eexists. eexists. split; [reflexivity|]. split; [by vm_compute|].
    split; [by vm_compute|]. split; [by vm_compute|].
    split; [by vm_compute|]. vm_compute. discriminate.
Qed.
